(** * rx-player: ISOBMFF box utilities and the source-buffer queue

    A shallow embedding of

    - [src/net/dash/mp4.js] ([findAtom], [getAtomContent], [getMdat],
      [parseSidx], [Atom], [createPssh], [patchPssh]), and
    - the [BufferingQueue] class ([queueAction], [flush], [onUpdate],
      [onError], [dispose]),

    together with the properties their specification states about them.

    Conventions of the embedding.

    - A JavaScript Number is a [num]: an integer [Num z] or [NaN].
      [undefined] used as a number behaves as [NaN] in every place the
      code uses it (arithmetic and comparisons), so both are [NaN] here.
      Additions whose operands may leave the 53-bit range ([offset] and
      [time] of [parseSidx], [be8toi]) round as IEEE doubles do
      ([round53]); index arithmetic inside a typed array is exact.
    - The elements of a [Uint8Array] are a [list byte].  Functions that
      only read their argument are functions of that list.  [patchPssh],
      which slices, concatenates and overwrites typed arrays, runs in a
      store of array buffers ([heap]) in which [subarray] aliases and
      [concat] allocates.
    - A call either returns or throws: [outcome]. *)

From Stdlib Require Import ZArith List Lia Bool String Ascii.
From Stdlib.Strings Require Import Byte.
From stdpp Require Import base list.
Import ListNotations.

Local Open Scope Z_scope.

(** ** Outcomes of a call *)

Inductive error : Type :=
| AssertionError (msg : string)   (* thrown by [assert] *)
| NotImplemented                  (* [throw new Error("not implemented")] *)
| RangeError                      (* thrown by [TypedArray.prototype.set] *)
| TypeError                       (* a property of [null] is read *)
| ResourceError (code : Z).       (* an error raised by the source buffer *)

Inductive outcome (A : Type) : Type :=
| Ret (a : A)
| Throw (e : error).
Arguments Ret {A} a.
Arguments Throw {A} e.

(** ** JavaScript numbers *)

Module JsNum.

Inductive num : Type :=
| Num (z : Z)
| NaN.

(** Round-to-nearest-even of an integer to a 53-bit significand, the
    result of an IEEE-754 double operation whose exact result is [z]. *)
Definition round53 (z : Z) : Z :=
  let a := Z.abs z in
  if a <? 2 ^ 53 then z
  else
    let e := Z.log2 a - 52 in
    let q := a / 2 ^ e in
    let r := a mod 2 ^ e in
    let half := 2 ^ (e - 1) in
    let q' := if r <? half then q
              else if half <? r then q + 1
              else if Z.even q then q else q + 1 in
    Z.sgn z * (q' * 2 ^ e).

(** [a + b] and [a - b] on doubles. *)
Definition fadd (a b : num) : num :=
  match a, b with
  | Num x, Num y => Num (round53 (x + y))
  | _, _ => NaN
  end.

Definition fsub (a b : num) : num :=
  match a, b with
  | Num x, Num y => Num (round53 (x - y))
  | _, _ => NaN
  end.

(** [a + b] and [a * b] where both operands are indices into, lengths of,
    or at most 32-bit fields read from a typed array: the result is far
    below [2 ^ 53] and no rounding takes place. *)
Definition add (a b : num) : num :=
  match a, b with
  | Num x, Num y => Num (x + y)
  | _, _ => NaN
  end.

Definition mul (a b : num) : num :=
  match a, b with
  | Num x, Num y => Num (x * y)
  | _, _ => NaN
  end.

(** [a <= b]: false as soon as an operand is [NaN]. *)
Definition leb (a b : num) : bool :=
  match a, b with Num x, Num y => x <=? y | _, _ => false end.

(** [a === b] on numbers. *)
Definition eqb (a b : num) : bool :=
  match a, b with Num x, Num y => x =? y | _, _ => false end.

(** ToUint32 and ToInt32 ([NaN] goes to 0). *)
Definition to_uint32 (a : num) : Z :=
  match a with Num x => x mod 2 ^ 32 | NaN => 0 end.
Definition to_int32 (a : num) : Z :=
  let u := to_uint32 a in if u <? 2 ^ 31 then u else u - 2 ^ 32.

(** [a & b] and [a >>> n]. *)
Definition band (a b : num) : num :=
  Num (to_int32 (Num (Z.land (to_uint32 a) (to_uint32 b)))).

Definition ushr (a : num) (n : Z) : num :=
  Num (Z.shiftr (to_uint32 a) (n mod 32)).

(** ToIntegerOrInfinity, as the typed-array methods apply it to an index
    argument. *)
Definition to_integer (a : num) : Z :=
  match a with Num x => x | NaN => 0 end.

End JsNum.
Import JsNum.

(** ** utils/bytes *)

Module Bytes.

Definition b2z (b : byte) : Z := Z.of_N (Byte.to_N b).

Definition z2b (z : Z) : byte :=
  match Byte.of_N (Z.to_N (z mod 256)) with
  | Some b => b
  | None => x00
  end.

(** [buf[i]]: the element, or [undefined] out of range. *)
Definition get (buf : list byte) (i : Z) : num :=
  if i <? 0 then NaN
  else match buf !! Z.to_nat i with
       | Some b => Num (b2z b)
       | None => NaN
       end.

(** Modelled from the spec: [be2toi] of utils/bytes is not among the
    sources; it reads the 16-bit big-endian unsigned field that starts
    at [off].  A byte read past the end is [undefined] and makes the
    result [NaN]. *)
Definition be2toi (buf : list byte) (off : Z) : num :=
  add (mul (get buf off) (Num 256)) (get buf (off + 1)).

(** Modelled from the spec: [be4toi] of utils/bytes is not among the
    sources; it reads the 32-bit big-endian unsigned field that starts
    at [off]. *)
Definition be4toi (buf : list byte) (off : Z) : num :=
  add (add (add (mul (get buf off) (Num 16777216))
                (mul (get buf (off + 1)) (Num 65536)))
           (mul (get buf (off + 2)) (Num 256)))
      (get buf (off + 3)).

(** Modelled from the spec: [be8toi] of utils/bytes is not among the
    sources; it reads the 64-bit big-endian unsigned field that starts
    at [off], as a double: the high word times [2 ^ 32] plus the low
    word, rounded. *)
Definition be8toi (buf : list byte) (off : Z) : num :=
  fadd (mul (be4toi buf off) (Num 4294967296)) (be4toi buf (off + 4)).

(** Modelled from the spec: [itobe4] of utils/bytes is not among the
    sources; it is the 4-byte big-endian encoding of a number,
    [[(n >>> 24) & 0xff, (n >>> 16) & 0xff, (n >>> 8) & 0xff, n & 0xff]]. *)
Definition itobe4 (n : num) : list byte :=
  map (fun sh => z2b (to_integer (band (ushr n sh) (Num 255))))
      [24; 16; 8; 0].

(** Modelled from the spec: [strToBytes] of utils/bytes is not among the
    sources; a box name is written as the character codes of its four
    ASCII characters. *)
Definition strToBytes (s : string) : list byte :=
  map byte_of_ascii (list_ascii_of_string s).

Definition hexDigit (c : ascii) : option Z :=
  let n := Z.of_nat (nat_of_ascii c) in
  if (48 <=? n) && (n <=? 57) then Some (n - 48)
  else if (65 <=? n) && (n <=? 70) then Some (n - 55)
  else if (97 <=? n) && (n <=? 102) then Some (n - 87)
  else None.

Definition isSpace (c : ascii) : bool :=
  let n := Z.of_nat (nat_of_ascii c) in
  ((9 <=? n) && (n <=? 13)) || (n =? 32).

(** [parseInt(c1 + c2, 16) & 0xFF] for a two-character string: leading
    white space and a sign are skipped, then the longest prefix of
    hexadecimal digits is read; with no digit the result is [NaN], and
    [NaN & 0xFF] is 0. *)
Definition parsePair (c1 c2 : ascii) : Z :=
  match hexDigit c1 with
  | Some a => match hexDigit c2 with
              | Some b => 16 * a + b
              | None => a
              end
  | None =>
      if isSpace c1 || Ascii.eqb c1 "+"%char then
        match hexDigit c2 with Some b => b | None => 0 end
      else if Ascii.eqb c1 "-"%char then
        match hexDigit c2 with Some b => (- b) mod 256 | None => 0 end
      else 0
  end.

(** Modelled from the spec: [hexToBytes] of utils/bytes is not among the
    sources; it decodes the raw bytes of a hexadecimal string, one byte
    for every two characters.  The spec says nothing of characters that
    are not hexadecimal digits: [createPssh] passes the string on
    unchecked, and the decoding is total, each pair going through
    [parsePair]. *)
Fixpoint hexToBytes_chars (cs : list ascii) : list byte :=
  match cs with
  | c1 :: c2 :: rest => z2b (parsePair c1 c2) :: hexToBytes_chars rest
  | _ => []
  end.

Definition hexToBytes (s : string) : list byte :=
  hexToBytes_chars (list_ascii_of_string s).

(** An argument of [concat]: a number [n] stands for [n] zeroed bytes,
    an array for its elements ("4, // 4 initial zeroed bytes" in
    [createPssh]). *)
Inductive concat_arg (A : Type) : Type :=
| ArgNum (n : Z)
| ArgArr (a : A).
Arguments ArgNum {A} n.
Arguments ArgArr {A} a.

(** Modelled from the spec: [concat] of utils/bytes is not among the
    sources; it returns a new array holding its arguments one after the
    other. *)
Definition concat_bytes (args : list (concat_arg (list byte))) : list byte :=
  flat_map (fun a => match a with
                     | ArgNum n => repeat x00 (Z.to_nat n)
                     | ArgArr bs => bs
                     end) args.

(** [String.prototype.replace(/-/g, "")]. *)
Definition removeHyphens (s : string) : string :=
  string_of_list_ascii
    (List.filter (fun c => negb (Ascii.eqb c "-"%char))
                 (list_ascii_of_string s)).

End Bytes.
Import Bytes.

(** ** Typed arrays over a store of array buffers *)

Module Heap.

(** The store: array buffer number [k] is the [k]-th list. *)
Abbreviation heap := (list (list byte)).

(** A [Uint8Array] is a window on an array buffer. *)
Record Uint8Array : Type := mkU8 {
  buffer : nat;
  byteOffset : nat;
  len : nat
}.

Definition elements (h : heap) (a : Uint8Array) : list byte :=
  take (len a) (drop (byteOffset a) (default [] (h !! buffer a))).

Definition valid (h : heap) (a : Uint8Array) : Prop :=
  exists bs, h !! buffer a = Some bs /\
             (byteOffset a + len a <= length bs)%nat.

(** Computations that read and write the store and may throw. *)
Definition M (A : Type) : Type := heap -> outcome A * heap.

Definition ret {A} (a : A) : M A := fun h => (Ret a, h).
Definition throw {A} (e : error) : M A := fun h => (Throw e, h).
Definition bind {A B} (m : M A) (k : A -> M B) : M B :=
  fun h => match m h with
           | (Ret a, h') => k a h'
           | (Throw e, h') => (Throw e, h')
           end.

(** A function that only reads an array, run on the array's elements. *)
Definition reading {A} (f : list byte -> outcome A) (a : Uint8Array) : M A :=
  fun h => (f (elements h a), h).

(** [new Uint8Array(...)] with the given elements: a new array buffer. *)
Definition alloc (bs : list byte) : M Uint8Array :=
  fun h => (Ret (mkU8 (length h) 0 (length bs)), h ++ [bs]).

(** The relative index of [subarray]: negative counts from the end, and
    the result is clamped to the array. *)
Definition rel_index (n k : Z) : Z :=
  if k <? 0 then Z.max (n + k) 0 else Z.min k n.

(** [a.subarray(begin, end)]: a new window on the same array buffer;
    a missing [end] is the length. *)
Definition subarray (a : Uint8Array) (begin : num) (end_ : option num)
  : Uint8Array :=
  let n := Z.of_nat (len a) in
  let b := rel_index n (to_integer begin) in
  let e := match end_ with
           | Some e => rel_index n (to_integer e)
           | None => n
           end in
  mkU8 (buffer a) (byteOffset a + Z.to_nat b) (Z.to_nat (Z.max (e - b) 0)).

(** The elements [buf.subarray(begin, end)] shows, for a function that
    reads [buf] as a list. *)
Definition slice (buf : list byte) (begin : num) (end_ : option num)
  : list byte :=
  let n := Z.of_nat (length buf) in
  let b := rel_index n (to_integer begin) in
  let e := match end_ with
           | Some e => rel_index n (to_integer e)
           | None => n
           end in
  take (Z.to_nat (Z.max (e - b) 0)) (drop (Z.to_nat b) buf).

(** [target.set(src, offset)]: copies the elements of [src] into the
    array buffer of [target]; throws when they do not fit. *)
Definition set (target src : Uint8Array) (offset : Z) : M unit :=
  fun h =>
    if (offset <? 0) || (Z.of_nat (len target) <? offset + Z.of_nat (len src))
    then (Throw RangeError, h)
    else
      let at_ := (byteOffset target + Z.to_nat offset)%nat in
      let old := default [] (h !! buffer target) in
      let new := take at_ old ++ elements h src
                 ++ drop (at_ + len src) old in
      (Ret tt, <[buffer target := new]> h).

End Heap.
Import Heap.

Notation "'do' x <- m ; k" := (Heap.bind m (fun x => k))
  (at level 10, x name, m at level 100, k at level 200).

(** ** src/net/dash/mp4.js *)

Module Mp4.

Definition SIDX : Z := 0x73696478.
Definition MOOV : Z := 0x6d6f6f76.
Definition MDAT : Z := 0x6D646174.

(** Modelled from the spec: [assert] of utils/assert is not among the
    sources; [assert(cond, msg)] throws an error carrying [msg] when
    [cond] is false, the fatal decode or validation error of the spec. *)
Definition assert (cond : bool) (msg : string) : outcome unit :=
  if cond then Ret tt else Throw (AssertionError msg).

(** The [while (i + 8 < l)] loop that [findAtom] and [getAtomContent]
    both start with, from the state [(i, size)].  It leaves with the
    final [(i, size)], or throws when a size read is not positive.
    [size] is [undefined] until a header has been read.

    Every turn that goes on adds a positive size to [i], so [l - i]
    turns are enough; [scan_fuel] is given them by [scan], and
    [scan_unfold] shows that [scan] satisfies the equation of the
    loop.  [assert(size > 0, ...)] fails on a size that is not a
    positive number, [NaN] included. *)
Fixpoint scan_fuel (fuel : nat) (buf : list byte) (atomName : Z)
  (i : Z) (size : num) : outcome (Z * num) :=
  match fuel with
  | O => Ret (i, size)
  | S fuel' =>
      if i + 8 <? Z.of_nat (length buf) then
        let size := be4toi buf i in
        let name := be4toi buf (i + 4) in
        match size with
        | Num s =>
            if 0 <? s then
              if eqb name (Num atomName) then Ret (i, size)
              else scan_fuel fuel' buf atomName (i + s) size
            else Throw (AssertionError "dash: out of range size")
        | NaN => Throw (AssertionError "dash: out of range size")
        end
      else Ret (i, size)
  end.

Definition scan (buf : list byte) (atomName : Z) (i : Z) (size : num)
  : outcome (Z * num) :=
  scan_fuel (Z.to_nat (Z.of_nat (length buf) - i)) buf atomName i size.

(** The states [(i, size)] in which the loop evaluates its condition:
    the first one, and the one after each turn that went on to the next
    box. *)
Inductive reach (buf : list byte) (atomName : Z) : Z -> num -> Prop :=
| reach_first : reach buf atomName 0 NaN
| reach_next i size s :
    reach buf atomName i size ->
    i + 8 < Z.of_nat (length buf) ->
    be4toi buf i = Num s ->
    0 < s ->
    be4toi buf (i + 4) <> Num atomName ->
    reach buf atomName (i + s) (Num s).

Definition findAtom (buf : list byte) (atomName : Z) : outcome Z :=
  let l := Z.of_nat (length buf) in
  match scan buf atomName 0 NaN with
  | Throw e => Throw e
  | Ret (i, size) =>
      if l <=? i then Ret (-1)
      else
        match assert (leb (add (Num i) size) (Num l))
                     "dash: atom out of range" with
        | Throw e => Throw e
        | Ret _ => Ret i
        end
  end.

(** [getAtomContent] returns a window on [buf], given here by its
    elements, or [null]. *)
Definition getAtomContent (buf : list byte) (atomName : Z)
  : outcome (option (list byte)) :=
  let l := Z.of_nat (length buf) in
  match scan buf atomName 0 NaN with
  | Throw e => Throw e
  | Ret (i, size) =>
      if i <? l
      then Ret (Some (slice buf (Num (i + 8)) (Some (add (Num i) size))))
      else Ret None
  end.

Definition getMdat (buf : list byte) : outcome (option (list byte)) :=
  getAtomContent buf MDAT.

Record segment : Type := mkSegment {
  ts : num;
  d : num;
  r : Z;
  range : num * num
}.

Record sidx : Type := mkSidx {
  segments : list segment;
  timescale : num
}.

(** The [while (--count >= 0)] loop of [parseSidx], [count] turns
    left. *)
Fixpoint references (count : nat) (buf : list byte) (pos : Z)
  (time offset : num) (segments : list segment) : outcome (list segment) :=
  match count with
  | O => Ret segments
  | S count' =>
      let refChunk := be4toi buf pos in
      let pos := pos + 4 in
      let refType := ushr (band refChunk (Num 0x80000000)) 31 in
      let refSize := band refChunk (Num 0x7fffffff) in
      if eqb refType (Num 1) then Throw NotImplemented
      else
        let d := be4toi buf pos in
        let pos := pos + 4 in
        let pos := pos + 4 in
        let ts := time in
        let segments :=
          segments ++ [mkSegment ts d 0
                         (offset, fsub (fadd offset refSize) (Num 1))] in
        references count' buf pos (fadd time d) (fadd offset refSize)
                   segments
  end.

(** The number of turns of [while (--count >= 0)]. *)
Definition turns (count : num) : nat :=
  match count with
  | Num n => Z.to_nat n
  | NaN => O
  end.

(** [parseSidx]: [Ret None] is the [null] result. *)
Definition parseSidx (buf : list byte) (offset : num)
  : outcome (option sidx) :=
  match findAtom buf SIDX with
  | Throw e => Throw e
  | Ret index =>
      if index =? -1 then Ret None
      else
        let size := be4toi buf index in
        let pos := index + 4 + 4 in
        let version := get buf pos in
        let pos := pos + (4 + 4) in
        let timescale := be4toi buf pos in
        let pos := pos + 4 in
        let after_header (time offset : num) (pos : Z) :=
          let pos := pos + 2 in
          let count := be2toi buf pos in
          let pos := pos + 2 in
          match references (turns count) buf pos time offset [] with
          | Throw e => Throw e
          | Ret segments => Ret (Some (mkSidx segments timescale))
          end in
        if eqb version (Num 0) then
          let time := be4toi buf pos in
          let pos := pos + 4 in
          let offset := fadd offset (fadd (be4toi buf pos) size) in
          let pos := pos + 4 in
          after_header time offset pos
        else if eqb version (Num 1) then
          let time := be8toi buf pos in
          let pos := pos + 8 in
          let offset := fadd offset (fadd (be8toi buf pos) size) in
          let pos := pos + 8 in
          after_header time offset pos
        else Ret None
  end.

(** A content protection: [{ systemId, privateData }]. *)
Record protection : Type := mkProtection {
  systemId : string;
  privateData : Uint8Array
}.

Definition lift {A} (o : outcome A) : M A := fun h => (o, h).

(** What [concat] copies from an argument: the elements the array has
    in the store at the time of the call. *)
Definition resolve (h : heap) (a : concat_arg Uint8Array)
  : concat_arg (list byte) :=
  match a with
  | ArgNum n => ArgNum n
  | ArgArr a => ArgArr (elements h a)
  end.

(** [concat] on typed arrays: a new array. *)
Definition concat (args : list (concat_arg Uint8Array)) : M Uint8Array :=
  fun h => alloc (concat_bytes (map (resolve h) args)) h.

Definition Atom (name : string) (buff : Uint8Array) : M Uint8Array :=
  let len := Z.of_nat (len buff) + 8 in
  do size <- alloc (itobe4 (Num len));
  do nm <- alloc (strToBytes name);
  concat [ArgArr size; ArgArr nm; ArgArr buff].

Definition createPssh (p : protection) : M Uint8Array :=
  let systemId := removeHyphens (systemId p) in
  do _ <- lift (assert (Nat.eqb (String.length systemId) 32) "");
  do id <- alloc (hexToBytes systemId);
  do pl <- alloc (itobe4 (Num (Z.of_nat (len (privateData p)))));
  do content <- concat [ArgNum 4; ArgArr id; ArgArr pl;
                        ArgArr (privateData p)];
  Atom "pssh" content.

(** The [for] loop of [patchPssh] pushing one box for each protection. *)
Fixpoint pushPssh (pssList : list protection) (newmoov : list Uint8Array)
  : M (list Uint8Array) :=
  match pssList with
  | [] => ret newmoov
  | p :: rest =>
      do box <- createPssh p;
      pushPssh rest (newmoov ++ [box])
  end.

(** [patchPssh(buf, pssList)]; a [pssList] that is [null] or
    [undefined] is [None]. *)
Definition patchPssh (buf : Uint8Array) (pssList : option (list protection))
  : M Uint8Array :=
  match pssList with
  | None | Some [] => ret buf
  | Some pssList =>
      do pos <- reading (fun bs => findAtom bs MOOV) buf;
      if pos =? -1 then ret buf
      else
        do size <- reading (fun bs => Ret (be4toi bs pos)) buf;
        let moov := subarray buf (Num pos) (Some (add (Num pos) size)) in
        do newmoov <- pushPssh pssList [moov];
        do newmoov <- concat (map ArgArr newmoov);
        do lenb <- alloc (itobe4 (Num (Z.of_nat (len newmoov))));
        do _ <- set newmoov lenb 0;
        concat [ArgArr (subarray buf (Num 0) (Some (Num pos)));
                ArgArr newmoov;
                ArgArr (subarray buf (add (Num pos) size) None)]
  end.

(** The bytes of a box with a given 4-byte name code and content, and
    of a sequence of boxes: what a well-formed buffer is made of. *)
Definition box (name : Z) (content : list byte) : list byte :=
  itobe4 (Num (Z.of_nat (length content) + 8)) ++ itobe4 (Num name)
  ++ content.

Definition boxes (bs : list (Z * list byte)) : list byte :=
  flat_map (fun b => box (fst b) (snd b)) bs.

(** Each box has a 32-bit name other than [atomName] and a 32-bit
    size. *)
Definition other_boxes (atomName : Z) (bs : list (Z * list byte)) : Prop :=
  Forall (fun b => 0 <= fst b < 2 ^ 32 /\ fst b <> atomName /\
                   Z.of_nat (length (snd b)) + 8 < 2 ^ 32) bs.

(** The last box, if there is one, has a content. *)
Fixpoint ends_with_content (bs : list (Z * list byte)) : Prop :=
  match bs with
  | [] => True
  | [b] => snd b <> []
  | _ :: bs' => ends_with_content bs'
  end.

(** The bytes of the [pssh] box of a content protection whose private
    data are [privateData]: the header of the box, 4 zeroed bytes, the
    16 bytes of the system ID, the length of the private data and the
    private data. *)
Definition pssh_bytes (systemId : string) (privateData : list byte)
  : list byte :=
  let content :=
    repeat x00 4 ++ hexToBytes (removeHyphens systemId)
    ++ itobe4 (Num (Z.of_nat (length privateData))) ++ privateData in
  itobe4 (Num (Z.of_nat (length content) + 8)) ++ strToBytes "pssh"
  ++ content.

(** The length of that box, and of the boxes of a list of content
    protections. *)
Definition pssh_length (p : protection) : Z :=
  8 + 24 + Z.of_nat (len (privateData p)).

Definition pssh_total (pssList : list protection) : Z :=
  fold_right (fun p acc => pssh_length p + acc) 0 pssList.

(** A system ID of 32 characters once the hyphens are removed, and
    private data that are an array of the store. *)
Definition well_formed (h : heap) (p : protection) : Prop :=
  valid h (privateData p) /\
  String.length (removeHyphens (systemId p)) = 32%nat.

(** A media reference record of a [sidx] box: the size (top bit 0),
    the duration and the SAP word. *)
Definition reference (size duration : Z) (sap : list byte) : list byte :=
  itobe4 (Num size) ++ itobe4 (Num duration) ++ sap.

(** The synthetic [sidx] box of the segment-index test: version 0,
    timescale 1000, earliest presentation time 0, first offset 0 and the
    two media references (100, 500) and (150, 500).  The flags, the
    reference ID and the two SAP words are the caller's. *)
Definition synthetic_sidx (flags refid sap1 sap2 : list byte) : list byte :=
  itobe4 (Num 56) ++ strToBytes "sidx"
  ++ [x00] ++ flags ++ refid
  ++ itobe4 (Num 1000)
  ++ itobe4 (Num 0) ++ itobe4 (Num 0)
  ++ [x00; x00] ++ [x00; x02]
  ++ reference 100 500 sap1 ++ reference 150 500 sap2.

(** The inputs of [parseSidx] in the statements below: the layout of a
    [sidx] box, as [parseSidx] reads it field by field.  A reference
    record has the type bit (set for a reference to another index), the
    31-bit size, the duration and the SAP word. *)
Record reference_record : Type := mkReference {
  ref_index : bool;
  ref_size : Z;
  ref_duration : Z;
  ref_sap : list byte
}.

Definition reference_bytes (r : reference_record) : list byte :=
  itobe4 (Num ((if ref_index r then 2 ^ 31 else 0) + ref_size r))
  ++ itobe4 (Num (ref_duration r)) ++ ref_sap r.

(** The bytes of a field of 16 and of 64 bits, big-endian. *)
Definition field16 (n : Z) : list byte := [z2b (n / 256); z2b n].

Definition field64 (n : Z) : list byte :=
  itobe4 (Num (n / 2 ^ 32)) ++ itobe4 (Num (n mod 2 ^ 32)).

(** The content of a [sidx] box, of version 1 (64-bit time and offset)
    or 0 (32-bit ones): version, flags, reference ID, timescale, earliest
    presentation time, first offset, 2 reserved bytes, the count of the
    records and the records. *)
Definition sidx_content (version1 : bool) (flags refid : list byte)
  (timescale time first_offset : Z) (refs : list reference_record)
  : list byte :=
  [if version1 then x01 else x00] ++ flags ++ refid
  ++ itobe4 (Num timescale)
  ++ (if version1 then field64 time ++ field64 first_offset
      else itobe4 (Num time) ++ itobe4 (Num first_offset))
  ++ [x00; x00] ++ field16 (Z.of_nat (length refs))
  ++ flat_map reference_bytes refs.

(** A record that refers to media, with fields of the right widths. *)
Definition media_record (r : reference_record) : Prop :=
  ref_index r = false /\ 0 <= ref_size r < 2 ^ 31 /\
  0 <= ref_duration r < 2 ^ 32 /\ length (ref_sap r) = 4%nat.

(** The segments of media records, from a time and a byte offset on:
    what the loop of [parseSidx] pushes while no sum is rounded. *)
Fixpoint media_segments (time offset : Z) (refs : list reference_record)
  : list segment :=
  match refs with
  | [] => []
  | r :: rest =>
      mkSegment (Num time) (Num (ref_duration r)) 0
                (Num offset, Num (offset + ref_size r - 1))
      :: media_segments (time + ref_duration r) (offset + ref_size r) rest
  end.

Definition total_size (refs : list reference_record) : Z :=
  fold_right (fun r acc => ref_size r + acc) 0 refs.

Definition total_duration (refs : list reference_record) : Z :=
  fold_right (fun r acc => ref_duration r + acc) 0 refs.

(** Each segment starts, in time and in bytes, where the one before it
    ends, as the loop of [parseSidx] computes it: in doubles, each sum
    rounded. *)
Fixpoint chained (segs : list segment) : Prop :=
  match segs with
  | s1 :: rest =>
      match rest with
      | s2 :: _ =>
          ts s2 = fadd (ts s1) (d s1) /\
          snd (range s1) = fsub (fst (range s2)) (Num 1)
      | [] => True
      end /\ chained rest
  | [] => True
  end.

(** A number that is an integer of absolute value below [2 ^ 53], the
    range in which doubles hold every integer. *)
Definition safe (x : num) : Prop :=
  match x with
  | Num z => Z.abs z < 2 ^ 53
  | NaN => False
  end.

(** Each segment starts, in time and in bytes, where the one before it
    ends, in exact arithmetic: the time of a segment is the time of the
    one before plus its duration, and its range starts one byte after
    the end of the range before. *)
Fixpoint contiguous (segs : list segment) : Prop :=
  match segs with
  | s1 :: rest =>
      match rest with
      | s2 :: _ =>
          exists t dd b,
            ts s1 = Num t /\ d s1 = Num dd /\ ts s2 = Num (t + dd) /\
            snd (range s1) = Num b /\ fst (range s2) = Num (b + 1)
      | [] => True
      end /\ contiguous rest
  | [] => True
  end.

(** The name [Atom("pssh", ...)] writes, as the locator decodes it. *)
Definition PSSH : Z := 0x70737368.

End Mp4.
Import Mp4.

(** ** The buffering queue *)

Module Queue.

Inductive action_type : Type :=
| BUFFER_APPEND
| BUFFER_REMOVE
| BUFFER_STREAM.

(** What is queued with an action: the bytes of [appendBuffer], the
    [{ start, end }] of [removeBuffer], the stream of [appendStream]. *)
Inductive args : Type :=
| Data (bytes : list byte)
| Range (start end_ : Z)
| Stream (handle : Z).

Definition start (a : args) : option Z :=
  match a with Range s _ => Some s | _ => None end.
Definition end_ (a : args) : option Z :=
  match a with Range _ e => Some e | _ => None end.

(** A [Subject] is known by the rank of its creation. *)
Definition subject := nat.

Record entry : Type := mkEntry {
  type : action_type;
  args_ : args;
  subj : subject
}.

(** The source buffer, an external resource with a state of its own:
    its [updating] flag and its three primitives, each of which changes
    the state and may throw ([Some e]). *)
Record SourceBuffer (R : Type) : Type := mkSourceBuffer {
  updating : R -> bool;
  appendBuffer : args -> R -> option error * R;
  appendStream : args -> R -> option error * R;
  remove : option Z -> option Z -> R -> option error * R
}.
Arguments updating {R} _ _.
Arguments appendBuffer {R} _ _ _.
Arguments appendStream {R} _ _ _.
Arguments remove {R} _ _ _ _.

(** What an observer of the queue sees, in the order it happens: the
    primitive of the source buffer that is called, and what the subjects
    are sent. *)
Inductive obs : Type :=
| Called (t : action_type) (a : args)
| Next (s : subject) (evt : Z)
| Complete (s : subject)
| Failed (s : subject) (e : error).

(** The fields of a [BufferingQueue]; [buffer] is whether [this.buffer]
    still is the source buffer ([true]) or [null]. *)
Record BufferingQueue : Type := mkQueue {
  buffer : bool;
  queue : list entry;
  flushing : option subject
}.

(** The queue in its environment: the state of the source buffer,
    whether the three listeners are registered on it, what has been
    observed so far, and the number of subjects created. *)
Record world (R : Type) : Type := mkWorld {
  this : BufferingQueue;
  resource : R;
  listening : bool;
  trace : list obs;
  subjects : nat
}.
Arguments mkWorld {R} _ _ _ _ _.
Arguments this {R} _.
Arguments resource {R} _.
Arguments listening {R} _.
Arguments trace {R} _.
Arguments subjects {R} _.

(** [queue.pop()]: the last element, [queue.unshift(e)] being [e ::]. *)
Fixpoint pop {A} (l : list A) : option (A * list A) :=
  match l with
  | [] => None
  | x :: l' =>
      match pop l' with
      | None => Some (x, [])
      | Some (y, l'') => Some (y, x :: l'')
      end
  end.

Section WithSourceBuffer.

Context {R : Type} (sb : SourceBuffer R).

(** [constructor(sourceBuffer)]. *)
Definition create (r : R) : world R :=
  mkWorld (mkQueue true [] None) r true [] 0.

(** [dispose()]: the listeners are removed, then the fields are reset.
    On a queue that has been disposed of, [this.buffer] is [null] and
    the first statement throws a [TypeError]: nothing is changed. *)
Definition dispose (w : world R) : outcome unit * world R :=
  if buffer (this w)
  then (Ret tt,
        mkWorld (mkQueue false [] None) (resource w) false (trace w)
                (subjects w))
  else (Throw TypeError, w).

Definition onUpdate (evt : Z) (w : world R) : world R :=
  match flushing (this w) with
  | Some s =>
      mkWorld (mkQueue (buffer (this w)) (queue (this w)) None)
              (resource w) (listening w)
              (trace w ++ [Next s evt; Complete s]) (subjects w)
  | None => w
  end.

Definition onError (e : error) (w : world R) : world R :=
  match flushing (this w) with
  | Some s =>
      mkWorld (mkQueue (buffer (this w)) (queue (this w)) None)
              (resource w) (listening w)
              (trace w ++ [Failed s e]) (subjects w)
  | None => w
  end.

(** The [switch] of [flush]: the primitive that goes with the type. *)
Definition primitive (t : action_type) (a : args) (r : R)
  : option error * R :=
  match t with
  | BUFFER_APPEND => appendBuffer sb a r
  | BUFFER_STREAM => appendStream sb a r
  | BUFFER_REMOVE => remove sb (start a) (end_ a) r
  end.

Definition flush (w : world R) : outcome unit * world R :=
  let q := this w in
  match flushing q with
  | Some _ => (Ret tt, w)
  | None =>
      match pop (queue q) with
      | None => (Ret tt, w)
      | Some (e, rest) =>
          if negb (buffer q) then (Throw TypeError, w)
          else if updating sb (resource w) then (Ret tt, w)
          else
            let (thrown, r') := primitive (type e) (args_ e) (resource w) in
            let w' := mkWorld (mkQueue (buffer q) rest (Some (subj e)))
                              r' (listening w)
                              (trace w ++ [Called (type e) (args_ e)])
                              (subjects w) in
            match thrown with
            | Some err => (Ret tt, onError err w')
            | None => (Ret tt, w')
            end
      end
  end.

Definition queueAction (t : action_type) (a : args) (w : world R)
  : outcome subject * world R :=
  let s := subjects w in
  let q := this w in
  let queue' := mkEntry t a s :: queue q in
  let w' := mkWorld (mkQueue (buffer q) queue' (flushing q))
                    (resource w) (listening w) (trace w) (S s) in
  if Nat.eqb (length queue') 1 then
    match flush w' with
    | (Throw e, w'') => (Throw e, w'')
    | (Ret _, w'') => (Ret s, w'')
    end
  else (Ret s, w').

Definition appendBuffer_ (data : list byte) :=
  queueAction BUFFER_APPEND (Data data).
Definition removeBuffer (start end_ : Z) :=
  queueAction BUFFER_REMOVE (Range start end_).
Definition appendStream_ (stream : Z) :=
  queueAction BUFFER_STREAM (Stream stream).

(** What can happen to the queue: a caller uses one of its methods, the
    source buffer fires an event, or the source buffer changes state on
    its own (an operation ends and [updating] falls). *)
Inductive input : Type :=
| DoAppendBuffer (data : list byte)
| DoRemoveBuffer (start end_ : Z)
| DoAppendStream (stream : Z)
| DoDispose
| EvUpdate (evt : Z)
| EvError (e : error)
| EvUpdateEnd
| EnvStep (r : R).

(** One input.  An event reaches the queue only while its listeners are
    registered, and what a listener throws is not the caller's.  The
    result is what the caller of a method gets back: the subject of a
    queued action, or what the method threw ([dispose] returns
    nothing). *)
Definition step (i : input) (w : world R)
  : option (outcome subject) * world R :=
  match i with
  | DoAppendBuffer data =>
      let (o, w') := appendBuffer_ data w in (Some o, w')
  | DoRemoveBuffer s e =>
      let (o, w') := removeBuffer s e w in (Some o, w')
  | DoAppendStream st =>
      let (o, w') := appendStream_ st w in (Some o, w')
  | DoDispose =>
      let (o, w') := dispose w in
      (match o with Ret _ => None | Throw e => Some (Throw e) end, w')
  | EvUpdate evt => (None, if listening w then onUpdate evt w else w)
  | EvError e => (None, if listening w then onError e w else w)
  | EvUpdateEnd => (None, if listening w then snd (flush w) else w)
  | EnvStep r =>
      (None, mkWorld (this w) r (listening w) (trace w) (subjects w))
  end.

(** A sequence of inputs; the subjects the callers were handed, in
    order, are collected. *)
Fixpoint run (ins : list input) (w : world R) (handles : list subject)
  : world R * list subject :=
  match ins with
  | [] => (w, handles)
  | i :: ins' =>
      let (o, w') := step i w in
      run ins' w' (match o with
                   | Some (Ret s) => handles ++ [s]
                   | _ => handles
                   end)
  end.

End WithSourceBuffer.

(** The subjects that have been settled (completed or failed), in the
    order of their settlement. *)
Definition settled (t : list obs) : list subject :=
  flat_map (fun o => match o with
                     | Complete s | Failed s _ => [s]
                     | _ => []
                     end) t.

(** The primitives called, in order. *)
Definition calls (t : list obs) : list (action_type * args) :=
  flat_map (fun o => match o with
                     | Called ty a => [(ty, a)]
                     | _ => []
                     end) t.

(** The action an input queues. *)
Definition queued {R} (i : input (R := R)) : list (action_type * args) :=
  match i with
  | DoAppendBuffer data => [(BUFFER_APPEND, Data data)]
  | DoRemoveBuffer s e => [(BUFFER_REMOVE, Range s e)]
  | DoAppendStream st => [(BUFFER_STREAM, Stream st)]
  | _ => []
  end.

(** A source buffer that checks it is given one operation at a time:
    [busy] from a call to the settlement that follows.  [None] when a
    call arrives while busy, or a settlement while idle. *)
Fixpoint single_outstanding (busy : bool) (t : list obs) : option bool :=
  match t with
  | [] => Some busy
  | Called _ _ :: t' => if busy then None else single_outstanding true t'
  | Next _ _ :: t' => if busy then single_outstanding busy t' else None
  | Complete _ :: t' | Failed _ _ :: t' =>
      if busy then single_outstanding false t' else None
  end.

(** The entries queued for the actions [ops], the first of which got the
    subject [first]. *)
Fixpoint entries (first : subject) (ops : list (action_type * args))
  : list entry :=
  match ops with
  | [] => []
  | (t, a) :: ops' => mkEntry t a first :: entries (S first) ops'
  end.

Definition in_flight (q : BufferingQueue) : bool :=
  match flushing q with Some _ => true | None => false end.

(** What holds of a queue that has not been disposed of, after the
    actions [ops] were queued and their callers were handed [handles]:
    the subjects are the ranks of the actions; the [k] first ones have
    been settled, in order; the next one is in flight if any is, and the
    primitives called are those of the actions up to it; the queue
    holds the others, the oldest last. *)
Definition live {R} (w : world R) (handles : list subject)
  (ops : list (action_type * args)) : Prop :=
  buffer (this w) = true /\ listening w = true /\
  subjects w = length ops /\ handles = seq 0 (length ops) /\
  exists k,
    let c := (k + if in_flight (this w) then 1 else 0)%nat in
    settled (trace w) = seq 0 k /\
    calls (trace w) = take c ops /\
    (c <= length ops)%nat /\
    single_outstanding false (trace w) = Some (in_flight (this w)) /\
    (forall s, flushing (this w) = Some s -> s = k) /\
    queue (this w) = rev (entries c (drop c ops)).

(** What holds once the queue has been disposed of: nothing is in
    flight for the queue and the listeners are gone. *)
Definition disposed {R} (w : world R) (handles : list subject)
  (ops : list (action_type * args)) : Prop :=
  buffer (this w) = false /\ listening w = false /\
  flushing (this w) = None /\
  (exists k, settled (trace w) = seq 0 k) /\
  settled (trace w) `prefix_of` handles /\
  calls (trace w) `prefix_of` ops /\
  single_outstanding false (trace w) <> None.

(** The handle a caller was given, if any. *)
Definition handle (o : option (outcome subject)) : list subject :=
  match o with
  | Some (Ret s) => [s]
  | _ => []
  end.

(** The three appends of the scenario in which the source buffer throws
    on the second call: the first operation ends ([updating] falls), and
    its [update] and [updateend] events are fired. *)
Definition three_appends : list (input (R := nat * bool)) :=
  [DoAppendBuffer [x01]; DoAppendBuffer [x02]; DoAppendBuffer [x03];
   EnvStep (1%nat, false); EvUpdate 0; EvUpdateEnd].

(** A source buffer whose second call throws; its state is the number
    of calls so far and its [updating] flag. *)
Definition second_call_throws : SourceBuffer (nat * bool) :=
  let prim := fun (r : nat * bool) =>
    if Nat.eqb (fst r) 1 then (Some (ResourceError 0), (S (fst r), false))
    else (None, (S (fst r), true)) in
  mkSourceBuffer (nat * bool) snd
    (fun _ => prim) (fun _ => prim) (fun _ _ => prim).

(** How the source buffer ends an operation: with an [update] event or
    with an [error] event. *)
Inductive completion : Type :=
| Updated (evt : Z)
| Errored (e : error).

Definition settlement (s : subject) (c : completion) : list obs :=
  match c with
  | Updated evt => [Next s evt; Complete s]
  | Errored e => [Failed s e]
  end.

(** A source buffer ending its operation: it is in the state [r], it
    fires the event of the completion and then [updateend]. *)
Definition round {R} (rc : R * completion) : list (input (R := R)) :=
  [EnvStep (fst rc);
   match snd rc with
   | Updated evt => EvUpdate evt
   | Errored e => EvError e
   end;
   EvUpdateEnd].

(** What goes on around a queue: a caller uses a method that queues an
    action, or the source buffer ends the operation in flight. *)
Inductive move (R : Type) : Type :=
| Queues (i : input (R := R))
| Ends (rc : R * completion).

Arguments Queues {R} i.
Arguments Ends {R} rc.

(** The inputs of a sequence of moves, the actions it queues and the
    completions of the operations it ends, in order. *)
Definition play {R} (s : list (move R)) : list (input (R := R)) :=
  flat_map (fun m => match m with
                     | Queues i => [i]
                     | Ends rc => round rc
                     end) s.

Definition asked {R} (s : list (move R)) : list (action_type * args) :=
  flat_map (fun m => match m with
                     | Queues i => queued i
                     | Ends _ => []
                     end) s.

Definition ended {R} (s : list (move R)) : list completion :=
  flat_map (fun m => match m with
                     | Queues _ => []
                     | Ends rc => [snd rc]
                     end) s.

(** A sequence of moves in which every [Queues] is a call of
    [appendBuffer], [removeBuffer] or [appendStream], and an operation
    ends only while one is in flight, leaving the source buffer not
    updating; [pending] actions have been queued and have not ended. *)
Fixpoint scheduled {R} (sb : SourceBuffer R) (pending : nat)
  (s : list (move R)) : Prop :=
  match s with
  | [] => True
  | Queues i :: s' => queued i <> [] /\ scheduled sb (S pending) s'
  | Ends rc :: s' =>
      match pending with
      | O => False
      | S p => updating sb (fst rc) = false /\ scheduled sb p s'
      end
  end.

(** What is observed when the actions [ops] are served one after the
    other and the first of them end as [cs] says, the first one having
    the subject [first]: each action is handed to the source buffer
    once the one before it has ended, and its subject is sent what its
    own operation ends with. *)
Fixpoint served (first : subject) (ops : list (action_type * args))
  (cs : list completion) : list obs :=
  match ops with
  | [] => []
  | (t, a) :: ops' =>
      Called t a ::
      match cs with
      | [] => []
      | c :: cs' => settlement first c ++ served (S first) ops' cs'
      end
  end.

(** The queue after the actions [ops] have been queued and the first of
    them have ended as [cs] says: the first action that has not ended
    is in flight and the ones after it wait in the queue, or all have
    ended and the queue is at rest. *)
Definition drained {R} (sb : SourceBuffer R)
    (ops : list (action_type * args)) (cs : list completion)
    (w : world R) (hs : list subject) : Prop :=
  (buffer (this w) = true /\ listening w = true /\
   subjects w = length ops /\ hs = seq 0 (length ops) /\
   trace w = served 0 ops cs /\
   ((length cs < length ops /\ flushing (this w) = Some (length cs) /\
     queue (this w) =
       rev (entries (S (length cs)) (drop (S (length cs)) ops)))
    \/
    (length cs = length ops /\ flushing (this w) = None /\
     queue (this w) = [] /\ updating sb (resource w) = false)))%nat.


(** A source buffer that takes every operation. *)
Definition never_throws : SourceBuffer bool :=
  mkSourceBuffer bool (fun r => r)
    (fun _ _ => (None, true)) (fun _ _ => (None, true))
    (fun _ _ _ => (None, true)).

End Queue.

(** * Properties *)

(** ** Numbers and bytes *)

Lemma b2z_range b : 0 <= b2z b < 256.
Proof.
  unfold b2z. pose proof (Byte.to_N_bounded b). lia.
Qed.

Lemma b2z_z2b z : 0 <= z < 256 -> b2z (z2b z) = z.
Proof.
  intros Hz. unfold b2z, z2b.
  rewrite Z.mod_small by lia.
  destruct (Byte.of_N (Z.to_N z)) as [b|] eqn:E.
  - apply Byte.to_of_N in E. rewrite E. lia.
  - pose proof (Byte.to_of_N_option_map (Z.to_N z)) as H.
    rewrite E in H. simpl in H.
    destruct (N.leb_spec (Z.to_N z) 255); [discriminate | lia].
Qed.

Lemma round53_small z : Z.abs z < 2 ^ 53 -> round53 z = z.
Proof.
  intros H. unfold round53.
  destruct (Z.ltb_spec (Z.abs z) (2 ^ 53)); [reflexivity | lia].
Qed.

Lemma get_lookup (buf : list byte) i b :
  0 <= i -> buf !! Z.to_nat i = Some b -> get buf i = Num (b2z b).
Proof.
  intros Hi Hb. unfold get.
  destruct (Z.ltb_spec i 0); [lia|]. now rewrite Hb.
Qed.

Lemma get_in_range (buf : list byte) i :
  0 <= i < Z.of_nat (length buf) ->
  exists b, buf !! Z.to_nat i = Some b /\ get buf i = Num (b2z b).
Proof.
  intros Hi.
  destruct (lookup_lt_is_Some_2 buf (Z.to_nat i)) as [b Hb]; [lia|].
  exists b. split; [assumption|]. apply get_lookup; [lia | assumption].
Qed.

Lemma get_app_r (pre buf : list byte) k :
  0 <= k -> get (pre ++ buf) (Z.of_nat (length pre) + k) = get buf k.
Proof.
  intros Hk. unfold get.
  destruct (Z.ltb_spec (Z.of_nat (length pre) + k) 0); [lia|].
  destruct (Z.ltb_spec k 0); [lia|].
  rewrite lookup_app_r by lia.
  replace (Z.to_nat (Z.of_nat (length pre) + k) - length pre)%nat
    with (Z.to_nat k) by lia.
  reflexivity.
Qed.

Lemma get_app_l (buf post : list byte) k :
  k < Z.of_nat (length buf) -> get (buf ++ post) k = get buf k.
Proof.
  intros Hk. unfold get.
  destruct (Z.ltb_spec k 0); [reflexivity|].
  now rewrite lookup_app_l by lia.
Qed.

(** A 32-bit field read inside the array is a number below [2 ^ 32]. *)
Lemma be4toi_in_range (buf : list byte) off :
  0 <= off -> off + 4 <= Z.of_nat (length buf) ->
  exists v, be4toi buf off = Num v /\ 0 <= v < 2 ^ 32.
Proof.
  intros H0 H4. unfold be4toi.
  destruct (get_in_range buf off) as (b0 & _ & ->); [lia|].
  destruct (get_in_range buf (off + 1)) as (b1 & _ & ->); [lia|].
  destruct (get_in_range buf (off + 2)) as (b2 & _ & ->); [lia|].
  destruct (get_in_range buf (off + 3)) as (b3 & _ & ->); [lia|].
  simpl. eexists. split; [reflexivity|].
  pose proof (b2z_range b0). pose proof (b2z_range b1).
  pose proof (b2z_range b2). pose proof (b2z_range b3). lia.
Qed.

Lemma be4toi_app_r (pre buf : list byte) k :
  0 <= k -> be4toi (pre ++ buf) (Z.of_nat (length pre) + k) = be4toi buf k.
Proof.
  intros Hk. unfold be4toi.
  rewrite <- !Z.add_assoc, !get_app_r by lia. reflexivity.
Qed.

Lemma be4toi_app_l (buf post : list byte) k :
  k + 4 <= Z.of_nat (length buf) -> be4toi (buf ++ post) k = be4toi buf k.
Proof.
  intros Hk. unfold be4toi. rewrite !get_app_l by lia. reflexivity.
Qed.

Lemma length_itobe4 n : length (itobe4 n) = 4%nat.
Proof. reflexivity. Qed.

Lemma itobe4_bytes n :
  0 <= n < 2 ^ 32 ->
  itobe4 (Num n) =
  [z2b (n / 2 ^ 24); z2b (n / 2 ^ 16 mod 256); z2b (n / 2 ^ 8 mod 256);
   z2b (n mod 256)].
Proof.
  intros Hn. unfold itobe4, ushr, band, to_int32, to_uint32, to_integer.
  cbn [map]. change (24 mod 32) with 24. change (16 mod 32) with 16.
  change (8 mod 32) with 8. change (0 mod 32) with 0.
  rewrite (Z.mod_small n) by lia.
  rewrite !Z.shiftr_div_pow2 by lia.
  change (255 mod 2 ^ 32) with (Z.ones 8).
  assert (Hs : forall k, 0 <= k <= 24 ->
            (n / 2 ^ k) mod 2 ^ 32 = n / 2 ^ k).
  { intros k Hk. apply Z.mod_small. split.
    - apply Z.div_pos; lia.
    - apply Z.div_lt_upper_bound; [lia|].
      assert (1 <= 2 ^ k) by (apply (Z.pow_le_mono_r 2 0 k); lia). nia. }
  rewrite !Hs by lia.
  rewrite !Z.land_ones by lia.
  assert (Hm : forall x, 0 <= x mod 2 ^ 8 < 2 ^ 31).
  { intros x. pose proof (Z.mod_pos_bound x (2 ^ 8)). lia. }
  assert (Hi : forall x, (x mod 2 ^ 8) mod 2 ^ 32 = x mod 2 ^ 8).
  { intros x. apply Z.mod_small. specialize (Hm x). lia. }
  rewrite !Hi.
  repeat match goal with
  | |- context [if ?c then _ else _] =>
      destruct c eqn:?; [| exfalso; rewrite Z.ltb_ge in *;
                           match goal with H : 2 ^ 31 <= ?x mod 2 ^ 8 |- _ =>
                             specialize (Hm x); lia end]
  end.
  change (2 ^ 8) with 256. change (2 ^ 0) with 1. rewrite Z.div_1_r.
  rewrite (Z.mod_small (n / 2 ^ 24)); [reflexivity|].
  split; [apply Z.div_pos; lia | apply Z.div_lt_upper_bound; lia].
Qed.

Lemma be4toi_cons4 b0 b1 b2 b3 rest :
  be4toi (b0 :: b1 :: b2 :: b3 :: rest) 0 =
  Num (b2z b0 * 16777216 + b2z b1 * 65536 + b2z b2 * 256 + b2z b3).
Proof. reflexivity. Qed.

(** [be4toi] reads back what [itobe4] wrote. *)
Lemma be4toi_itobe4 n rest :
  0 <= n < 2 ^ 32 -> be4toi (itobe4 (Num n) ++ rest) 0 = Num n.
Proof.
  intros Hn. rewrite itobe4_bytes by assumption.
  cbn [app]. rewrite be4toi_cons4.
  assert (H24 : 0 <= n / 2 ^ 24 < 256).
  { split; [apply Z.div_pos; lia | apply Z.div_lt_upper_bound; lia]. }
  rewrite !b2z_z2b by (try assumption; apply Z.mod_pos_bound; lia).
  f_equal.
  change (2 ^ 16) with (2 ^ 8 * 2 ^ 8) in *.
  change (2 ^ 24) with (2 ^ 8 * (2 ^ 8 * 2 ^ 8)) in *.
  change 256 with (2 ^ 8) in *. change 16777216 with (2 ^ 8 * (2 ^ 8 * 2 ^ 8)).
  change 65536 with (2 ^ 8 * 2 ^ 8).
  rewrite <- !Z.div_div by lia.
  set (a := n / 2 ^ 8). set (b := a / 2 ^ 8).
  pose proof (Z.div_mod n (2 ^ 8)). pose proof (Z.div_mod a (2 ^ 8)).
  pose proof (Z.div_mod b (2 ^ 8)).
  fold a in H. fold b in H0. lia.
Qed.

(** ** The box scan *)

Section Scan.

Variables (buf : list byte) (atomName : Z).

Local Abbreviation l := (Z.of_nat (length buf)).

(** More fuel than the turns that are left changes nothing. *)
Lemma scan_fuel_stable f1 : forall f2 i size,
  (Z.to_nat (l - i) <= f1)%nat -> (Z.to_nat (l - i) <= f2)%nat ->
  scan_fuel f1 buf atomName i size = scan_fuel f2 buf atomName i size.
Proof.
  induction f1 as [|f1 IH]; intros [|f2] i size H1 H2; simpl;
    try reflexivity.
  - destruct (Z.ltb_spec (i + 8) l); [lia | reflexivity].
  - destruct (Z.ltb_spec (i + 8) l); [lia | reflexivity].
  - destruct (Z.ltb_spec (i + 8) l); [|reflexivity].
    destruct (be4toi buf i) as [s|]; [|reflexivity].
    destruct (Z.ltb_spec 0 s); [|reflexivity].
    destruct (eqb _ _); [reflexivity|].
    apply IH; lia.
Qed.

(** [scan] is the [while] loop: it satisfies the loop's equation. *)
Lemma scan_unfold i size :
  scan buf atomName i size =
  if i + 8 <? l then
    match be4toi buf i with
    | Num s =>
        if 0 <? s then
          if eqb (be4toi buf (i + 4)) (Num atomName) then Ret (i, Num s)
          else scan buf atomName (i + s) (Num s)
        else Throw (AssertionError "dash: out of range size")
    | NaN => Throw (AssertionError "dash: out of range size")
    end
  else Ret (i, size).
Proof.
  unfold scan.
  destruct (Z.to_nat (l - i)) as [|f] eqn:E; simpl.
  - destruct (Z.ltb_spec (i + 8) l); [lia | reflexivity].
  - destruct (Z.ltb_spec (i + 8) l); [|reflexivity].
    destruct (be4toi buf i) as [s|]; [|reflexivity].
    destruct (Z.ltb_spec 0 s); [|reflexivity].
    destruct (eqb _ _); [reflexivity|].
    apply scan_fuel_stable; lia.
Qed.

Lemma eqb_false_of_neq (a : num) n : a <> Num n -> eqb a (Num n) = false.
Proof.
  destruct a as [x|]; simpl; [|reflexivity].
  intros H. apply Z.eqb_neq. congruence.
Qed.

Lemma eqb_true_inv (a : num) n : eqb a (Num n) = true -> a = Num n.
Proof.
  destruct a as [x|]; simpl; [|discriminate].
  intros H. apply Z.eqb_eq in H. congruence.
Qed.

(** From a state the loop reaches, the loop goes on as from the start. *)
Lemma scan_reach i size :
  reach buf atomName i size ->
  scan buf atomName 0 NaN = scan buf atomName i size.
Proof.
  induction 1 as [|i size s _ IH Hi Hs Hpos Hname]; [reflexivity|].
  rewrite IH, scan_unfold.
  destruct (Z.ltb_spec (i + 8) l); [|lia].
  rewrite Hs. destruct (Z.ltb_spec 0 s); [|lia].
  now rewrite eqb_false_of_neq.
Qed.

Lemma reach_nonneg i size : reach buf atomName i size -> 0 <= i.
Proof. induction 1; lia. Qed.

(** When the loop leaves at a place where a header can still be read,
    it has just read that header: the size is the positive size of the
    box there and the name is the one looked for. *)
Lemma scan_ret_in_range n : forall i0 size0 i size,
  (Z.to_nat (l - i0) <= n)%nat ->
  scan buf atomName i0 size0 = Ret (i, size) ->
  i + 8 < l ->
  i0 <= i /\
  exists s, size = Num s /\ be4toi buf i = Num s /\ 0 < s /\
            be4toi buf (i + 4) = Num atomName.
Proof.
  induction n as [|n IH]; intros i0 size0 i size Hn Hscan Hi;
    rewrite scan_unfold in Hscan;
    destruct (Z.ltb_spec (i0 + 8) l) as [Hlt|Hge];
    try (injection Hscan as E1 E2; lia); try lia.
  destruct (be4toi buf i0) as [s|] eqn:Hs; [|discriminate].
  destruct (Z.ltb_spec 0 s); [|discriminate].
  destruct (eqb _ _) eqn:Hname.
  - injection Hscan as <- <-. split; [lia|].
    exists s. repeat split; try assumption. now apply eqb_true_inv.
  - destruct (IH (i0 + s) (Num s) i size) as [Hle Hex];
      [lia | assumption | assumption |].
    split; [lia | assumption].
Qed.

End Scan.

(** [findAtom] is right about what it returns: an offset it returns with
    a header still readable there is the offset of a box of the name
    looked for, which lies within the buffer. *)
Lemma findAtom_sound buf atomName pos :
  findAtom buf atomName = Ret pos ->
  pos <> -1 ->
  pos + 8 < Z.of_nat (length buf) ->
  0 <= pos /\
  exists s, be4toi buf pos = Num s /\ 0 < s /\
            pos + s <= Z.of_nat (length buf) /\
            be4toi buf (pos + 4) = Num atomName.
Proof.
  unfold findAtom. intros H Hfound Hpos.
  destruct (scan buf atomName 0 NaN) as [[i size]|e] eqn:Hscan;
    [|discriminate].
  destruct (Z.leb_spec (Z.of_nat (length buf)) i) as [Hend|Hin].
  { injection H as <-. lia. }
  destruct (leb _ _) eqn:Hleb; simpl in H; [|discriminate].
  injection H as ->.
  destruct (scan_ret_in_range buf atomName _ 0 NaN pos size
              (Nat.le_refl _) Hscan Hpos) as [Hge (s & -> & Hs & Hs0 & Hn)].
  split; [assumption|]. exists s. simpl in Hleb.
  apply Z.leb_le in Hleb. auto.
Qed.

Lemma length_box n c : length (box n c) = (8 + length c)%nat.
Proof. unfold box. rewrite !length_app, !length_itobe4. lia. Qed.

Lemma boxes_cons n c bs : boxes ((n, c) :: bs) = box n c ++ boxes bs.
Proof. reflexivity. Qed.

(** A buffer made of well-formed boxes of other names, the last of which
    has a content, is scanned to its end. *)
Lemma scan_other_boxes atomName bs : forall pre size,
  other_boxes atomName bs -> ends_with_content bs ->
  exists size',
    scan (pre ++ boxes bs) atomName (Z.of_nat (length pre)) size =
    Ret (Z.of_nat (length (pre ++ boxes bs)), size').
Proof.
  induction bs as [|[n c] bs IH]; intros pre size Hbs Hlast.
  - exists size. rewrite scan_unfold. cbn [boxes flat_map].
    rewrite app_nil_r.
    destruct (Z.ltb_spec (Z.of_nat (length pre) + 8)
                         (Z.of_nat (length pre))); [lia | reflexivity].
  - inversion Hbs as [|b bs' (Hn & Hne & Hc) Hbs']; subst.
    cbn [fst snd] in *.
    assert (Hlast' : ends_with_content bs).
    { destruct bs; [exact I | exact Hlast]. }
    assert (Hlen : (0 < length (c ++ boxes bs))%nat).
    { destruct bs as [|[n' c'] bs].
      - cbn in Hlast. destruct c; [congruence | cbn; lia].
      - rewrite boxes_cons, !length_app, length_box. lia. }
    rewrite boxes_cons.
    destruct (IH (pre ++ box n c) (Num (Z.of_nat (length c) + 8)) Hbs' Hlast')
      as [size' IH'].
    exists size'. rewrite scan_unfold.
    assert (Hl : Z.of_nat (length (pre ++ box n c ++ boxes bs)) =
                 Z.of_nat (length pre) + 8 +
                 Z.of_nat (length (c ++ boxes bs))).
    { rewrite !length_app, length_box. lia. }
    rewrite Hl.
    destruct (Z.ltb_spec (Z.of_nat (length pre) + 8)
                (Z.of_nat (length pre) + 8 +
                 Z.of_nat (length (c ++ boxes bs)))); [|lia].
    assert (Hsz : be4toi (pre ++ box n c ++ boxes bs)
                    (Z.of_nat (length pre)) =
                  Num (Z.of_nat (length c) + 8)).
    { rewrite <- (Z.add_0_r (Z.of_nat (length pre))).
      rewrite be4toi_app_r by lia. unfold box. rewrite <- !app_assoc.
      apply be4toi_itobe4. lia. }
    assert (Hnm : be4toi (pre ++ box n c ++ boxes bs)
                    (Z.of_nat (length pre) + 4) = Num n).
    { unfold box. rewrite <- !app_assoc, (app_assoc pre).
      replace (Z.of_nat (length pre) + 4)
        with (Z.of_nat (length (pre ++ itobe4
                 (Num (Z.of_nat (length c) + 8)))) + 0)
        by (rewrite length_app, length_itobe4; lia).
      rewrite be4toi_app_r by lia. apply be4toi_itobe4. assumption. }
    rewrite Hsz, Hnm.
    destruct (Z.ltb_spec 0 (Z.of_nat (length c) + 8)); [|lia].
    rewrite eqb_false_of_neq by congruence.
    replace (Z.of_nat (length pre) + (Z.of_nat (length c) + 8))
      with (Z.of_nat (length (pre ++ box n c)))
      by (rewrite length_app, length_box; lia).
    rewrite <- Hl, (app_assoc pre). exact IH'.
Qed.

(** No box of the name among well-formed boxes: "not found". *)
Lemma findAtom_other_boxes atomName bs :
  other_boxes atomName bs -> ends_with_content bs ->
  findAtom (boxes bs) atomName = Ret (-1).
Proof.
  intros Hbs Hlast.
  destruct (scan_other_boxes atomName bs [] NaN Hbs Hlast) as [size' H].
  cbn [app length] in H. unfold findAtom. change (Z.of_nat 0) with 0 in H.
  rewrite H.
  destruct (Z.leb_spec (Z.of_nat (length (boxes bs)))
                       (Z.of_nat (length (boxes bs)))); [reflexivity | lia].
Qed.

(** Well-formed boxes of other names are skipped one after the other. *)
Lemma scan_skips_boxes atomName bs : forall pre size tail,
  other_boxes atomName bs -> (8 <= length tail)%nat ->
  exists size',
    scan (pre ++ boxes bs ++ tail) atomName (Z.of_nat (length pre)) size =
    scan (pre ++ boxes bs ++ tail) atomName
         (Z.of_nat (length (pre ++ boxes bs))) size'.
Proof.
  induction bs as [|[n c] bs IH]; intros pre size tail Hbs Htail.
  - exists size. cbn [boxes flat_map app]. now rewrite app_nil_r.
  - inversion Hbs as [|b bs' (Hn & Hne & Hc) Hbs']; subst.
    cbn [fst snd] in *. rewrite boxes_cons.
    destruct (IH (pre ++ box n c) (Num (Z.of_nat (length c) + 8)) tail
                Hbs' Htail) as [size' IH'].
    exists size'. rewrite scan_unfold.
    set (buf := pre ++ (box n c ++ boxes bs) ++ tail).
    assert (Hbuf : buf = pre ++ box n c ++ boxes bs ++ tail)
      by (unfold buf; now rewrite <- !app_assoc).
    assert (Hl : Z.of_nat (length buf) =
                 Z.of_nat (length pre) + 8 + Z.of_nat (length c) +
                 Z.of_nat (length (boxes bs ++ tail))).
    { rewrite Hbuf, !length_app, length_box. lia. }
    assert (Hpos : 0 < Z.of_nat (length (boxes bs ++ tail)))
      by (rewrite length_app; lia).
    destruct (Z.ltb_spec (Z.of_nat (length pre) + 8)
                         (Z.of_nat (length buf))); [|lia].
    assert (Hsz : be4toi buf (Z.of_nat (length pre)) =
                  Num (Z.of_nat (length c) + 8)).
    { rewrite Hbuf, <- (Z.add_0_r (Z.of_nat (length pre))).
      rewrite be4toi_app_r by lia. unfold box. rewrite <- !app_assoc.
      apply be4toi_itobe4. lia. }
    assert (Hnm : be4toi buf (Z.of_nat (length pre) + 4) = Num n).
    { rewrite Hbuf. unfold box. rewrite <- !app_assoc, (app_assoc pre).
      replace (Z.of_nat (length pre) + 4)
        with (Z.of_nat (length (pre ++ itobe4
                 (Num (Z.of_nat (length c) + 8)))) + 0)
        by (rewrite length_app, length_itobe4; lia).
      rewrite be4toi_app_r by lia. apply be4toi_itobe4. assumption. }
    rewrite Hsz, Hnm.
    destruct (Z.ltb_spec 0 (Z.of_nat (length c) + 8)); [|lia].
    rewrite eqb_false_of_neq by congruence.
    replace (Z.of_nat (length pre) + (Z.of_nat (length c) + 8))
      with (Z.of_nat (length (pre ++ box n c)))
      by (rewrite length_app, length_box; lia).
    replace (pre ++ (box n c ++ boxes bs)) with ((pre ++ box n c) ++ boxes bs)
      by (now rewrite <- app_assoc).
    unfold buf.
    replace (pre ++ (box n c ++ boxes bs) ++ tail)
      with ((pre ++ box n c) ++ boxes bs ++ tail)
      by (now rewrite <- !app_assoc).
    exact IH'.
Qed.

(** For a sequence of well-formed boxes, [findAtom] returns the offset
    of the first box of the name looked for, provided the box has a
    content or is not the last thing in the buffer. *)
Lemma findAtom_locates atomName bs content rest :
  other_boxes atomName bs ->
  0 <= atomName < 2 ^ 32 ->
  Z.of_nat (length content) + 8 < 2 ^ 32 ->
  (0 < length (content ++ rest))%nat ->
  findAtom (boxes bs ++ box atomName content ++ rest) atomName =
  Ret (Z.of_nat (length (boxes bs))).
Proof.
  intros Hbs Hname Hc Hmore.
  destruct (scan_skips_boxes atomName bs [] NaN (box atomName content ++ rest)
              Hbs) as [size' Hskip].
  { rewrite length_app, length_box. lia. }
  cbn [app length] in Hskip. change (Z.of_nat 0) with 0 in Hskip.
  unfold findAtom. rewrite Hskip, scan_unfold.
  set (buf := boxes bs ++ box atomName content ++ rest).
  set (i := Z.of_nat (length (boxes bs))).
  assert (Hl : Z.of_nat (length buf) =
               i + 8 + Z.of_nat (length (content ++ rest))).
  { unfold buf, i. rewrite !length_app, length_box. lia. }
  destruct (Z.ltb_spec (i + 8) (Z.of_nat (length buf))); [|lia].
  assert (Hsz : be4toi buf i = Num (Z.of_nat (length content) + 8)).
  { unfold buf, i. rewrite <- (Z.add_0_r (Z.of_nat (length (boxes bs)))).
    rewrite be4toi_app_r by lia. unfold box. rewrite <- !app_assoc.
    apply be4toi_itobe4. lia. }
  assert (Hnm : be4toi buf (i + 4) = Num atomName).
  { unfold buf, i, box. rewrite <- !app_assoc, (app_assoc (boxes bs)).
    replace (Z.of_nat (length (boxes bs)) + 4)
      with (Z.of_nat (length (boxes bs ++ itobe4
               (Num (Z.of_nat (length content) + 8)))) + 0)
      by (rewrite length_app, length_itobe4; lia).
    rewrite be4toi_app_r by lia. apply be4toi_itobe4. assumption. }
  rewrite Hsz, Hnm.
  destruct (Z.ltb_spec 0 (Z.of_nat (length content) + 8)); [|lia].
  cbn [eqb]. rewrite Z.eqb_refl.
  destruct (Z.leb_spec (Z.of_nat (length buf)) i); [lia|].
  cbn [add leb].
  destruct (Z.leb_spec (i + (Z.of_nat (length content) + 8))
                       (Z.of_nat (length buf))); [reflexivity|].
  rewrite length_app in Hl. lia.
Qed.

(** ** The box locator *)

(** C2 (as amended).  In every state [(i, size)] in which the scan of
    [findAtom] and [getAtomContent] reads a header ([i + 8 < l]):
    the two reads are inside the buffer; a declared size of 0 makes both
    functions throw the decode error; [findAtom] throws the decode error
    when the box it stops at, the one of the name looked for, declares a
    size that goes past the end of the buffer; and a box of another name
    whose declared size goes past the end ends the scan, which both
    functions report as "not found". *)
Theorem locator_decode_errors buf atomName i size :
  reach buf atomName i size ->
  i + 8 < Z.of_nat (length buf) ->
  (0 <= i /\
   exists s n, be4toi buf i = Num s /\ 0 <= s < 2 ^ 32 /\
               be4toi buf (i + 4) = Num n /\ 0 <= n < 2 ^ 32) /\
  (be4toi buf i = Num 0 ->
   findAtom buf atomName = Throw (AssertionError "dash: out of range size") /\
   getAtomContent buf atomName =
     Throw (AssertionError "dash: out of range size")) /\
  (forall s, be4toi buf i = Num s -> 0 < s ->
     be4toi buf (i + 4) = Num atomName ->
     Z.of_nat (length buf) < i + s ->
     findAtom buf atomName = Throw (AssertionError "dash: atom out of range")) /\
  (forall s, be4toi buf i = Num s -> 0 < s ->
     be4toi buf (i + 4) <> Num atomName ->
     Z.of_nat (length buf) <= i + s ->
     findAtom buf atomName = Ret (-1) /\
     getAtomContent buf atomName = Ret None).
Proof.
  intros Hreach Hi.
  pose proof (reach_nonneg _ _ _ _ Hreach) as H0.
  pose proof (scan_reach _ _ _ _ Hreach) as Hscan.
  rewrite (scan_unfold buf atomName i size) in Hscan.
  destruct (Z.ltb_spec (i + 8) (Z.of_nat (length buf))) as [Hlt|]; [|lia].
  split; [split|split; [|split]].
  - assumption.
  - destruct (be4toi_in_range buf i) as (s & Hs & Hsr); [lia | lia |].
    destruct (be4toi_in_range buf (i + 4)) as (n & Hn & Hnr); [lia | lia |].
    exists s, n. auto.
  - intros Hz. unfold findAtom, getAtomContent. rewrite Hscan, Hz.
    split; reflexivity.
  - intros s Hs Hpos Hname Hpast. unfold findAtom.
    rewrite Hscan, Hs, Hname. cbn [eqb]. rewrite Z.eqb_refl.
    destruct (Z.ltb_spec 0 s); [|lia].
    destruct (Z.leb_spec (Z.of_nat (length buf)) i); [lia|].
    cbn [add leb]. destruct (Z.leb_spec (i + s) (Z.of_nat (length buf)));
      [lia | reflexivity].
  - intros s Hs Hpos Hname Hpast.
    unfold findAtom, getAtomContent. rewrite Hscan, Hs.
    destruct (Z.ltb_spec 0 s); [|lia].
    rewrite eqb_false_of_neq by assumption.
    rewrite scan_unfold.
    destruct (Z.ltb_spec (i + s + 8) (Z.of_nat (length buf))); [lia|].
    destruct (Z.leb_spec (Z.of_nat (length buf)) (i + s)); [|lia].
    destruct (Z.ltb_spec (i + s) (Z.of_nat (length buf))); [lia|].
    split; reflexivity.
Qed.

Lemma locator_decode_errors_witness :
  let buf := itobe4 (Num 0) ++ strToBytes "free" ++ repeat x00 8 in
  findAtom buf MOOV = Throw (AssertionError "dash: out of range size") /\
  getAtomContent buf MOOV = Throw (AssertionError "dash: out of range size").
Proof.
  intros buf.
  destruct (locator_decode_errors buf MOOV 0 NaN) as (_ & H & _).
  - constructor.
  - vm_compute. reflexivity.
  - apply H. vm_compute. reflexivity.
Defined.

(** C2, as stated, fails: the first box declares a size of 100 in a
    buffer of 16 bytes, and both functions report "not found". *)
Lemma locator_overlong_not_found :
  let buf := itobe4 (Num 100) ++ strToBytes "free" ++ repeat x00 8 in
  be4toi buf 0 = Num 100 /\ Z.of_nat (length buf) = 16 /\
  findAtom buf MOOV = Ret (-1) /\ getAtomContent buf MOOV = Ret None.
Proof. vm_compute. repeat split. Qed.

(** [getAtomContent] has no range check of its own: the content of a
    box of the name looked for that goes past the end is cut at the end
    of the buffer. *)
Example getAtomContent_overlong_clamped :
  let buf := itobe4 (Num 100) ++ strToBytes "moov" ++ repeat x09 4 in
  getAtomContent buf MOOV = Ret (Some (repeat x09 4)) /\
  findAtom buf MOOV = Throw (AssertionError "dash: atom out of range").
Proof. vm_compute. split; reflexivity. Qed.

(** The slip of the loop bound: a header that ends exactly at the end of
    the buffer is never read, and [findAtom] returns its offset on the
    strength of the size of the box before it. *)
Example findAtom_trailing_header :
  let free := itobe4 (Num 8) ++ strToBytes "free" in
  findAtom (free ++ free) MOOV = Ret 8.
Proof. vm_compute. reflexivity. Qed.

(** ** The segment index *)

Lemma findAtom_first buf atomName s :
  8 < Z.of_nat (length buf) ->
  be4toi buf 0 = Num s -> 0 < s -> s <= Z.of_nat (length buf) ->
  be4toi buf 4 = Num atomName ->
  findAtom buf atomName = Ret 0.
Proof.
  intros Hl Hs Hpos Hin Hname. unfold findAtom. rewrite scan_unfold.
  change (0 + 8) with 8. change (0 + 4) with 4.
  destruct (Z.ltb_spec 8 (Z.of_nat (length buf))); [|lia].
  rewrite Hs, Hname. destruct (Z.ltb_spec 0 s); [|lia].
  cbn [eqb]. rewrite Z.eqb_refl.
  destruct (Z.leb_spec (Z.of_nat (length buf)) 0); [lia|].
  cbn [add leb]. destruct (Z.leb_spec (0 + s) (Z.of_nat (length buf)));
    [reflexivity | lia].
Qed.

Lemma fadd_small x y :
  Z.abs (x + y) < 2 ^ 53 -> fadd (Num x) (Num y) = Num (x + y).
Proof. intros H. unfold fadd. now rewrite round53_small. Qed.

Lemma fsub_small x y :
  Z.abs (x - y) < 2 ^ 53 -> fsub (Num x) (Num y) = Num (x - y).
Proof. intros H. unfold fsub. now rewrite round53_small. Qed.

(** C3 (as amended).  The synthetic [sidx] box, whose own size is 56,
    decoded with the anchor offset [A], gives timescale 1000 and the two
    segments [{ts: 0, d: 500, range: [A + 56, A + 155]}] and
    [{ts: 500, d: 500, range: [A + 156, A + 305]}]: the size of the box
    is added to the anchor, as the first offset is. *)
Theorem parseSidx_synthetic flags refid sap1 sap2 rest A :
  length flags = 3%nat -> length refid = 4%nat ->
  length sap1 = 4%nat -> length sap2 = 4%nat ->
  0 <= A -> A + 306 < 2 ^ 53 ->
  parseSidx (synthetic_sidx flags refid sap1 sap2 ++ rest) (Num A) =
  Ret (Some (mkSidx
    [mkSegment (Num 0) (Num 500) 0 (Num (A + 56), Num (A + 155));
     mkSegment (Num 500) (Num 500) 0 (Num (A + 156), Num (A + 305))]
    (Num 1000))).
Proof.
  intros Hf Hr Hs1 Hs2 HA0 HA.
  destruct flags as [|f1 [|f2 [|f3 [|]]]]; try discriminate.
  destruct refid as [|r1 [|r2 [|r3 [|r4 [|]]]]]; try discriminate.
  destruct sap1 as [|a1 [|a2 [|a3 [|a4 [|]]]]]; try discriminate.
  destruct sap2 as [|c1 [|c2 [|c3 [|c4 [|]]]]]; try discriminate.
  clear Hf Hr Hs1 Hs2.
  set (buf := synthetic_sidx _ _ _ _ ++ rest).
  assert (Hlen : Z.of_nat (length buf) = 56 + Z.of_nat (length rest)).
  { unfold buf. rewrite length_app. cbn. lia. }
  assert (Hfind : findAtom buf SIDX = Ret 0).
  { apply (findAtom_first _ _ 56); try reflexivity; lia. }
  assert (Hsize : be4toi buf 0 = Num 56) by reflexivity.
  assert (Hver : get buf 8 = Num 0) by reflexivity.
  assert (Hts : be4toi buf 16 = Num 1000) by reflexivity.
  assert (Hept : be4toi buf 20 = Num 0) by reflexivity.
  assert (Hfo : be4toi buf 24 = Num 0) by reflexivity.
  assert (Hcnt : be2toi buf 30 = Num 2) by reflexivity.
  assert (H1s : be4toi buf 32 = Num 100) by reflexivity.
  assert (H1d : be4toi buf 36 = Num 500) by reflexivity.
  assert (H2s : be4toi buf 44 = Num 150) by reflexivity.
  assert (H2d : be4toi buf 48 = Num 500) by reflexivity.
  clearbody buf.
  unfold parseSidx. rewrite Hfind. change (0 =? -1) with false.
  cbv zeta beta iota.
  match goal with |- _ = ?rhs => set (expected := rhs) end.
  repeat match goal with
  | |- context [Z.add ?a ?b] =>
      let v := eval vm_compute in (Z.add a b) in
      progress change (Z.add a b) with v
  end.
  rewrite Hver, Hts, Hept, Hfo, Hcnt, Hsize.
  change (eqb (Num 0) (Num 0)) with true. cbv iota.
  change (turns (Num 2)) with 2%nat.
  cbn [references].
  repeat match goal with
  | |- context [Z.add ?a ?b] =>
      let v := eval vm_compute in (Z.add a b) in
      progress change (Z.add a b) with v
  end.
  rewrite H1s, H1d, H2s, H2d.
  change (band (Num 100) (Num 2147483648)) with (Num 0).
  change (band (Num 150) (Num 2147483648)) with (Num 0).
  change (band (Num 100) (Num 2147483647)) with (Num 100).
  change (band (Num 150) (Num 2147483647)) with (Num 150).
  change (eqb (ushr (Num 0) 31) (Num 1)) with false.
  cbv iota. cbn [app].
  change (fadd (Num 0) (Num 56)) with (Num 56).
  change (fadd (Num 0) (Num 500)) with (Num 500).
  rewrite (fadd_small A 56) by lia.
  rewrite (fadd_small (A + 56) 100) by lia.
  rewrite (fadd_small (A + 56 + 100) 150) by lia.
  rewrite !fsub_small by lia.
  unfold expected.
  replace (A + 56 + 100 - 1) with (A + 155) by lia.
  replace (A + 56 + 100 + 150 - 1) with (A + 305) by lia.
  replace (A + 56 + 100) with (A + 156) by lia.
  reflexivity.
Qed.

Lemma parseSidx_synthetic_witness :
  parseSidx (synthetic_sidx [x00; x00; x00] [x00; x00; x00; x01]
               (repeat x00 4) (repeat x00 4) ++ []) (Num 1000) =
  Ret (Some (mkSidx
    [mkSegment (Num 0) (Num 500) 0 (Num (1000 + 56), Num (1000 + 155));
     mkSegment (Num 500) (Num 500) 0 (Num (1000 + 156), Num (1000 + 305))]
    (Num 1000))).
Proof. apply parseSidx_synthetic; (reflexivity || lia). Defined.

(** C3, as stated, fails: with the anchor 0 the first range starts at
    56, the size of the box, and not at 0. *)
Lemma segment_index_anchor_counterexample :
  let buf := synthetic_sidx [x00; x00; x00] [x00; x00; x00; x01]
               (repeat x00 4) (repeat x00 4) in
  parseSidx buf (Num 0) =
    Ret (Some (mkSidx
      [mkSegment (Num 0) (Num 500) 0 (Num 56, Num 155);
       mkSegment (Num 500) (Num 500) 0 (Num 156, Num 305)]
      (Num 1000))) /\
  parseSidx buf (Num 0) <>
    Ret (Some (mkSidx
      [mkSegment (Num 0) (Num 500) 0 (Num 0, Num 99);
       mkSegment (Num 500) (Num 500) 0 (Num 100, Num 249)]
      (Num 1000))).
Proof. vm_compute. split; [reflexivity | discriminate]. Qed.

(** C5 (as amended).  A [sidx] box whose version is neither 0 nor 1
    makes [parseSidx] return [null], which is also what it returns for a
    buffer without a [sidx] box: the two results are the same and no
    error is thrown. *)
Theorem parseSidx_unknown_version buf offset index :
  findAtom buf SIDX = Ret index -> index <> -1 ->
  get buf (index + 8) <> Num 0 -> get buf (index + 8) <> Num 1 ->
  parseSidx buf offset = Ret None /\
  forall buf' offset',
    findAtom buf' SIDX = Ret (-1) ->
    parseSidx buf' offset' = parseSidx buf offset.
Proof.
  intros Hfind Hfound Hv0 Hv1.
  assert (Hnull : parseSidx buf offset = Ret None).
  { unfold parseSidx. rewrite Hfind.
    destruct (Z.eqb_spec index (-1)); [contradiction|].
    replace (index + 4 + 4) with (index + 8) by lia.
    now rewrite !eqb_false_of_neq by assumption. }
  split; [assumption|].
  intros buf' offset' Habsent. rewrite Hnull.
  unfold parseSidx. now rewrite Habsent.
Qed.

Lemma parseSidx_unknown_version_witness :
  let buf := itobe4 (Num 12) ++ strToBytes "sidx" ++ [x02; x00; x00; x00] in
  parseSidx buf (Num 0) = Ret None /\
  forall buf' offset',
    findAtom buf' SIDX = Ret (-1) ->
    parseSidx buf' offset' = parseSidx buf (Num 0).
Proof.
  intros buf. apply (parseSidx_unknown_version buf (Num 0) 0).
  - vm_compute. reflexivity.
  - lia.
  - vm_compute. discriminate.
  - vm_compute. discriminate.
Defined.

(** C5, as stated, fails: a [sidx] box of version 2 and an empty buffer,
    which has no [sidx] box, get the same result. *)
Lemma parseSidx_version_conflated :
  let buf := itobe4 (Num 12) ++ strToBytes "sidx" ++ [x02; x00; x00; x00] in
  findAtom buf SIDX = Ret 0 /\ get buf 8 = Num 2 /\
  findAtom [] SIDX = Ret (-1) /\
  parseSidx buf (Num 0) = parseSidx [] (Num 0).
Proof. vm_compute. repeat split. Qed.

(** ** Typed arrays in the store *)

Lemma valid_lt h a : valid h a -> (buffer a < length h)%nat.
Proof.
  intros (bs & Hbs & _). now apply lookup_lt_Some in Hbs.
Qed.

Lemma length_elements h a : valid h a -> length (elements h a) = len a.
Proof.
  intros (bs & Hbs & Hle). unfold elements. rewrite Hbs. cbn [default]; unfold id.
  rewrite length_take, length_drop. lia.
Qed.

Lemma elements_app h ext a :
  (buffer a < length h)%nat -> elements (h ++ ext) a = elements h a.
Proof.
  intros Hlt. unfold elements. now rewrite lookup_app_l.
Qed.

Lemma valid_app h ext a : valid h a -> valid (h ++ ext) a.
Proof.
  intros (bs & Hbs & Hle). exists bs. split; [|assumption].
  now apply lookup_app_l_Some.
Qed.

Lemma elements_insert_ne (h : heap) k x a :
  buffer a <> k -> elements (<[k := x]> h) a = elements h a.
Proof.
  intros Hne. unfold elements. now rewrite list_lookup_insert_ne.
Qed.

Lemma valid_insert_ne (h : heap) k x a :
  buffer a <> k -> valid h a -> valid (<[k := x]> h) a.
Proof.
  intros Hne (bs & Hbs & Hle). exists bs. split; [|assumption].
  now rewrite list_lookup_insert_ne.
Qed.

(** The array [alloc] returns: the whole of a new array buffer. *)
Lemma elements_fresh (h : heap) bs ext :
  elements (h ++ bs :: ext) (mkU8 (length h) 0 (length bs)) = bs.
Proof.
  unfold elements. cbn [buffer byteOffset len].
  rewrite lookup_app_r by lia. rewrite Nat.sub_diag. cbn [lookup list_lookup default drop]; unfold id.
  apply take_ge. lia.
Qed.

Lemma valid_fresh (h : heap) bs ext :
  valid (h ++ bs :: ext) (mkU8 (length h) 0 (length bs)).
Proof.
  exists bs. cbn [buffer byteOffset len]. split; [|lia].
  rewrite lookup_app_r by lia. now rewrite Nat.sub_diag.
Qed.

(** [subarray] with bounds inside the array. *)
Lemma subarray_in_range a b e :
  0 <= b -> b <= e -> e <= Z.of_nat (len a) ->
  subarray a (Num b) (Some (Num e)) =
  mkU8 (buffer a) (byteOffset a + Z.to_nat b) (Z.to_nat (e - b)).
Proof.
  intros Hb Hbe He. unfold subarray, rel_index. cbn [to_integer].
  destruct (Z.ltb_spec b 0); [lia|]. destruct (Z.ltb_spec e 0); [lia|].
  rewrite !Z.min_l by lia. now rewrite Z.max_l by lia.
Qed.

Lemma subarray_to_end a b :
  0 <= b -> b <= Z.of_nat (len a) ->
  subarray a (Num b) None =
  mkU8 (buffer a) (byteOffset a + Z.to_nat b)
       (Z.to_nat (Z.of_nat (len a) - b)).
Proof.
  intros Hb He. unfold subarray, rel_index. cbn [to_integer].
  destruct (Z.ltb_spec b 0); [lia|].
  rewrite !Z.min_l by lia. now rewrite Z.max_l by lia.
Qed.

(** A window of an array shows the elements of the array it cuts. *)
Lemma elements_window h a off n :
  valid h a -> (off + n <= len a)%nat ->
  valid h (mkU8 (buffer a) (byteOffset a + off) n) /\
  elements h (mkU8 (buffer a) (byteOffset a + off) n) =
  take n (drop off (elements h a)).
Proof.
  intros (bs & Hbs & Hle) Hin. split.
  - exists bs. cbn [buffer byteOffset len]. split; [assumption | lia].
  - unfold elements. cbn [buffer byteOffset len]. rewrite Hbs.
    cbn [default]; unfold id.
    replace (len a) with (off + (len a - off))%nat at 1 by lia.
    rewrite <- take_drop_commute, take_take, drop_drop.
    f_equal. lia.
Qed.

Lemma bind_alloc {B} bs (k : Uint8Array -> M B) (h : heap) :
  Heap.bind (alloc bs) k h = k (mkU8 (length h) 0 (length bs)) (h ++ [bs]).
Proof. reflexivity. Qed.

Lemma concat_alloc args (h : heap) :
  concat args h = alloc (concat_bytes (map (resolve h) args)) h.
Proof. reflexivity. Qed.

Lemma elements_alloc (h : heap) bs :
  elements (h ++ [bs]) (mkU8 (length h) 0 (length bs)) = bs.
Proof. apply elements_fresh. Qed.

Ltac heap_lt := cbn [buffer]; rewrite ?length_app; cbn [length]; lia.

Ltac heap_simpl :=
  repeat first
    [ rewrite elements_alloc
    | rewrite elements_app by heap_lt ].

Lemma createPssh_ok h p :
  well_formed h p ->
  let bytes := pssh_bytes (systemId p) (elements h (privateData p)) in
  exists ext,
    createPssh p h =
    (Ret (mkU8 (length (h ++ ext)) 0 (length bytes)), (h ++ ext) ++ [bytes]).
Proof.
  intros [Hpd Hid] bytes.
  pose proof (valid_lt _ _ Hpd) as Hlt.
  pose proof (length_elements _ _ Hpd) as Hlen.
  unfold createPssh. unfold Heap.bind at 1. unfold lift, assert.
  rewrite Hid. cbn [Nat.eqb].
  set (id := hexToBytes _).
  rewrite bind_alloc.
  set (pl := itobe4 _).
  rewrite bind_alloc.
  unfold Heap.bind at 1. rewrite concat_alloc. cbn [map resolve].
  heap_simpl.
  set (content := concat_bytes _).
  unfold alloc at 1. unfold Atom. cbn [len].
  rewrite bind_alloc, bind_alloc, concat_alloc. cbn [map resolve].
  heap_simpl. unfold alloc.
  exists [id; pl; content; itobe4 (Num (Z.of_nat (length content) + 8));
          strToBytes "pssh"].
  assert (Hbytes : concat_bytes
            [ArgArr (itobe4 (Num (Z.of_nat (length content) + 8)));
             ArgArr (strToBytes "pssh"); ArgArr content] = bytes).
  { unfold bytes, pssh_bytes, concat_bytes. cbn [flat_map].
    rewrite app_nil_r. unfold content, concat_bytes. cbn [flat_map].
    rewrite app_nil_r. fold id. unfold pl. rewrite Hlen. reflexivity. }
  rewrite Hbytes. rewrite <- !app_assoc. reflexivity.
Qed.

(** ** Protection boxes *)

Lemma length_hexToBytes_chars n : forall cs,
  (length cs <= n)%nat ->
  length (hexToBytes_chars cs) = Nat.div2 (length cs).
Proof.
  induction n as [|n IH]; intros [|c1 [|c2 cs]] Hn; cbn in *;
    try reflexivity; try lia.
  f_equal. apply IH. lia.
Qed.

Lemma length_list_ascii_of_string s :
  length (list_ascii_of_string s) = String.length s.
Proof. induction s as [|c s IH]; cbn; [reflexivity | now f_equal]. Qed.

Lemma length_hexToBytes s :
  String.length s = 32%nat -> length (hexToBytes s) = 16%nat.
Proof.
  intros Hs. unfold hexToBytes.
  rewrite (length_hexToBytes_chars _ _ (Nat.le_refl _)).
  now rewrite length_list_ascii_of_string, Hs.
Qed.

(** A [pssh] box is 8 + 24 bytes longer than the private data. *)
Lemma length_pssh_bytes sid pd :
  String.length (removeHyphens sid) = 32%nat ->
  Z.of_nat (length (pssh_bytes sid pd)) = 8 + 24 + Z.of_nat (length pd).
Proof.
  intros Hs. unfold pssh_bytes.
  rewrite !length_app, !length_itobe4, (length_hexToBytes _ Hs).
  cbn [length repeat strToBytes list_ascii_of_string map]. lia.
Qed.

Lemma createPssh_grows p (h : heap) :
  exists ext, snd (createPssh p h) = h ++ ext.
Proof.
  unfold createPssh. unfold Heap.bind at 1. unfold lift, assert.
  destruct (Nat.eqb _ 32%nat).
  - unfold Atom. rewrite !bind_alloc.
    unfold Heap.bind at 1. rewrite concat_alloc. unfold alloc at 1.
    rewrite !bind_alloc, concat_alloc. unfold alloc. cbn [snd].
    eexists. rewrite <- !app_assoc. reflexivity.
  - exists []. now rewrite app_nil_r.
Qed.

(** C7 (as amended).  [createPssh] throws, and leaves the store as it
    was, exactly when the system ID does not have 32 characters once the
    hyphens are removed; with 32 characters it returns a box, whatever
    the characters are. *)
Theorem createPssh_validation p (h : heap) :
  (createPssh p h = (Throw (AssertionError ""), h) <->
   String.length (removeHyphens (systemId p)) <> 32%nat) /\
  ((exists box h', createPssh p h = (Ret box, h')) <->
   String.length (removeHyphens (systemId p)) = 32%nat).
Proof.
  assert (Hok : String.length (removeHyphens (systemId p)) = 32%nat ->
                exists box h', createPssh p h = (Ret box, h')).
  { intros Hid. unfold createPssh. unfold Heap.bind at 1.
    unfold lift, assert. rewrite Hid. cbn [Nat.eqb].
    unfold Atom. rewrite !bind_alloc.
    unfold Heap.bind at 1. rewrite concat_alloc. unfold alloc at 1.
    rewrite !bind_alloc, concat_alloc. unfold alloc.
    eexists. eexists. reflexivity. }
  assert (Hko : String.length (removeHyphens (systemId p)) <> 32%nat ->
                createPssh p h = (Throw (AssertionError ""), h)).
  { intros Hid. unfold createPssh. unfold Heap.bind at 1.
    unfold lift, assert.
    destruct (Nat.eqb_spec (String.length (removeHyphens (systemId p))) 32%nat);
      [contradiction | reflexivity]. }
  split; split; try assumption.
  - intros Hthrow Hid. destruct (Hok Hid) as (box & h' & Hret). congruence.
  - intros (box & h' & Hret).
    destruct (Nat.eq_dec (String.length (removeHyphens (systemId p))) 32%nat)
      as [Hid|Hid]; [assumption|].
    rewrite (Hko Hid) in Hret. discriminate.
Qed.

Lemma createPssh_validation_witness :
  createPssh (mkProtection "0123-4567" (mkU8 0 0 0)) [[]] =
    (Throw (AssertionError ""), [[]]) /\
  exists box h',
    createPssh (mkProtection "00000000-0000-0000-0000-000000000000"
                             (mkU8 0 0 0)) [[]] = (Ret box, h').
Proof.
  split.
  - apply (createPssh_validation (mkProtection "0123-4567" (mkU8 0 0 0))).
    vm_compute. discriminate.
  - apply (createPssh_validation
             (mkProtection "00000000-0000-0000-0000-000000000000"
                           (mkU8 0 0 0))).
    vm_compute. reflexivity.
Defined.

(** C7, as stated, fails: 32 characters none of which is a hexadecimal
    digit are accepted. *)
Lemma createPssh_accepts_non_hex :
  let sid := "zzzzzzzz-zzzz-zzzz-zzzz-zzzzzzzzzzzz"%string in
  String.length (removeHyphens sid) = 32%nat /\
  hexDigit "z" = None /\
  fst (createPssh (mkProtection sid (mkU8 0 0 0)) [[]]) = Ret (mkU8 6 0 32).
Proof. vm_compute. repeat split. Qed.

Lemma pushPssh_grows pssList : forall newmoov (h : heap),
  exists ext, snd (pushPssh pssList newmoov h) = h ++ ext.
Proof.
  induction pssList as [|p rest IH]; intros newmoov h; cbn [pushPssh].
  - exists []. now rewrite app_nil_r.
  - unfold Heap.bind.
    destruct (createPssh_grows p h) as [ext1 H1].
    destruct (createPssh p h) as [[box|e] h1]; cbn [snd] in H1; subst h1.
    + destruct (IH (newmoov ++ [box]) (h ++ ext1)) as [ext2 H2].
      exists (ext1 ++ ext2). now rewrite H2, app_assoc.
    + now exists ext1.
Qed.

(** ** Patching *)

(** C9.  Whatever the buffer and the content protections, and whether
    [patchPssh] returns or throws, the array buffers that were in the
    store before the call hold the same bytes after it: the store only
    gains array buffers, and the length field is overwritten in one of
    the new ones.  In particular the elements of [buf], and of every
    array of the store, are what they were. *)
Theorem patchPssh_frame (h : heap) buf pssList :
  take (length h) (snd (patchPssh buf pssList h)) = h /\
  forall a, valid h a ->
    elements (snd (patchPssh buf pssList h)) a = elements h a.
Proof.
  assert (Hframe : forall h' : heap,
            take (length h) h' = h ->
            forall a, valid h a -> elements h' a = elements h a).
  { intros h' Htake a Ha. pose proof (valid_lt _ _ Ha) as Hlt.
    unfold elements. f_equal. f_equal. f_equal.
    rewrite <- (lookup_take_lt h' (length h)) by lia. now rewrite Htake. }
  assert (Htake : take (length h) (snd (patchPssh buf pssList h)) = h);
    [|split; [exact Htake | exact (Hframe _ Htake)]].
  unfold patchPssh.
  destruct pssList as [[|p rest]|]; try apply take_ge; try (cbn; lia).
  set (pssList := p :: rest).
  unfold Heap.bind at 1. unfold reading at 1.
  destruct (findAtom (elements h buf) MOOV) as [pos|e];
    [|cbn; apply take_ge; lia].
  destruct (pos =? -1); [cbn; apply take_ge; lia|].
  unfold Heap.bind at 1. unfold reading at 1.
  set (moov := subarray buf _ _).
  set (size := be4toi _ _).
  unfold Heap.bind at 1.
  destruct (pushPssh_grows pssList [moov] h) as [ext1 H1].
  destruct (pushPssh pssList [moov] h) as [[boxes|e] h1];
    cbn [snd] in H1; subst h1; [|cbn; apply take_app_length].
  unfold Heap.bind at 1. rewrite concat_alloc. unfold alloc at 1.
  set (newmoov := concat_bytes _).
  rewrite bind_alloc.
  unfold Heap.bind at 1. unfold set.
  destruct (_ || _); cbn [snd].
  - rewrite <- !app_assoc. apply take_app_length.
  - rewrite concat_alloc. unfold alloc. cbn [snd buffer].
    rewrite <- !app_assoc.
    rewrite take_app_le by (rewrite length_insert, length_app; lia).
    rewrite take_insert_ge by (rewrite length_app; lia).
    apply take_app_length.
Qed.

Lemma patchPssh_frame_witness :
  let moov := itobe4 (Num 12) ++ strToBytes "moov" ++ [x01; x02; x03; x04] in
  let p := mkProtection "00000000-0000-0000-0000-000000000000"
                        (mkU8 1 0 0) in
  let h := [moov; []] in
  let buf := mkU8 0 0 12 in
  take 2 (snd (patchPssh buf (Some [p]) h)) = h /\
  elements (snd (patchPssh buf (Some [p]) h)) buf = moov.
Proof.
  intros moov p h buf.
  destruct (patchPssh_frame h buf (Some [p])) as [Htake Hsame].
  split; [exact Htake|].
  rewrite Hsame; [reflexivity|].
  exists moov. split; [reflexivity | cbn; lia].
Defined.

(** X16.  [patchPssh] returns the very buffer it was given, and leaves
    the store as it was, when the list of content protections is
    missing or empty, and, whatever the list, when the buffer is made of
    well-formed boxes none of which is named [moov], the last of which
    has a content (the empty buffer among them). *)
Theorem patchPssh_identity (h : heap) buf :
  patchPssh buf None h = (Ret buf, h) /\
  patchPssh buf (Some []) h = (Ret buf, h) /\
  forall pssList bs,
    elements h buf = boxes bs ->
    other_boxes MOOV bs -> ends_with_content bs ->
    patchPssh buf (Some pssList) h = (Ret buf, h).
Proof.
  split; [reflexivity|]. split; [reflexivity|].
  intros [|p rest] bs Hbuf Hbs Hlast; [reflexivity|].
  unfold patchPssh, Heap.bind, reading.
  now rewrite Hbuf, (findAtom_other_boxes _ _ Hbs Hlast).
Qed.

Lemma patchPssh_identity_witness :
  let free := box 0x66726565 [x01] in
  let p := mkProtection "00000000-0000-0000-0000-000000000000"
                        (mkU8 1 0 0) in
  patchPssh (mkU8 0 0 9) (Some [p]) [free; []] =
  (Ret (mkU8 0 0 9), [free; []]).
Proof.
  intros free p.
  destruct (patchPssh_identity [free; []] (mkU8 0 0 9)) as (_ & _ & H).
  apply (H [p] [(0x66726565, [x01])]).
  - vm_compute. reflexivity.
  - constructor; [|constructor]. cbn [fst snd length]. unfold MOOV. lia.
  - cbn. discriminate.
Defined.

(** The slip of the loop bound shows in [patchPssh] too: two empty
    [free] boxes and no [moov] box, and the second [free] box is patched
    as if it were the [moov] box. *)
Example patchPssh_trailing_header :
  let free := itobe4 (Num 8) ++ strToBytes "free" in
  let p := mkProtection "00000000-0000-0000-0000-000000000000"
                        (mkU8 1 0 0) in
  let (o, h') := patchPssh (mkU8 0 0 16) (Some [p]) [free ++ free; []] in
  match o with
  | Ret out => length (elements h' out) = 48%nat
  | Throw _ => False
  end.
Proof. vm_compute. reflexivity. Qed.

Lemma well_formed_app h ext p : well_formed h p -> well_formed (h ++ ext) p.
Proof. intros [Hv Hid]. split; [now apply valid_app | assumption]. Qed.

Lemma pssh_bytes_app (h : heap) ext pssList :
  Forall (well_formed h) pssList ->
  flat_map (fun p => pssh_bytes (systemId p)
                       (elements (h ++ ext) (privateData p))) pssList =
  flat_map (fun p => pssh_bytes (systemId p)
                       (elements h (privateData p))) pssList.
Proof.
  induction 1 as [|p rest [Hv _] _ IH]; cbn [flat_map]; [reflexivity|].
  now rewrite IH, elements_app by (now apply valid_lt).
Qed.

Lemma length_pssh_boxes (h : heap) pssList :
  Forall (well_formed h) pssList ->
  Z.of_nat (length (flat_map (fun p => pssh_bytes (systemId p)
                                (elements h (privateData p))) pssList)) =
  pssh_total pssList.
Proof.
  induction 1 as [|p rest [Hv Hid] _ IH]; cbn [flat_map pssh_total fold_right];
    [reflexivity|].
  fold (pssh_total rest). rewrite length_app, Nat2Z.inj_add, IH.
  rewrite (length_pssh_bytes _ _ Hid), (length_elements _ _ Hv).
  reflexivity.
Qed.

(** The loop of [patchPssh] on well-formed content protections: one new
    box for each, in order. *)
Lemma pushPssh_ok pssList : forall (h : heap) newmoov,
  Forall (well_formed h) pssList ->
  exists boxes ext,
    pushPssh pssList newmoov h = (Ret (newmoov ++ boxes), h ++ ext) /\
    flat_map (elements (h ++ ext)) boxes =
    flat_map (fun p => pssh_bytes (systemId p)
                         (elements h (privateData p))) pssList.
Proof.
  induction pssList as [|p rest IH]; intros h newmoov Hwf.
  - exists [], []. cbn. now rewrite !app_nil_r.
  - inversion Hwf as [|p' rest' Hp Hrest]; subst.
    destruct (createPssh_ok h p Hp) as [ext1 Hbox].
    cbv zeta in Hbox.
    set (bytes := pssh_bytes (systemId p) (elements h (privateData p))) in *.
    set (bx := mkU8 (length (h ++ ext1)) 0 (length bytes)) in *.
    destruct (IH ((h ++ ext1) ++ [bytes]) (newmoov ++ [bx]))
      as (boxes & ext2 & Hpush & Hflat).
    { rewrite <- app_assoc.
      eapply Forall_impl; [exact Hrest|]. intros q. apply well_formed_app. }
    exists (bx :: boxes), (ext1 ++ [bytes] ++ ext2).
    split.
    + cbn [pushPssh]. unfold Heap.bind. rewrite Hbox, Hpush.
      f_equal; [now rewrite <- app_assoc|].
      now rewrite <- !app_assoc.
    + replace (h ++ ext1 ++ [bytes] ++ ext2)
        with (((h ++ ext1) ++ [bytes]) ++ ext2)
        by (now rewrite <- !app_assoc).
      cbn [flat_map]. rewrite Hflat. f_equal.
      * rewrite <- (app_assoc (h ++ ext1)). apply elements_fresh.
      * rewrite <- (app_assoc h). now apply pssh_bytes_app.
Qed.

Lemma concat_bytes_arrays (h : heap) arrays :
  concat_bytes (map (resolve h) (map ArgArr arrays)) =
  flat_map (elements h) arrays.
Proof.
  induction arrays as [|a rest IH]; [reflexivity|].
  cbn [map resolve]. unfold concat_bytes in *. cbn [flat_map].
  now rewrite IH.
Qed.

(** C4 (as amended).  When [findAtom] finds the [moov] box at [pos], of
    declared size [size], and the content protections are well formed,
    [patchPssh] returns a new array: the bytes before [pos], the rebuilt
    region, the bytes from [pos + size] on.  The first four bytes of the
    rebuilt region are its length in big-endian, and the result is
    longer than the buffer by the sum, over the content protections, of
    8 + 24 + the length of the private data. *)
Theorem patchPssh_lengths (h : heap) buf pssList pos size :
  valid h buf -> pssList <> [] -> Forall (well_formed h) pssList ->
  findAtom (elements h buf) MOOV = Ret pos -> pos <> -1 ->
  pos + 8 < Z.of_nat (len buf) ->
  be4toi (elements h buf) pos = Num size ->
  size + pssh_total pssList < 2 ^ 32 ->
  exists out h' rebuilt,
    patchPssh buf (Some pssList) h = (Ret out, h') /\
    valid h' out /\
    elements h' out =
      take (Z.to_nat pos) (elements h buf) ++ rebuilt
      ++ drop (Z.to_nat (pos + size)) (elements h buf) /\
    Z.of_nat (length rebuilt) = size + pssh_total pssList /\
    be4toi rebuilt 0 = Num (Z.of_nat (length rebuilt)) /\
    Z.of_nat (len out) = Z.of_nat (len buf) + pssh_total pssList.
Proof.
  intros Hbuf Hne Hwf Hfind Hfound Hpos Hsize Hbound.
  pose proof (length_elements _ _ Hbuf) as Hlen.
  pose proof (valid_lt _ _ Hbuf) as Hlt.
  destruct (findAtom_sound _ _ _ Hfind Hfound) as (H0 & s & Hs & Hs0 & Hin & _);
    [lia|].
  rewrite Hsize in Hs. injection Hs as <-. rewrite Hlen in Hin.
  set (bytes := elements h buf) in *.
  assert (Htotal : 32 <= pssh_total pssList).
  { destruct pssList as [|p rest]; [congruence|].
    cbn [pssh_total fold_right]. fold (pssh_total rest).
    assert (0 <= pssh_total rest).
    { clear. induction rest as [|q rest IH]; cbn; [lia|].
      fold (pssh_total rest). unfold pssh_length. lia. }
    unfold pssh_length. lia. }
  (* the windows on the buffer *)
  destruct (elements_window h buf (Z.to_nat pos) (Z.to_nat size) Hbuf)
    as [Hmoov_v Hmoov]; [lia|].
  destruct (elements_window h buf 0 (Z.to_nat pos) Hbuf)
    as [Hpre_v Hpre]; [lia|].
  destruct (elements_window h buf (Z.to_nat (pos + size))
              (Z.to_nat (Z.of_nat (len buf) - (pos + size))) Hbuf)
    as [Hpost_v Hpost]; [lia|].
  fold bytes in Hmoov, Hpre, Hpost.
  (* the run *)
  unfold patchPssh.
  destruct pssList as [|p0 rest0] eqn:Epss; [congruence|]. rewrite <- Epss in *.
  unfold Heap.bind at 1. unfold reading at 1. fold bytes. rewrite Hfind.
  destruct (Z.eqb_spec pos (-1)); [contradiction|].
  unfold Heap.bind at 1. unfold reading at 1. fold bytes. rewrite Hsize.
  cbn [add].
  rewrite subarray_in_range by lia.
  rewrite subarray_in_range by lia.
  rewrite subarray_to_end by lia.
  replace (pos + size - pos) with size by lia.
  rewrite Z.sub_0_r. change (Z.to_nat 0) with 0%nat.
  set (moov := mkU8 (buffer buf) (byteOffset buf + Z.to_nat pos)
                    (Z.to_nat size)) in *.
  set (pre := mkU8 (buffer buf) (byteOffset buf + 0) (Z.to_nat pos)) in *.
  set (post := mkU8 (buffer buf) (byteOffset buf + Z.to_nat (pos + size))
                 (Z.to_nat (Z.of_nat (len buf) - (pos + size)))) in *.
  destruct (pushPssh_ok pssList h [moov] Hwf) as (bxs & ext & Hpush & Hflat).
  unfold Heap.bind at 1. rewrite Hpush.
  unfold Heap.bind at 1. rewrite concat_alloc. unfold alloc at 1.
  rewrite concat_bytes_arrays. cbn [app flat_map].
  rewrite Hflat, elements_app, Hmoov by (now apply valid_lt).
  set (psshs := flat_map _ pssList) in *.
  set (nb := take (Z.to_nat size) (drop (Z.to_nat pos) bytes) ++ psshs).
  assert (Hnb : Z.of_nat (length nb) = size + pssh_total pssList).
  { unfold nb, psshs. rewrite length_app, Nat2Z.inj_add.
    rewrite (length_pssh_boxes h pssList Hwf).
    rewrite length_take, length_drop. fold bytes. lia. }
  rewrite bind_alloc. cbn [len].
  set (lb := itobe4 (Num (Z.of_nat (length nb)))).
  unfold Heap.bind at 1. unfold set. cbn [len buffer byteOffset].
  change (length lb) with 4%nat.
  destruct (Z.ltb_spec 0 0); [lia|].
  destruct (Z.ltb_spec (Z.of_nat (length nb)) (0 + Z.of_nat 4)); [lia|].
  cbn [orb].
  change (0 + Z.to_nat 0)%nat with 0%nat. cbn [take app].
  set (h1 := h ++ ext).
  assert (Hold : ((h1 ++ [nb]) ++ [lb]) !! length h1 = Some nb).
  { rewrite <- app_assoc. rewrite lookup_app_r by lia.
    now rewrite Nat.sub_diag. }
  rewrite Hold. cbn [default]; unfold id.
  replace (elements ((h1 ++ [nb]) ++ [lb])
             (mkU8 (length (h1 ++ [nb])) 0 4)) with lb
    by (symmetry; apply (elements_alloc (h1 ++ [nb]) lb)).
  change (take 0 nb) with (@nil byte). cbn [app].
  set (rebuilt := lb ++ drop (0 + 4) nb).
  assert (Hreb : length rebuilt = length nb).
  { unfold rebuilt. rewrite length_app, length_drop.
    change (length lb) with 4%nat. lia. }
  set (h3 := <[length h1 := rebuilt]> ((h1 ++ [nb]) ++ [lb])).
  rewrite concat_alloc. unfold alloc.
  assert (Hh3 : forall a, valid h a -> elements h3 a = elements h a).
  { intros a Ha. pose proof (valid_lt _ _ Ha) as Ha'. unfold h3, h1.
    rewrite elements_insert_ne by (rewrite length_app; lia).
    rewrite !elements_app; try reflexivity;
      rewrite ?length_app; cbn [length]; lia. }
  assert (Hnew : elements h3 (mkU8 (length h1) 0 (length nb)) = rebuilt).
  { unfold elements, h3. cbn [buffer byteOffset len].
    rewrite list_lookup_insert_eq by (rewrite !length_app; cbn [length]; lia).
    cbn [default drop]; unfold id. apply take_ge. lia. }
  cbn [map resolve].
  rewrite (Hh3 pre), (Hh3 post) by assumption. rewrite Hnew.
  rewrite Hpre, Hpost. cbn [drop].
  unfold concat_bytes. cbn [flat_map]. rewrite app_nil_r.
  change (drop 0 bytes) with bytes.
  rewrite (take_ge (drop (Z.to_nat (pos + size)) bytes))
    by (rewrite length_drop; fold bytes; lia).
  set (outb := take (Z.to_nat pos) bytes ++ rebuilt
               ++ drop (Z.to_nat (pos + size)) bytes).
  exists (mkU8 (length h3) 0 (length outb)), (h3 ++ [outb]), rebuilt.
  split; [reflexivity|].
  split; [apply valid_fresh|].
  split; [|split; [|split]].
  - apply elements_alloc.
  - lia.
  - rewrite Hreb. unfold rebuilt, lb. apply be4toi_itobe4. lia.
  - cbn [len]. unfold outb.
    rewrite !length_app, !length_take, !length_drop, Hreb. fold bytes. lia.
Qed.

Lemma patchPssh_lengths_witness :
  let moov := itobe4 (Num 12) ++ strToBytes "moov" ++ [x01; x02; x03; x04] in
  let p := mkProtection "00000000-0000-0000-0000-000000000000"
                        (mkU8 1 0 0) in
  let h := [moov; []] in
  let buf := mkU8 0 0 12 in
  exists out h' rebuilt,
    patchPssh buf (Some [p]) h = (Ret out, h') /\
    valid h' out /\
    elements h' out =
      take (Z.to_nat 0) (elements h buf) ++ rebuilt
      ++ drop (Z.to_nat (0 + 12)) (elements h buf) /\
    Z.of_nat (length rebuilt) = 12 + pssh_total [p] /\
    be4toi rebuilt 0 = Num (Z.of_nat (length rebuilt)) /\
    Z.of_nat (len out) = Z.of_nat (len buf) + pssh_total [p].
Proof.
  intros moov p h buf.
  apply (patchPssh_lengths h buf [p] 0 12).
  - exists moov. split; [reflexivity | cbn; lia].
  - discriminate.
  - constructor; [|constructor].
    split; [exists []; split; [reflexivity | cbn; lia] | reflexivity].
  - vm_compute. reflexivity.
  - lia.
  - cbn. lia.
  - reflexivity.
  - vm_compute. reflexivity.
Defined.

(** C4, as stated, fails: one content protection without private data
    makes the result 32 bytes longer than the buffer, not 8 + 20. *)
Lemma patchPssh_adds_32 :
  let moov := itobe4 (Num 12) ++ strToBytes "moov" ++ [x01; x02; x03; x04] in
  let p := mkProtection "00000000-0000-0000-0000-000000000000"
                        (mkU8 1 0 0) in
  let (o, h') := patchPssh (mkU8 0 0 12) (Some [p]) [moov; []] in
  match o with
  | Ret out =>
      findAtom moov MOOV = Ret 0 /\
      Z.of_nat (len out) = 12 + 32 /\
      Z.of_nat (len out) <> 12 + (8 + 20 + Z.of_nat (len (privateData p)))
  | Throw _ => False
  end.
Proof. vm_compute. repeat split; discriminate. Qed.

(** ** The buffering queue *)

Module QueueFacts.
Import Queue.
Local Open Scope nat_scope.

Lemma pop_snoc {A} (l : list A) x : pop (l ++ [x]) = Some (x, l).
Proof.
  induction l as [|y l IH]; [reflexivity|].
  cbn [app pop]. now rewrite IH.
Qed.

Lemma entries_snoc first ops t a :
  entries first (ops ++ [(t, a)]) =
  entries first ops ++ [mkEntry t a (first + length ops)].
Proof.
  revert first. induction ops as [|[t' a'] ops IH]; intros first; cbn.
  - now rewrite Nat.add_0_r.
  - rewrite IH. replace (first + S (length ops)) with (S first + length ops)
      by lia. reflexivity.
Qed.

Lemma settled_app t1 t2 : settled (t1 ++ t2) = settled t1 ++ settled t2.
Proof. apply flat_map_app. Qed.

Lemma calls_app t1 t2 : calls (t1 ++ t2) = calls t1 ++ calls t2.
Proof. apply flat_map_app. Qed.

Lemma single_outstanding_app t1 : forall busy t2,
  single_outstanding busy (t1 ++ t2) =
  match single_outstanding busy t1 with
  | Some busy' => single_outstanding busy' t2
  | None => None
  end.
Proof.
  induction t1 as [|o t1 IH]; intros busy t2; [reflexivity|].
  destruct o, busy; cbn; auto.
Qed.

Section WithSourceBuffer.

Context {R : Type} (sb : SourceBuffer R).

(** [unshift]: the entry of a new action joins the queue. *)
Lemma unshift_live (w : world R) handles ops t a :
  live w handles ops ->
  live (mkWorld (mkQueue (buffer (this w))
                   (mkEntry t a (subjects w) :: queue (this w))
                   (flushing (this w)))
          (resource w) (listening w) (trace w) (S (subjects w)))
       (handles ++ [subjects w]) (ops ++ [(t, a)]).
Proof.
  intros (Hb & Hl & Hs & Hh & k & Hset & Hcalls & Hc & Hone & Hfl & Hq).
  unfold live.
  cbn [this buffer listening subjects trace flushing queue].
  change (in_flight (mkQueue (buffer (this w))
            (mkEntry t a (subjects w) :: queue (this w))
            (flushing (this w)))) with (in_flight (this w)).
  set (c := k + (if in_flight (this w) then 1 else 0)) in *.
  repeat split; try assumption.
  - rewrite length_app. cbn. lia.
  - rewrite length_app, Hh, Hs. cbn [length].
    now rewrite Nat.add_1_r, seq_S.
  - exists k. fold c. repeat split; try assumption.
    + now rewrite take_app_le.
    + rewrite length_app. lia.
    + rewrite drop_app_le by assumption.
      rewrite entries_snoc, rev_app_distr, Hq. cbn [rev app].
      do 2 f_equal. rewrite Hs, length_drop. lia.
Qed.

(** Settling the action in flight, by [onUpdate] or by [onError]. *)
Lemma onUpdate_live (w : world R) handles ops evt :
  live w handles ops -> live (onUpdate evt w) handles ops.
Proof.
  intros Hlive. unfold onUpdate.
  destruct (flushing (this w)) as [s|] eqn:Hf; [|assumption].
  destruct Hlive as (Hb & Hl & Hs & Hh & k & Hset & Hcalls & Hc & Hone
                     & Hfl & Hq).
  unfold live, in_flight in *. rewrite Hf in *.
  cbn [this buffer listening subjects trace flushing queue] in *.
  rewrite (Hfl s eq_refl) in *.
  repeat split; try assumption.
  exists (S k). rewrite Nat.add_0_r. replace (k + 1)%nat with (S k) in * by lia.
  repeat split; try assumption.
  - rewrite settled_app, Hset, seq_S. reflexivity.
  - rewrite calls_app, Hcalls. cbn [calls flat_map]. now rewrite app_nil_r.
  - rewrite single_outstanding_app, Hone. reflexivity.
  - discriminate.
Qed.

Lemma onError_live (w : world R) handles ops e :
  live w handles ops -> live (onError e w) handles ops.
Proof.
  intros Hlive. unfold onError.
  destruct (flushing (this w)) as [s|] eqn:Hf; [|assumption].
  destruct Hlive as (Hb & Hl & Hs & Hh & k & Hset & Hcalls & Hc & Hone
                     & Hfl & Hq).
  unfold live, in_flight in *. rewrite Hf in *.
  cbn [this buffer listening subjects trace flushing queue] in *.
  rewrite (Hfl s eq_refl) in *.
  repeat split; try assumption.
  exists (S k). rewrite Nat.add_0_r. replace (k + 1)%nat with (S k) in * by lia.
  repeat split; try assumption.
  - rewrite settled_app, Hset, seq_S. reflexivity.
  - rewrite calls_app, Hcalls. cbn [calls flat_map]. now rewrite app_nil_r.
  - rewrite single_outstanding_app, Hone. reflexivity.
  - discriminate.
Qed.

(** [flush] of a queue that has not been disposed of returns, and
    leaves it as it should be. *)
Lemma flush_live (w : world R) handles ops :
  live w handles ops ->
  fst (flush sb w) = Ret tt /\ live (snd (flush sb w)) handles ops.
Proof.
  intros Hlive. unfold flush.
  destruct (flushing (this w)) as [s|] eqn:Hf; [now split|].
  destruct (pop (queue (this w))) as [[e rest]|] eqn:Hpop; [|now split].
  pose proof Hlive as (Hb & Hl & Hs & Hh & k & Hset & Hcalls & Hc & Hone
                       & Hfl & Hq).
  unfold in_flight in *. rewrite Hf in *. rewrite Nat.add_0_r in *.
  rewrite Hb. cbn [negb].
  destruct (updating sb (resource w)); [now split|].
  destruct (drop k ops) as [|[t a] ops'] eqn:Hdrop.
  { rewrite Hq in Hpop. discriminate. }
  rewrite Hq in Hpop. cbn [entries rev] in Hpop. rewrite pop_snoc in Hpop.
  injection Hpop as <- <-. cbn [type args_ subj].
  assert (Hk : ops !! k = Some (t, a)).
  { rewrite <- (Nat.add_0_r k), <- lookup_drop, Hdrop. reflexivity. }
  assert (Hdispatched :
    live (mkWorld (mkQueue true (rev (entries (S k) ops')) (Some k))
            (snd (primitive sb t a (resource w))) (listening w)
            (trace w ++ [Called t a]) (subjects w)) handles ops).
  { unfold live, in_flight.
    cbn [this buffer listening subjects trace flushing queue].
    repeat split; try assumption.
    exists k. replace (k + 1)%nat with (S k) by lia.
    repeat split; try assumption.
    - rewrite settled_app, Hset. cbn [settled flat_map].
      now rewrite app_nil_r.
    - rewrite calls_app, Hcalls. cbn [calls flat_map app].
      now rewrite (take_S_r _ _ _ Hk).
    - apply lookup_lt_Some in Hk. lia.
    - rewrite single_outstanding_app, Hone. reflexivity.
    - congruence.
    - f_equal. f_equal. replace (S k) with (k + 1) by lia.
      now rewrite <- drop_drop, Hdrop. }
  destruct (primitive sb t a (resource w)) as [[err|] r'];
    cbn [snd] in Hdispatched; cbn [fst snd].
  - split; [reflexivity|]. now apply onError_live.
  - split; [reflexivity | assumption].
Qed.

Lemma queueAction_live (w : world R) handles ops t a :
  live w handles ops ->
  fst (queueAction sb t a w) = Ret (subjects w) /\
  live (snd (queueAction sb t a w)) (handles ++ [subjects w])
       (ops ++ [(t, a)]).
Proof.
  intros Hlive. unfold queueAction.
  pose proof (unshift_live w handles ops t a Hlive) as Hnew.
  destruct (Nat.eqb _ 1); [|now split].
  destruct (flush_live _ _ _ Hnew) as [Hret Hflushed].
  destruct (flush sb _) as [[[]|e] w']; cbn [fst snd] in *;
    [now split | discriminate].
Qed.

Lemma pop_cons {A} (x : A) l : pop (x :: l) <> None.
Proof. cbn [pop]. destruct (pop l) as [[y l']|]; discriminate. Qed.

Lemma queueAction_disposed (w : world R) handles ops t a :
  disposed w handles ops ->
  disposed (snd (queueAction sb t a w))
           (handles ++ handle (Some (fst (queueAction sb t a w))))
           (ops ++ [(t, a)]).
Proof.
  intros (Hb & Hl & Hf & Hk & Hset & Hcalls & Hone).
  assert (Hadded : forall hs,
    disposed (mkWorld (mkQueue false
                         (mkEntry t a (subjects w) :: queue (this w)) None)
                (resource w) (listening w) (trace w) (S (subjects w)))
             (handles ++ hs) (ops ++ [(t, a)])).
  { intros hs. unfold disposed.
    cbn [this buffer listening subjects trace flushing queue].
    repeat split; try assumption.
    - now apply prefix_app_r.
    - now apply prefix_app_r. }
  unfold queueAction. rewrite Hb, Hf.
  destruct (Nat.eqb _ 1); [|apply Hadded].
  unfold flush. cbn [this flushing queue buffer].
  destruct (pop (_ :: _)) as [[e rest]|] eqn:Hpop;
    [|now apply pop_cons in Hpop].
  cbn [negb fst snd handle]. apply Hadded.
Qed.

(** One input keeps the queue as it should be. *)
Lemma step_inv i (w : world R) handles ops :
  live w handles ops \/ disposed w handles ops ->
  live (snd (step sb i w)) (handles ++ handle (fst (step sb i w)))
       (ops ++ queued i) \/
  disposed (snd (step sb i w)) (handles ++ handle (fst (step sb i w)))
           (ops ++ queued i).
Proof.
  intros Hinv.
  assert (Henq : forall t a,
    let r := queueAction sb t a w in
    live (snd r) (handles ++ handle (Some (fst r))) (ops ++ [(t, a)]) \/
    disposed (snd r) (handles ++ handle (Some (fst r))) (ops ++ [(t, a)])).
  { intros t a r. destruct Hinv as [Hlive|Hdisp].
    - left. destruct (queueAction_live w handles ops t a Hlive) as [Hr Hw].
      subst r. rewrite Hr. exact Hw.
    - right. now apply queueAction_disposed. }
  destruct i; cbn [step queued];
    unfold appendBuffer_, removeBuffer, appendStream_;
    try (match goal with
         | |- context [queueAction sb ?t ?a w] =>
             specialize (Henq t a); cbv zeta in Henq;
             destruct (queueAction sb t a w) as [o w']; exact Henq
         end);
    cbn [fst snd handle]; rewrite !app_nil_r.
  - (* dispose *)
    right. unfold dispose.
    destruct Hinv as [(Hb & Hl & Hs & Hh & k & Hset & Hcalls & Hc & Hone
                       & Hfl & Hq) | Hdisp].
    + rewrite Hb. cbn [fst snd handle]. rewrite app_nil_r.
      unfold disposed.
      cbn [this buffer listening subjects trace flushing queue].
      repeat split.
      * now exists k.
      * rewrite Hset, Hh.
        replace (length ops) with (k + (length ops - k)) by lia.
        rewrite seq_app. now apply prefix_app_r.
      * rewrite Hcalls. apply prefix_take.
      * now rewrite Hone.
    + pose proof Hdisp as (-> & _). cbn [fst snd handle].
      now rewrite app_nil_r.
  - (* update *)
    destruct Hinv as [Hlive|Hdisp].
    + pose proof Hlive as (_ & -> & _). left. now apply onUpdate_live.
    + pose proof Hdisp as (_ & -> & _). now right.
  - (* error *)
    destruct Hinv as [Hlive|Hdisp].
    + pose proof Hlive as (_ & -> & _). left. now apply onError_live.
    + pose proof Hdisp as (_ & -> & _). now right.
  - (* updateend *)
    destruct Hinv as [Hlive|Hdisp].
    + pose proof Hlive as (_ & -> & _). left. now apply flush_live.
    + pose proof Hdisp as (_ & -> & _). now right.
  - (* the source buffer changes state *)
    destruct Hinv as [Hlive|Hdisp]; [left|right]; assumption.
Qed.

Lemma run_inv ins : forall (w : world R) handles ops,
  live w handles ops \/ disposed w handles ops ->
  live (fst (run sb ins w handles)) (snd (run sb ins w handles))
       (ops ++ flat_map queued ins) \/
  disposed (fst (run sb ins w handles)) (snd (run sb ins w handles))
           (ops ++ flat_map queued ins).
Proof.
  induction ins as [|i ins IH]; intros w handles ops Hinv.
  - cbn. now rewrite app_nil_r.
  - cbn [run flat_map]. pose proof (step_inv i w handles ops Hinv) as Hstep.
    destruct (step sb i w) as [o w']. cbn [fst snd] in Hstep.
    rewrite app_assoc.
    replace (match o with
             | Some (Ret s) => handles ++ [s]
             | _ => handles
             end) with (handles ++ handle o)
      by (destruct o as [[s|e]|]; cbn; now rewrite ?app_nil_r).
    now apply IH.
Qed.

Lemma create_live (r : R) : live (create r) [] [].
Proof.
  unfold live, create. cbn. repeat split.
  exists 0. cbn. repeat split; [lia | discriminate].
Qed.

(** C1.  Whatever the source buffer does and whatever happens to the
    queue, from its creation on: the source buffer is called for one
    operation at a time, never before the operation called before has
    been settled; the subjects are settled in the order in which the
    callers were handed them, none of them twice; and the primitives are
    called in the order in which the actions were queued. *)
Theorem queue_serialized_fifo (r : R) ins :
  let w := fst (run sb ins (create r) []) in
  let handles := snd (run sb ins (create r) []) in
  single_outstanding false (trace w) <> None /\
  settled (trace w) `prefix_of` handles /\
  NoDup (settled (trace w)) /\
  calls (trace w) `prefix_of` flat_map queued ins.
Proof.
  cbv zeta.
  destruct (run_inv ins (create r) [] [] (or_introl (create_live r)))
    as [(Hb & Hl & Hs & Hh & k & Hset & Hcalls & Hc & Hone & Hfl & Hq)
       | (Hb & Hl & Hf & (k & Hk) & Hset & Hcalls & Hone)];
    cbn [app] in *.
  - repeat split.
    + now rewrite Hone.
    + rewrite Hset, Hh.
      replace (length (flat_map queued ins))
        with (k + (length (flat_map queued ins) - k)) by lia.
      rewrite seq_app. now apply prefix_app_r.
    + rewrite Hset. apply NoDup_seq.
    + rewrite Hcalls. apply prefix_take.
  - repeat split; try assumption.
    rewrite Hk. apply NoDup_seq.
Qed.

(** C10.  An [update] event or an [error] event that reaches the queue
    while no operation is in flight ([flushing] is [null]) changes
    nothing: the queue, the source buffer and what has been observed are
    what they were, no subject is sent anything, and the handlers
    return. *)
Theorem idle_events_ignored (w : world R) evt e :
  flushing (this w) = None ->
  onUpdate evt w = w /\ onError e w = w /\
  step sb (EvUpdate evt) w = (None, w) /\
  step sb (EvError e) w = (None, w).
Proof.
  intros Hidle. unfold step, onUpdate, onError. rewrite Hidle.
  repeat split; now destruct (listening w).
Qed.

(** Once nothing is in flight and an action waits in the queue, or the
    queue has been disposed of, nothing but an [updateend] event makes
    the queue call the source buffer or settle a subject. *)
Lemma stalled ins : forall (w : world R) handles,
  flushing (this w) = None ->
  queue (this w) <> [] \/ buffer (this w) = false ->
  Forall (fun i => i <> EvUpdateEnd) ins ->
  trace (fst (run sb ins w handles)) = trace w.
Proof.
  induction ins as [|i ins IH]; intros w handles Hidle Hq Hins;
    [reflexivity|].
  inversion Hins as [|i' ins' Hi Hrest]; subst.
  assert (Henq : forall t a,
    let w' := snd (queueAction sb t a w) in
    flushing (this w') = None /\
    (queue (this w') <> [] \/ buffer (this w') = false) /\
    trace w' = trace w).
  { intros t a. unfold queueAction.
    destruct (queue (this w)) as [|e0 q] eqn:Eq.
    - destruct Hq as [Hq|Hb]; [congruence|].
      cbn [length Nat.eqb]. unfold flush.
      cbn [this flushing queue buffer pop]. rewrite Hidle, Hb.
      cbn. repeat split; auto.
    - cbn [length Nat.eqb snd this flushing queue trace].
      repeat split; auto; left; discriminate. }
  cbn [run].
  destruct i; cbn [step];
    unfold appendBuffer_, removeBuffer, appendStream_;
    try (match goal with
         | |- context [queueAction sb ?t ?a w] =>
             destruct (Henq t a) as (Hf' & Hq' & <-);
             destruct (queueAction sb t a w) as [o w'];
             now apply IH
         end).
  - (* dispose *)
    unfold dispose. destruct (buffer (this w)) eqn:Hb.
    + rewrite IH; [reflexivity | reflexivity | now right | assumption].
    + cbv beta iota. apply IH; [assumption | now right | assumption].
  - unfold onUpdate. rewrite Hidle. destruct (listening w); now apply IH.
  - unfold onError. rewrite Hidle. destruct (listening w); now apply IH.
  - congruence.
  - rewrite IH; [reflexivity | assumption.. ].
Qed.

End WithSourceBuffer.

Lemma idle_events_ignored_witness :
  let w := create (R := nat * bool) (0, false) in
  onUpdate 7 w = w /\ onError (ResourceError 1) w = w /\
  step second_call_throws (EvUpdate 7) w = (None, w) /\
  step second_call_throws (EvError (ResourceError 1)) w = (None, w).
Proof.
  intros w. apply (idle_events_ignored second_call_throws w). reflexivity.
Defined.

Lemma run_app {R} (sb : SourceBuffer R) ins1 : forall ins2 w hs,
  run sb (ins1 ++ ins2) w hs =
  run sb ins2 (fst (run sb ins1 w hs)) (snd (run sb ins1 w hs)).
Proof.
  induction ins1 as [|i ins1 IH]; intros ins2 w hs; [reflexivity|].
  cbn [app run]. destruct (step sb i w) as [o w']. apply IH.
Qed.

(** The three appends, the second of which throws at the call. *)
Lemma three_appends_run :
  run second_call_throws three_appends (create (0, false)) [] =
  (mkWorld (mkQueue true [mkEntry BUFFER_APPEND (Data [x03]) 2] None)
           (2, false) true
           [Called BUFFER_APPEND (Data [x01]); Next 0 0%Z; Complete 0;
            Called BUFFER_APPEND (Data [x02]); Failed 1 (ResourceError 0)]
           3,
   [0; 1; 2]).
Proof. vm_compute. reflexivity. Qed.

(** C6 fails on the code.  Three appends are queued, the first one ends,
    and the source buffer throws at the call for the second one: the
    first subject completes, the second one fails, and the third action
    stays in the queue with nothing in flight.  [flush] has settled the
    second subject and returned, and no event is due from the source
    buffer, which has no operation under way.  Whatever is queued later
    and whatever [update] or [error] event arrives, the third action is
    not handed to the source buffer and its subject is not settled, as
    long as no [updateend] event comes from elsewhere. *)
Theorem sync_throw_stalls_queue more :
  Forall (fun i => i <> EvUpdateEnd) more ->
  let w := fst (run second_call_throws three_appends (create (0, false)) []) in
  let w' := fst (run second_call_throws (three_appends ++ more)
                     (create (0, false)) []) in
  trace w = [Called BUFFER_APPEND (Data [x01]); Next 0 0%Z; Complete 0;
             Called BUFFER_APPEND (Data [x02]);
             Failed 1 (ResourceError 0)] /\
  flushing (this w) = None /\
  queue (this w) = [mkEntry BUFFER_APPEND (Data [x03]) 2] /\
  updating second_call_throws (resource w) = false /\
  trace w' = trace w /\
  settled (trace w') = [0; 1] /\
  calls (trace w') = [(BUFFER_APPEND, Data [x01]);
                      (BUFFER_APPEND, Data [x02])].
Proof.
  intros Hmore w w'.
  assert (Hw' : trace w' = trace w).
  { unfold w', w. rewrite run_app, three_appends_run. cbn [fst snd].
    apply stalled; [reflexivity | left; discriminate | exact Hmore]. }
  rewrite Hw'. unfold w. rewrite three_appends_run. cbn [fst].
  repeat split.
Qed.

Lemma sync_throw_stalls_queue_witness :
  let more := [EvUpdate 1%Z; DoAppendBuffer [x04];
               EvError (ResourceError 2); EnvStep (2, false)] in
  let w' := fst (run second_call_throws (three_appends ++ more)
                     (create (0, false)) []) in
  settled (trace w') = [0; 1] /\
  calls (trace w') = [(BUFFER_APPEND, Data [x01]);
                      (BUFFER_APPEND, Data [x02])].
Proof.
  intros more w'.
  destruct (sync_throw_stalls_queue more) as (_ & _ & _ & _ & _ & Hs & Hc).
  - repeat constructor; discriminate.
  - split; [exact Hs | exact Hc].
Defined.

End QueueFacts.

(** * More properties of the code *)

(** ** The box locator, further *)

Lemma scan_ret_ge buf atomName n : forall i0 size0 i size,
  (Z.to_nat (Z.of_nat (length buf) - i0) <= n)%nat ->
  scan buf atomName i0 size0 = Ret (i, size) -> i0 <= i.
Proof.
  induction n as [|n IH]; intros i0 size0 i size Hn Hscan;
    rewrite scan_unfold in Hscan;
    destruct (Z.ltb_spec (i0 + 8) (Z.of_nat (length buf))) as [Hlt|Hge];
    try (injection Hscan as E1 E2; lia); try lia.
  destruct (be4toi buf i0) as [s|] eqn:Hs; [|discriminate].
  destruct (Z.ltb_spec 0 s); [|discriminate].
  destruct (eqb _ _).
  - injection Hscan as <- <-. lia.
  - apply IH in Hscan; lia.
Qed.

Lemma slice_in_range (buf : list byte) b e :
  0 <= b -> b <= e -> e <= Z.of_nat (length buf) ->
  slice buf (Num b) (Some (Num e)) =
  take (Z.to_nat (e - b)) (drop (Z.to_nat b) buf).
Proof.
  intros Hb Hbe He. unfold slice, rel_index. cbn [to_integer].
  destruct (Z.ltb_spec b 0); [lia|]. destruct (Z.ltb_spec e 0); [lia|].
  rewrite !Z.min_l by lia. now rewrite Z.max_l by lia.
Qed.

(** [slice] never leaves the array: what it returns is a part of it. *)
Lemma slice_window (buf : list byte) b e :
  exists pre post, buf = pre ++ slice buf b e ++ post.
Proof.
  unfold slice.
  set (n := Z.to_nat _). set (k := Z.to_nat _).
  exists (take k buf), (drop n (drop k buf)).
  now rewrite take_drop, take_drop.
Qed.

(** X1.  What [findAtom] returns is -1 or an offset inside the buffer;
    and when the 8 bytes of a header and one more byte can be read at
    that offset, a box of the name looked for starts there, with a
    positive declared size, and ends within the buffer. *)
Theorem findAtom_result buf atomName pos :
  findAtom buf atomName = Ret pos ->
  pos = -1 \/
  (0 <= pos < Z.of_nat (length buf) /\
   (pos + 8 < Z.of_nat (length buf) ->
    exists s, be4toi buf pos = Num s /\ 0 < s /\
              pos + s <= Z.of_nat (length buf) /\
              be4toi buf (pos + 4) = Num atomName)).
Proof.
  intros Hfind.
  destruct (Z.eq_dec pos (-1)) as [|Hfound]; [now left | right].
  split.
  - unfold findAtom in Hfind.
    destruct (scan buf atomName 0 NaN) as [[i size]|e] eqn:Hscan;
      [|discriminate].
    apply (scan_ret_ge _ _ _ _ _ _ _ (Nat.le_refl _)) in Hscan.
    destruct (Z.leb_spec (Z.of_nat (length buf)) i).
    + injection Hfind as <-. contradiction.
    + destruct (assert _ _); [|discriminate]. injection Hfind as <-. lia.
  - intros Hpos.
    now destruct (findAtom_sound _ _ _ Hfind Hfound Hpos) as [_ H].
Qed.

Lemma findAtom_result_witness :
  let buf := box 0x66726565 [x01] ++ box MOOV [x02; x03] ++ [x04] in
  9 = -1 \/
  (0 <= 9 < Z.of_nat (length buf) /\
   (9 + 8 < Z.of_nat (length buf) ->
    exists s, be4toi buf 9 = Num s /\ 0 < s /\
              9 + s <= Z.of_nat (length buf) /\
              be4toi buf (9 + 4) = Num MOOV)).
Proof.
  intros buf. apply (findAtom_result buf MOOV 9).
  vm_compute. reflexivity.
Defined.

(** The scan stops at a box of the name that comes after well-formed
    boxes of other names. *)
Lemma scan_locates atomName bs content rest :
  other_boxes atomName bs ->
  0 <= atomName < 2 ^ 32 ->
  Z.of_nat (length content) + 8 < 2 ^ 32 ->
  (0 < length (content ++ rest))%nat ->
  scan (boxes bs ++ box atomName content ++ rest) atomName 0 NaN =
  Ret (Z.of_nat (length (boxes bs)),
       Num (Z.of_nat (length content) + 8)).
Proof.
  intros Hbs Hname Hc Hmore.
  destruct (scan_skips_boxes atomName bs [] NaN (box atomName content ++ rest)
              Hbs) as [size' Hskip].
  { rewrite length_app, length_box. lia. }
  cbn [app length] in Hskip. change (Z.of_nat 0) with 0 in Hskip.
  rewrite Hskip, scan_unfold.
  set (buf := boxes bs ++ box atomName content ++ rest).
  set (i := Z.of_nat (length (boxes bs))).
  assert (Hl : Z.of_nat (length buf) =
               i + 8 + Z.of_nat (length (content ++ rest))).
  { unfold buf, i. rewrite !length_app, length_box. lia. }
  destruct (Z.ltb_spec (i + 8) (Z.of_nat (length buf))); [|lia].
  assert (Hsz : be4toi buf i = Num (Z.of_nat (length content) + 8)).
  { unfold buf, i. rewrite <- (Z.add_0_r (Z.of_nat (length (boxes bs)))).
    rewrite be4toi_app_r by lia. unfold box. rewrite <- !app_assoc.
    apply be4toi_itobe4. lia. }
  assert (Hnm : be4toi buf (i + 4) = Num atomName).
  { unfold buf, i, box. rewrite <- !app_assoc, (app_assoc (boxes bs)).
    replace (Z.of_nat (length (boxes bs)) + 4)
      with (Z.of_nat (length (boxes bs ++ itobe4
               (Num (Z.of_nat (length content) + 8)))) + 0)
      by (rewrite length_app, length_itobe4; lia).
    rewrite be4toi_app_r by lia. apply be4toi_itobe4. assumption. }
  rewrite Hsz, Hnm.
  destruct (Z.ltb_spec 0 (Z.of_nat (length content) + 8)); [|lia].
  cbn [eqb]. now rewrite Z.eqb_refl.
Qed.

(** Both functions find the first box of the name. *)
Lemma first_box_located atomName bs content rest :
  other_boxes atomName bs ->
  0 <= atomName < 2 ^ 32 ->
  Z.of_nat (length content) + 8 < 2 ^ 32 ->
  (0 < length (content ++ rest))%nat ->
  findAtom (boxes bs ++ box atomName content ++ rest) atomName =
    Ret (Z.of_nat (length (boxes bs))) /\
  getAtomContent (boxes bs ++ box atomName content ++ rest) atomName =
    Ret (Some content).
Proof.
  intros Hbs Hname Hc Hmore.
  pose proof (scan_locates _ _ _ _ Hbs Hname Hc Hmore) as Hscan.
  set (buf := boxes bs ++ box atomName content ++ rest) in *.
  set (i := Z.of_nat (length (boxes bs))) in *.
  assert (Hl : Z.of_nat (length buf) =
               i + 8 + Z.of_nat (length content) + Z.of_nat (length rest)).
  { unfold buf, i. rewrite !length_app, length_box. lia. }
  rewrite length_app in Hmore.
  unfold findAtom, getAtomContent. rewrite Hscan. split.
  - destruct (Z.leb_spec (Z.of_nat (length buf)) i); [lia|].
    cbn [add leb].
    destruct (Z.leb_spec (i + (Z.of_nat (length content) + 8))
                         (Z.of_nat (length buf))); [reflexivity | lia].
  - destruct (Z.ltb_spec i (Z.of_nat (length buf))); [|lia].
    cbn [add]. rewrite slice_in_range by lia.
    do 2 f_equal. unfold buf, box.
    rewrite !app_assoc, <- (app_assoc _ content rest).
    rewrite drop_app_length'
      by (unfold i; rewrite !length_app, !length_itobe4; lia).
    apply take_app_length'. lia.
Qed.

(** X2.  In a buffer that starts with well-formed boxes, [findAtom]
    returns the offset of the first box of the name looked for and
    [getAtomContent] returns the content of that box, provided the box
    has a content or is followed by more bytes. *)
Theorem locator_first_box atomName bs content rest :
  other_boxes atomName bs ->
  0 <= atomName < 2 ^ 32 ->
  Z.of_nat (length content) + 8 < 2 ^ 32 ->
  (0 < length (content ++ rest))%nat ->
  findAtom (boxes bs ++ box atomName content ++ rest) atomName =
    Ret (Z.of_nat (length (boxes bs))) /\
  getAtomContent (boxes bs ++ box atomName content ++ rest) atomName =
    Ret (Some content).
Proof. apply first_box_located. Qed.

Lemma locator_first_box_witness :
  let buf := boxes [(0x66726565, [x01])] ++ box MDAT [x02; x03] ++ [x04] in
  findAtom buf MDAT = Ret (Z.of_nat (length (boxes [(0x66726565, [x01])]))) /\
  getAtomContent buf MDAT = Ret (Some [x02; x03]).
Proof.
  intros buf. apply locator_first_box.
  - constructor; [|constructor]. cbn [fst snd length]. unfold MDAT. lia.
  - unfold MDAT. lia.
  - cbn. lia.
  - cbn. lia.
Defined.

Lemma scan_other_boxes_end atomName bs :
  other_boxes atomName bs -> ends_with_content bs ->
  exists size',
    scan (boxes bs) atomName 0 NaN =
    Ret (Z.of_nat (length (boxes bs)), size').
Proof.
  intros Hbs Hlast.
  destruct (scan_other_boxes atomName bs [] NaN Hbs Hlast) as [size' H].
  exists size'. exact H.
Qed.

(** X3.  A buffer made of well-formed boxes none of which has the name
    looked for, the last one with a content, has no such box for the
    locator: [findAtom] returns -1 and [getAtomContent] returns [null];
    without an [mdat] box [getMdat] returns [null], and without a [sidx]
    box [parseSidx] returns [null] whatever the offset. *)
Theorem locator_no_box atomName bs :
  other_boxes atomName bs -> ends_with_content bs ->
  findAtom (boxes bs) atomName = Ret (-1) /\
  getAtomContent (boxes bs) atomName = Ret None /\
  (atomName = MDAT -> getMdat (boxes bs) = Ret None) /\
  (atomName = SIDX -> forall offset, parseSidx (boxes bs) offset = Ret None).
Proof.
  intros Hbs Hlast.
  destruct (scan_other_boxes_end _ _ Hbs Hlast) as [size' Hscan].
  assert (Hfind : findAtom (boxes bs) atomName = Ret (-1)).
  { unfold findAtom. rewrite Hscan.
    destruct (Z.leb_spec (Z.of_nat (length (boxes bs)))
                         (Z.of_nat (length (boxes bs)))); [reflexivity | lia]. }
  assert (Hget : getAtomContent (boxes bs) atomName = Ret None).
  { unfold getAtomContent. rewrite Hscan.
    destruct (Z.ltb_spec (Z.of_nat (length (boxes bs)))
                         (Z.of_nat (length (boxes bs)))); [lia | reflexivity]. }
  repeat split; try assumption.
  - intros ->. exact Hget.
  - intros -> offset. unfold parseSidx. now rewrite Hfind.
Qed.

Lemma locator_no_box_witness :
  let bs := [(0x66726565, [x01]); (MOOV, [x02])] in
  findAtom (boxes bs) SIDX = Ret (-1) /\
  getAtomContent (boxes bs) SIDX = Ret None /\
  (SIDX = MDAT -> getMdat (boxes bs) = Ret None) /\
  (SIDX = SIDX -> forall offset, parseSidx (boxes bs) offset = Ret None).
Proof.
  intros bs. apply locator_no_box.
  - repeat constructor; cbn [fst snd length]; unfold SIDX, MOOV; lia.
  - cbn. discriminate.
Defined.

(** X4.  [findAtom] and [getAtomContent] run the same scan: one reports
    "not found" exactly when the other does; what [getAtomContent]
    throws, [findAtom] throws; where [findAtom] returns the offset of a
    box whose header is followed by one more byte at least,
    [getAtomContent] returns the bytes of the buffer from the end of the
    header to the end of the box; and the content returned is always a
    part of the buffer. *)
Theorem locator_agreement buf atomName :
  (findAtom buf atomName = Ret (-1) <->
   getAtomContent buf atomName = Ret None) /\
  (forall e, getAtomContent buf atomName = Throw e ->
             findAtom buf atomName = Throw e) /\
  (forall pos size,
     findAtom buf atomName = Ret pos -> pos <> -1 ->
     pos + 8 < Z.of_nat (length buf) ->
     be4toi buf pos = Num size ->
     getAtomContent buf atomName =
     Ret (Some (take (Z.to_nat (size - 8)) (drop (Z.to_nat (pos + 8)) buf)))) /\
  (forall content,
     getAtomContent buf atomName = Ret (Some content) ->
     exists pre post, buf = pre ++ content ++ post).
Proof.
  unfold findAtom, getAtomContent.
  destruct (scan buf atomName 0 NaN) as [[i size]|e] eqn:Hscan.
  - pose proof (scan_ret_ge _ _ _ _ _ _ _ (Nat.le_refl _) Hscan) as Hi.
    destruct (Z.leb_spec (Z.of_nat (length buf)) i) as [Hend|Hin];
      destruct (Z.ltb_spec i (Z.of_nat (length buf))) as [Hlt|Hnlt]; try lia.
    + repeat split; try discriminate; try reflexivity.
      intros pos size0 Hpos. injection Hpos as <-. contradiction.
    + split; [|split; [|split]].
      * split; [|discriminate].
        destruct (assert _ _); [|discriminate]. intros Heq. injection Heq. lia.
      * discriminate.
      * intros pos size0 Hfind Hfound Hpos Hsize.
        destruct (assert _ _) eqn:Hassert; [|discriminate].
        injection Hfind as ->.
        destruct (scan_ret_in_range buf atomName _ 0 NaN pos size
                    (Nat.le_refl _) Hscan Hpos)
          as [_ (s & -> & Hs & Hs0 & _)].
        rewrite Hsize in Hs. injection Hs as ->.
        unfold assert in Hassert. cbn [add leb] in Hassert.
        destruct (Z.leb_spec (pos + s) (Z.of_nat (length buf)));
          [|discriminate].
        cbn [add]. do 2 f_equal.
        destruct (Z.le_gt_cases 8 s).
        -- rewrite slice_in_range by lia. do 2 f_equal. lia.
        -- unfold slice, rel_index. cbn [to_integer].
           destruct (Z.ltb_spec (pos + 8) 0); [lia|].
           destruct (Z.ltb_spec (pos + s) 0); [lia|].
           rewrite !Z.min_l by lia. rewrite Z.max_r by lia.
           replace (Z.to_nat (s - 8)) with 0%nat by lia. reflexivity.
      * intros content Heq. injection Heq as <-. apply slice_window.
  - repeat split; try discriminate. intros e' Heq. congruence.
Qed.

Lemma locator_agreement_witness :
  let buf := box MOOV [x02; x03] ++ [x04] in
  getAtomContent buf MOOV =
  Ret (Some (take (Z.to_nat (10 - 8)) (drop (Z.to_nat (0 + 8)) buf))).
Proof.
  intros buf.
  destruct (locator_agreement buf MOOV) as (_ & _ & H & _).
  apply (H 0 10).
  - vm_compute. reflexivity.
  - lia.
  - cbn. lia.
  - reflexivity.
Defined.

(** X5.  The edge of the loop bound: in a buffer of 1 to 8 bytes no
    header is read; [findAtom] throws (the size it checks is still
    [undefined]) and [getAtomContent] returns an empty content, whatever
    the bytes and the name; in an empty buffer both report "not
    found". *)
Theorem locator_short_buffer buf atomName :
  (length buf <= 8)%nat ->
  (buf = [] ->
   findAtom buf atomName = Ret (-1) /\
   getAtomContent buf atomName = Ret None) /\
  (buf <> [] ->
   findAtom buf atomName = Throw (AssertionError "dash: atom out of range") /\
   getAtomContent buf atomName = Ret (Some [])).
Proof.
  intros Hshort.
  assert (Hscan : scan buf atomName 0 NaN = Ret (0, NaN)).
  { rewrite scan_unfold.
    destruct (Z.ltb_spec (0 + 8) (Z.of_nat (length buf))); [lia | reflexivity]. }
  unfold findAtom, getAtomContent. rewrite Hscan. split.
  - intros ->. split; reflexivity.
  - intros Hne.
    assert (0 < length buf)%nat by (destruct buf; [congruence | cbn; lia]).
    destruct (Z.leb_spec (Z.of_nat (length buf)) 0); [lia|].
    destruct (Z.ltb_spec 0 (Z.of_nat (length buf))); [|lia].
    split; [reflexivity|].
    do 2 f_equal. unfold slice, rel_index. cbn [add to_integer].
    change (0 + 8 <? 0) with false. change (0 <? 0) with false. cbv iota.
    rewrite (Z.min_r (0 + 8)) by lia. rewrite Z.min_l by lia.
    rewrite Z.max_r by lia. reflexivity.
Qed.

Lemma locator_short_buffer_witness :
  let buf := itobe4 (Num 8) ++ strToBytes "moov" in
  findAtom buf MOOV = Throw (AssertionError "dash: atom out of range") /\
  getAtomContent buf MOOV = Ret (Some []).
Proof.
  intros buf. apply (locator_short_buffer buf MOOV).
  - cbn. lia.
  - discriminate.
Defined.

(** ** The segment index, further *)

Lemma b2z_z2b_mod z : b2z (z2b z) = z mod 256.
Proof.
  assert (Hz : z2b z = z2b (z mod 256))
    by (unfold z2b; now rewrite Z.mod_mod by lia).
  rewrite Hz. apply b2z_z2b. apply Z.mod_pos_bound. lia.
Qed.

Lemma get_field (p : list byte) b q k :
  k = Z.of_nat (length p) -> get (p ++ b :: q) k = Num (b2z b).
Proof.
  intros ->. rewrite <- (Z.add_0_r (Z.of_nat (length p))).
  now rewrite get_app_r by lia.
Qed.

Lemma be4toi_field (p : list byte) n q k :
  0 <= n < 2 ^ 32 -> k = Z.of_nat (length p) ->
  be4toi (p ++ itobe4 (Num n) ++ q) k = Num n.
Proof.
  intros Hn ->. rewrite <- (Z.add_0_r (Z.of_nat (length p))).
  rewrite be4toi_app_r by lia. now apply be4toi_itobe4.
Qed.

Lemma be2toi_field (p : list byte) n q k :
  0 <= n < 2 ^ 16 -> k = Z.of_nat (length p) ->
  be2toi (p ++ field16 n ++ q) k = Num n.
Proof.
  intros Hn ->. unfold be2toi.
  rewrite <- (Z.add_0_r (Z.of_nat (length p))) at 1.
  rewrite !get_app_r by lia.
  change (get (field16 n ++ q) 0) with (Num (b2z (z2b (n / 256)))).
  change (get (field16 n ++ q) 1) with (Num (b2z (z2b n))).
  rewrite !b2z_z2b_mod. cbn [mul add]. f_equal.
  rewrite (Z.mod_small (n / 256)).
  - pose proof (Z.div_mod n 256). lia.
  - split; [apply Z.div_pos; lia | apply Z.div_lt_upper_bound; lia].
Qed.

Lemma be8toi_field (p : list byte) n q k :
  0 <= n < 2 ^ 53 -> k = Z.of_nat (length p) ->
  be8toi (p ++ field64 n ++ q) k = Num n.
Proof.
  intros Hn ->. unfold be8toi, field64.
  assert (Hhi : 0 <= n / 2 ^ 32 < 2 ^ 32).
  { split; [apply Z.div_pos; lia | apply Z.div_lt_upper_bound; lia]. }
  pose proof (Z.mod_pos_bound n (2 ^ 32)) as Hlo.
  rewrite <- !app_assoc.
  rewrite (be4toi_field p) by (assumption || reflexivity).
  rewrite (app_assoc p).
  rewrite (be4toi_field (p ++ itobe4 (Num (n / 2 ^ 32))))
    by (try (rewrite length_app, length_itobe4); lia).
  cbn [mul]. rewrite fadd_small.
  - f_equal. pose proof (Z.div_mod n (2 ^ 32)). lia.
  - pose proof (Z.div_mod n (2 ^ 32)). lia.
Qed.

Lemma land_top_bit x :
  0 <= x < 2 ^ 32 ->
  Z.land x (2 ^ 31) = if 2 ^ 31 <=? x then 2 ^ 31 else 0.
Proof.
  intros Hx. apply Z.bits_inj'. intros n Hn.
  rewrite Z.land_spec.
  destruct (Z.eq_dec n 31) as [->|Hne].
  - rewrite Z.pow2_bits_true, andb_true_r by lia.
    destruct (Z.leb_spec (2 ^ 31) x).
    + rewrite Z.pow2_bits_true by lia. apply Z.testbit_true; [lia|].
      replace (x / 2 ^ 31) with 1; [reflexivity|].
      apply Z.div_unique with (r := x - 2 ^ 31); lia.
    + rewrite Z.bits_0. apply Z.testbit_false; [lia|].
      now rewrite Z.div_small by lia.
  - rewrite Z.pow2_bits_false, andb_false_r by lia.
    destruct (2 ^ 31 <=? x);
      [now rewrite Z.pow2_bits_false by lia | now rewrite Z.bits_0].
Qed.

(** The type bit and the size of the first word of a reference. *)
Lemma reference_type_bit (b : bool) s :
  0 <= s < 2 ^ 31 ->
  ushr (band (Num ((if b then 2 ^ 31 else 0) + s)) (Num 0x80000000)) 31 =
  Num (if b then 1 else 0).
Proof.
  intros Hs. unfold ushr, band, to_int32, to_uint32.
  change (0x80000000 mod 2 ^ 32) with (2 ^ 31). change (31 mod 32) with 31.
  rewrite (Z.mod_small (_ + s)) by (destruct b; lia).
  rewrite land_top_bit by (destruct b; lia).
  destruct b.
  - destruct (Z.leb_spec (2 ^ 31) (2 ^ 31 + s)); [|lia]. reflexivity.
  - destruct (Z.leb_spec (2 ^ 31) (0 + s)); [lia|]. reflexivity.
Qed.

Lemma reference_size (b : bool) s :
  0 <= s < 2 ^ 31 ->
  band (Num ((if b then 2 ^ 31 else 0) + s)) (Num 0x7fffffff) = Num s.
Proof.
  intros Hs. unfold band, to_int32, to_uint32.
  change (0x7fffffff mod 2 ^ 32) with (Z.ones 31).
  rewrite (Z.mod_small (_ + s)) by (destruct b; lia).
  rewrite Z.land_ones by lia.
  assert (Hmod : ((if b then 2 ^ 31 else 0) + s) mod 2 ^ 31 = s).
  { destruct b.
    - rewrite Z.add_comm, <- (Z.mul_1_l (2 ^ 31)) at 1.
      rewrite Z.mod_add by lia. apply Z.mod_small. lia.
    - apply Z.mod_small. lia. }
  rewrite Hmod, (Z.mod_small s) by lia.
  destruct (Z.ltb_spec s (2 ^ 31)); [reflexivity | lia].
Qed.

Lemma length_reference_bytes r :
  length (ref_sap r) = 4%nat -> length (reference_bytes r) = 12%nat.
Proof.
  intros Hsap. unfold reference_bytes.
  now rewrite !length_app, !length_itobe4, Hsap.
Qed.

(** One turn of the loop of [parseSidx] on the bytes of a record. *)
Lemma references_step count (p : list byte) r q time offset segs :
  0 <= ref_size r < 2 ^ 31 -> 0 <= ref_duration r < 2 ^ 32 ->
  length (ref_sap r) = 4%nat ->
  references (S count) (p ++ reference_bytes r ++ q)
             (Z.of_nat (length p)) time offset segs =
  if ref_index r then Throw NotImplemented
  else
    references count (p ++ reference_bytes r ++ q)
      (Z.of_nat (length (p ++ reference_bytes r)))
      (fadd time (Num (ref_duration r)))
      (fadd offset (Num (ref_size r)))
      (segs ++ [mkSegment time (Num (ref_duration r)) 0
                  (offset, fsub (fadd offset (Num (ref_size r))) (Num 1))]).
Proof.
  intros Hs Hd Hsap. cbn [references].
  assert (Hchunk : be4toi (p ++ reference_bytes r ++ q)
                     (Z.of_nat (length p)) =
                   Num ((if ref_index r then 2 ^ 31 else 0) + ref_size r)).
  { unfold reference_bytes. rewrite <- !app_assoc.
    apply be4toi_field; [destruct (ref_index r); lia | reflexivity]. }
  assert (Hdur : be4toi (p ++ reference_bytes r ++ q)
                   (Z.of_nat (length p) + 4) = Num (ref_duration r)).
  { unfold reference_bytes. rewrite <- !app_assoc, (app_assoc p).
    apply be4toi_field; [assumption|].
    rewrite length_app, length_itobe4. lia. }
  rewrite Hchunk, Hdur, reference_type_bit, reference_size by assumption.
  destruct (ref_index r); [reflexivity|].
  change (eqb (Num 0) (Num 1)) with false. cbv iota.
  f_equal. rewrite length_app, (length_reference_bytes r Hsap). lia.
Qed.

Lemma references_media refs : forall (p q : list byte) t o segs,
  Forall media_record refs ->
  0 <= t -> 0 <= o ->
  t + total_duration refs < 2 ^ 53 -> o + total_size refs < 2 ^ 53 ->
  references (length refs) (p ++ flat_map reference_bytes refs ++ q)
             (Z.of_nat (length p)) (Num t) (Num o) segs =
  Ret (segs ++ media_segments t o refs).
Proof.
  induction refs as [|r refs IH]; intros p q t o segs Hrefs Ht Ho Htd Hos.
  - cbn. now rewrite app_nil_r.
  - inversion Hrefs as [|r' refs' (Hidx & Hs & Hd & Hsap) Hrest]; subst.
    cbn [total_duration total_size fold_right] in Htd, Hos.
    fold (total_duration refs) in Htd. fold (total_size refs) in Hos.
    assert (0 <= total_duration refs /\ 0 <= total_size refs) as [Hd0 Hs0].
    { clear - Hrest. induction Hrest as [|x l (_ & Hs & Hd & _) _ [IHd IHs]];
        cbn; [lia|].
      fold (total_duration l). fold (total_size l). lia. }
    cbn [length flat_map]. rewrite <- app_assoc.
    rewrite references_step by assumption. rewrite Hidx.
    rewrite !fadd_small, fsub_small by lia.
    rewrite (app_assoc p).
    rewrite IH by (assumption || lia).
    cbn [media_segments]. now rewrite <- app_assoc.
Qed.

Lemma references_index pre : forall (p q : list byte) r post time offset segs,
  Forall media_record pre ->
  ref_index r = true -> 0 <= ref_size r < 2 ^ 31 ->
  0 <= ref_duration r < 2 ^ 32 -> length (ref_sap r) = 4%nat ->
  references (length (pre ++ r :: post))
             (p ++ flat_map reference_bytes (pre ++ r :: post) ++ q)
             (Z.of_nat (length p)) time offset segs =
  Throw NotImplemented.
Proof.
  induction pre as [|m pre IH];
    intros p q r post time offset segs Hpre Hidx Hs Hd Hsap.
  - cbn [app length flat_map]. rewrite <- app_assoc.
    rewrite references_step by assumption. now rewrite Hidx.
  - inversion Hpre as [|m' pre' (Hmi & Hms & Hmd & Hmsap) Hrest]; subst.
    cbn [app length flat_map]. rewrite <- app_assoc.
    rewrite references_step by assumption. rewrite Hmi.
    rewrite (app_assoc p). now apply IH.
Qed.

Lemma be4toi_layout (l p : list byte) n q k :
  l = p ++ itobe4 (Num n) ++ q ->
  0 <= n < 2 ^ 32 -> k = Z.of_nat (length p) -> be4toi l k = Num n.
Proof. intros -> Hn Hk. now apply be4toi_field. Qed.

Lemma be8toi_layout (l p : list byte) n q k :
  l = p ++ field64 n ++ q ->
  0 <= n < 2 ^ 53 -> k = Z.of_nat (length p) -> be8toi l k = Num n.
Proof. intros -> Hn Hk. now apply be8toi_field. Qed.

Lemma be2toi_layout (l p : list byte) n q k :
  l = p ++ field16 n ++ q ->
  0 <= n < 2 ^ 16 -> k = Z.of_nat (length p) -> be2toi l k = Num n.
Proof. intros -> Hn Hk. now apply be2toi_field. Qed.

Lemma get_layout (l p : list byte) b q k :
  l = p ++ [b] ++ q -> k = Z.of_nat (length p) -> get l k = Num (b2z b).
Proof. intros -> Hk. now apply get_field. Qed.

Lemma length_field64 n : length (field64 n) = 8%nat.
Proof. reflexivity. Qed.

Lemma length_field16 n : length (field16 n) = 2%nat.
Proof. reflexivity. Qed.

Lemma length_sidx_content version1 flags refid timescale time first_offset refs :
  length flags = 3%nat -> length refid = 4%nat ->
  Forall (fun r => length (ref_sap r) = 4%nat) refs ->
  Z.of_nat (length (sidx_content version1 flags refid timescale time
                      first_offset refs)) =
  (if version1 then 32 else 24) + 12 * Z.of_nat (length refs).
Proof.
  intros Hf Hr Hrefs. unfold sidx_content.
  assert (Hl : length (flat_map reference_bytes refs) = (12 * length refs)%nat).
  { induction Hrefs as [|r l Hsap _ IH]; [reflexivity|].
    cbn [flat_map length].
    rewrite length_app, (length_reference_bytes r Hsap), IH. lia. }
  rewrite !length_app, Hf, Hr, Hl, length_itobe4, length_field16.
  destruct version1;
    rewrite !length_app, ?length_field64, ?length_itobe4; cbn [length]; lia.
Qed.

Ltac layout :=
  repeat match goal with x := _ |- _ => subst x end;
  unfold box, sidx_content; rewrite <- ?app_assoc; reflexivity.

Ltac layout_length :=
  rewrite ?length_app, ?length_itobe4, ?length_field64, ?length_field16;
  cbn [length]; lia.

(** X6.  Decoding a [sidx] box, of version 0 or 1, that comes after
    well-formed boxes of other names and whose records all refer to
    media: the timescale is the one of the box, there is one segment for
    each record, in order, the times add up from the earliest
    presentation time and the byte ranges follow one another from the
    anchor [A] plus the first offset plus the size of the [sidx] box, as
    long as the sums stay below [2 ^ 53]. *)
Theorem parseSidx_media bs version1 flags refid timescale time first_offset
    refs rest A :
  let content := sidx_content version1 flags refid timescale time
                   first_offset refs in
  let size := Z.of_nat (length content) + 8 in
  other_boxes SIDX bs ->
  length flags = 3%nat -> length refid = 4%nat ->
  0 <= timescale < 2 ^ 32 ->
  0 <= time < (if version1 then 2 ^ 53 else 2 ^ 32) ->
  0 <= first_offset < (if version1 then 2 ^ 53 else 2 ^ 32) ->
  Forall media_record refs -> Z.of_nat (length refs) < 2 ^ 16 ->
  0 <= A -> A + (first_offset + size) + total_size refs < 2 ^ 53 ->
  time + total_duration refs < 2 ^ 53 ->
  parseSidx (boxes bs ++ box SIDX content ++ rest) (Num A) =
  Ret (Some (mkSidx (media_segments time (A + (first_offset + size)) refs)
                    (Num timescale))).
Proof.
  intros content size Hbs Hf Hr Hts Ht Hfo Hrefs Hcount HA Hsum Hdur.
  assert (Hsaps : Forall (fun r => length (ref_sap r) = 4%nat) refs).
  { eapply Forall_impl; [exact Hrefs|]. now intros r (_ & _ & _ & H). }
  pose proof (length_sidx_content version1 flags refid timescale time
                first_offset refs Hf Hr Hsaps) as Hlen.
  fold content in Hlen.
  assert (0 <= total_duration refs /\ 0 <= total_size refs) as [Hd0 Hs0].
  { clear - Hrefs.
    induction Hrefs as [|x l (_ & Hs & Hd & _) _ [IHd IHs]]; cbn; [lia|].
    fold (total_duration l). fold (total_size l). lia. }
  assert (Hsize : 0 <= size < 2 ^ 32) by (unfold size; destruct version1; lia).
  set (buf := boxes bs ++ box SIDX content ++ rest).
  set (i := Z.of_nat (length (boxes bs))).
  assert (Hfind : findAtom buf SIDX = Ret i).
  { apply findAtom_locates; try assumption.
    - unfold SIDX. lia.
    - fold size. lia.
    - rewrite length_app. destruct version1; lia. }
  unfold parseSidx. rewrite Hfind.
  destruct (Z.eqb_spec i (-1)); [lia|].
  assert (Hsz : be4toi buf i = Num size).
  { eapply (be4toi_layout buf (boxes bs)); [layout | assumption | reflexivity]. }
  rewrite Hsz.
  assert (Hver : get buf (i + 4 + 4) =
                 Num (b2z (if version1 then x01 else x00))).
  { eapply (get_layout buf (boxes bs ++ itobe4 (Num size)
                            ++ itobe4 (Num SIDX))); [layout|].
    unfold i. layout_length. }
  assert (Hscale : be4toi buf (i + 4 + 4 + (4 + 4)) = Num timescale).
  { eapply (be4toi_layout buf
              (boxes bs ++ itobe4 (Num size) ++ itobe4 (Num SIDX)
               ++ [if version1 then x01 else x00] ++ flags ++ refid));
      [layout | assumption|].
    unfold i. rewrite !length_app, Hf, Hr. layout_length. }
  rewrite Hver, Hscale.
  set (upto := boxes bs ++ itobe4 (Num size) ++ itobe4 (Num SIDX)
               ++ [if version1 then x01 else x00] ++ flags ++ refid
               ++ itobe4 (Num timescale)).
  assert (Hupto : Z.of_nat (length upto) = i + 20).
  { unfold upto, i. rewrite !length_app, Hf, Hr. layout_length. }
  destruct version1; cbv iota in Ht, Hfo, Hlen.
  - (* version 1 *)
    change (eqb (Num (b2z x01)) (Num 0)) with false.
    change (eqb (Num (b2z x01)) (Num 1)) with true. cbv iota zeta.
    assert (Htime : be8toi buf (i + 4 + 4 + (4 + 4) + 4) = Num time).
    { eapply (be8toi_layout buf upto); [layout | lia | lia]. }
    assert (Hoff : be8toi buf (i + 4 + 4 + (4 + 4) + 4 + 8) =
                   Num first_offset).
    { eapply (be8toi_layout buf (upto ++ field64 time));
        [layout | lia|].
      rewrite length_app, length_field64. lia. }
    assert (Hcnt : be2toi buf (i + 4 + 4 + (4 + 4) + 4 + 8 + 8 + 2) =
                   Num (Z.of_nat (length refs))).
    { eapply (be2toi_layout buf (upto ++ field64 time ++ field64 first_offset
                                 ++ [x00; x00]));
        [layout | lia|].
      rewrite !length_app, !length_field64. cbn [length]. lia. }
    rewrite Htime, Hoff, Hcnt.
    cbn [turns]. rewrite Nat2Z.id.
    rewrite (fadd_small first_offset), (fadd_small A) by lia.
    set (p := upto ++ field64 time ++ field64 first_offset
              ++ [x00; x00] ++ field16 (Z.of_nat (length refs))).
    replace buf with (p ++ flat_map reference_bytes refs ++ rest)
      by layout.
    replace (i + 4 + 4 + (4 + 4) + 4 + 8 + 8 + 2 + 2)
      with (Z.of_nat (length p))
      by (unfold p; rewrite !length_app, !length_field64, length_field16;
          cbn [length]; lia).
    rewrite references_media by (assumption || lia). reflexivity.
  - (* version 0 *)
    change (eqb (Num (b2z x00)) (Num 0)) with true. cbv iota zeta.
    assert (Htime : be4toi buf (i + 4 + 4 + (4 + 4) + 4) = Num time).
    { eapply (be4toi_layout buf upto); [layout | lia | lia]. }
    assert (Hoff : be4toi buf (i + 4 + 4 + (4 + 4) + 4 + 4) =
                   Num first_offset).
    { eapply (be4toi_layout buf (upto ++ itobe4 (Num time)));
        [layout | lia|].
      rewrite length_app, length_itobe4. lia. }
    assert (Hcnt : be2toi buf (i + 4 + 4 + (4 + 4) + 4 + 4 + 4 + 2) =
                   Num (Z.of_nat (length refs))).
    { eapply (be2toi_layout buf (upto ++ itobe4 (Num time)
                                 ++ itobe4 (Num first_offset) ++ [x00; x00]));
        [layout | lia|].
      rewrite !length_app, !length_itobe4. cbn [length]. lia. }
    rewrite Htime, Hoff, Hcnt.
    cbn [turns]. rewrite Nat2Z.id.
    rewrite (fadd_small first_offset), (fadd_small A) by lia.
    set (p := upto ++ itobe4 (Num time) ++ itobe4 (Num first_offset)
              ++ [x00; x00] ++ field16 (Z.of_nat (length refs))).
    replace buf with (p ++ flat_map reference_bytes refs ++ rest)
      by layout.
    replace (i + 4 + 4 + (4 + 4) + 4 + 4 + 4 + 2 + 2)
      with (Z.of_nat (length p))
      by (unfold p; rewrite !length_app, !length_itobe4, length_field16;
          cbn [length]; lia).
    rewrite references_media by (assumption || lia). reflexivity.
Qed.

Lemma parseSidx_media_witness :
  let refs := [mkReference false 100 500 (repeat x00 4);
               mkReference false 150 600 (repeat x00 4)] in
  let content := sidx_content true (repeat x00 3) (repeat x01 4)
                   90000 (2 ^ 40) 16 refs in
  parseSidx (boxes [(0x66726565, [x01])] ++ box SIDX content ++ [x09])
            (Num 1000) =
  Ret (Some (mkSidx
    (media_segments (2 ^ 40)
       (1000 + (16 + (Z.of_nat (length content) + 8))) refs)
    (Num 90000))).
Proof.
  intros refs content.
  apply (parseSidx_media [(0x66726565, [x01])] true (repeat x00 3)
           (repeat x01 4) 90000 (2 ^ 40) 16 refs [x09] 1000);
    try reflexivity; try (cbn; lia).
  - repeat constructor; cbn [fst snd length]; unfold SIDX; lia.
  - repeat constructor; cbn; lia.
Defined.

(** X7.  A record whose type bit says that it refers to another index
    makes [parseSidx] throw "not implemented", whatever the version of
    the [sidx] box and however many media records come before it: no
    partial list of segments is returned. *)
Theorem parseSidx_index_reference bs version1 flags refid timescale time
    first_offset pre r post rest offset :
  let refs := pre ++ r :: post in
  let content := sidx_content version1 flags refid timescale time
                   first_offset refs in
  other_boxes SIDX bs ->
  length flags = 3%nat -> length refid = 4%nat ->
  Z.of_nat (length refs) < 2 ^ 16 ->
  Z.of_nat (length content) + 8 < 2 ^ 32 ->
  Forall media_record pre ->
  ref_index r = true -> 0 <= ref_size r < 2 ^ 31 ->
  0 <= ref_duration r < 2 ^ 32 -> length (ref_sap r) = 4%nat ->
  parseSidx (boxes bs ++ box SIDX content ++ rest) offset =
  Throw NotImplemented.
Proof.
  intros refs content Hbs Hf Hr Hcount Hsize Hpre Hidx Hs Hd Hsap.
  set (size := Z.of_nat (length content) + 8) in *.
  set (buf := boxes bs ++ box SIDX content ++ rest).
  set (i := Z.of_nat (length (boxes bs))).
  assert (Hfind : findAtom buf SIDX = Ret i).
  { apply findAtom_locates; try assumption.
    - unfold SIDX. lia.
    - unfold content, sidx_content. rewrite !length_app. cbn [length]. lia. }
  unfold parseSidx. rewrite Hfind.
  destruct (Z.eqb_spec i (-1)); [lia|].
  assert (Hver : get buf (i + 4 + 4) =
                 Num (b2z (if version1 then x01 else x00))).
  { eapply (get_layout buf (boxes bs ++ itobe4 (Num size)
                            ++ itobe4 (Num SIDX))); [layout|].
    unfold i. layout_length. }
  rewrite Hver.
  set (upto := boxes bs ++ itobe4 (Num size) ++ itobe4 (Num SIDX)
               ++ [if version1 then x01 else x00] ++ flags ++ refid
               ++ itobe4 (Num timescale)).
  assert (Hupto : Z.of_nat (length upto) = i + 20).
  { unfold upto, i. rewrite !length_app, Hf, Hr. layout_length. }
  destruct version1.
  - change (eqb (Num (b2z x01)) (Num 0)) with false.
    change (eqb (Num (b2z x01)) (Num 1)) with true. cbv iota zeta.
    assert (Hcnt : be2toi buf (i + 4 + 4 + (4 + 4) + 4 + 8 + 8 + 2) =
                   Num (Z.of_nat (length refs))).
    { eapply (be2toi_layout buf (upto ++ field64 time ++ field64 first_offset
                                 ++ [x00; x00]));
        [layout | lia|].
      rewrite !length_app, !length_field64. cbn [length]. lia. }
    rewrite Hcnt. cbn [turns]. rewrite Nat2Z.id.
    set (p := upto ++ field64 time ++ field64 first_offset
              ++ [x00; x00] ++ field16 (Z.of_nat (length refs))).
    replace buf with (p ++ flat_map reference_bytes refs ++ rest) by layout.
    replace (i + 4 + 4 + (4 + 4) + 4 + 8 + 8 + 2 + 2)
      with (Z.of_nat (length p))
      by (unfold p; rewrite !length_app, !length_field64, length_field16;
          cbn [length]; lia).
    unfold refs. now rewrite references_index.
  - change (eqb (Num (b2z x00)) (Num 0)) with true. cbv iota zeta.
    assert (Hcnt : be2toi buf (i + 4 + 4 + (4 + 4) + 4 + 4 + 4 + 2) =
                   Num (Z.of_nat (length refs))).
    { eapply (be2toi_layout buf (upto ++ itobe4 (Num time)
                                 ++ itobe4 (Num first_offset) ++ [x00; x00]));
        [layout | lia|].
      rewrite !length_app, !length_itobe4. cbn [length]. lia. }
    rewrite Hcnt. cbn [turns]. rewrite Nat2Z.id.
    set (p := upto ++ itobe4 (Num time) ++ itobe4 (Num first_offset)
              ++ [x00; x00] ++ field16 (Z.of_nat (length refs))).
    replace buf with (p ++ flat_map reference_bytes refs ++ rest) by layout.
    replace (i + 4 + 4 + (4 + 4) + 4 + 4 + 4 + 2 + 2)
      with (Z.of_nat (length p))
      by (unfold p; rewrite !length_app, !length_itobe4, length_field16;
          cbn [length]; lia).
    unfold refs. now rewrite references_index.
Qed.

Lemma parseSidx_index_reference_witness :
  let refs := [mkReference false 100 500 (repeat x00 4)]
              ++ mkReference true 150 600 (repeat x00 4) :: [] in
  let content := sidx_content false (repeat x00 3) (repeat x01 4)
                   1000 0 0 refs in
  parseSidx (boxes [] ++ box SIDX content ++ []) (Num 0) =
  Throw NotImplemented.
Proof.
  intros refs content.
  apply (parseSidx_index_reference [] false (repeat x00 3) (repeat x01 4)
           1000 0 0 [mkReference false 100 500 (repeat x00 4)]
           (mkReference true 150 600 (repeat x00 4)) [] [] (Num 0));
    try reflexivity; try (cbn; lia).
  - constructor.
  - repeat constructor; cbn; lia.
Defined.

Lemma be2toi_bound (buf : list byte) k n :
  be2toi buf k = Num n -> 0 <= n < 2 ^ 16.
Proof.
  unfold be2toi, get.
  destruct (k <? 0); [discriminate|].
  destruct (buf !! Z.to_nat k) as [b0|]; [|discriminate].
  destruct (k + 1 <? 0); [discriminate|].
  destruct (buf !! Z.to_nat (k + 1)) as [b1|]; [|discriminate].
  cbn [mul add]. intros H. injection H as <-.
  pose proof (b2z_range b0). pose proof (b2z_range b1). lia.
Qed.

Lemma turns_bound (buf : list byte) k :
  Z.of_nat (turns (be2toi buf k)) < 65536.
Proof.
  destruct (be2toi buf k) as [n|] eqn:Hn; cbn [turns]; [|lia].
  apply be2toi_bound in Hn. lia.
Qed.

(** What the loop of [parseSidx] adds to the segments. *)
Lemma references_chained n : forall buf pos time offset acc segs,
  references n buf pos time offset acc = Ret segs ->
  exists new,
    segs = acc ++ new /\ length new = n /\
    Forall (fun g => r g = 0) new /\ chained new /\
    match new with
    | g :: _ => ts g = time /\ fst (range g) = offset
    | [] => True
    end.
Proof.
  induction n as [|n IH]; intros buf pos time offset acc segs Href.
  - cbn in Href. injection Href as <-. exists []. rewrite app_nil_r.
    repeat split; constructor.
  - cbn [references] in Href.
    destruct (eqb _ (Num 1)); [discriminate|].
    apply IH in Href as (new & -> & Hlen & Hr & Hch & Hhead).
    eexists (_ :: new). split; [now rewrite <- app_assoc|].
    split; [cbn; lia|]. split; [now constructor|].
    split; [|split; reflexivity].
    cbn [chained]. split; [|assumption].
    destruct new as [|g new]; [exact I|].
    destruct Hhead as [-> ->]. split; reflexivity.
Qed.

(** What [parseSidx] returns, on any bytes: segments chained by the
    rounded sums of the loop, with a repeat count of 0, fewer than 65536
    of them. *)
Lemma parseSidx_segments buf offset index :
  parseSidx buf offset = Ret (Some index) ->
  chained (segments index) /\
  Forall (fun g => r g = 0) (segments index) /\
  Z.of_nat (length (segments index)) < 65536.
Proof.
  unfold parseSidx.
  destruct (findAtom buf SIDX) as [i|e]; [|discriminate].
  destruct (i =? -1); [discriminate|].
  assert (Hloop : forall k time off ts0,
    match references (turns (be2toi buf k)) buf (k + 2) time off [] with
    | Throw e => Throw e
    | Ret segs => Ret (Some (mkSidx segs ts0))
    end = Ret (Some index) ->
    chained (segments index) /\
    Forall (fun g => r g = 0) (segments index) /\
    Z.of_nat (length (segments index)) < 65536).
  { intros k time off ts0 H.
    destruct (references _ _ _ _ _ _) as [segs|e] eqn:Href; [|discriminate].
    injection H as <-. cbn [segments].
    apply references_chained in Href as (new & -> & Hlen & Hr & Hch & _).
    cbn [app]. repeat split; try assumption.
    rewrite Hlen. apply turns_bound. }
  destruct (eqb _ (Num 0)); [apply Hloop|].
  destruct (eqb _ (Num 1)); [apply Hloop | discriminate].
Qed.

(** A sum that was rounded is not below [2 ^ 53]: a rounded result
    below [2 ^ 53] is the exact one. *)
Lemma round53_exact z : Z.abs (round53 z) < 2 ^ 53 -> round53 z = z.
Proof.
  unfold round53.
  destruct (Z.ltb_spec (Z.abs z) (2 ^ 53)) as [|Hbig]; [reflexivity|].
  intros Hsmall. exfalso.
  set (a := Z.abs z) in *.
  set (e := Z.log2 a - 52) in *.
  assert (Ha : 0 < a) by lia.
  pose proof (Z.log2_spec a Ha) as [Hlow _].
  assert (Hlog : 53 <= Z.log2 a).
  { change 53 with (Z.log2 (2 ^ 53)). apply Z.log2_le_mono. exact Hbig. }
  assert (He : 1 <= e) by (unfold e; lia).
  assert (Hpow : 2 <= 2 ^ e).
  { change 2 with (2 ^ 1) at 1. apply Z.pow_le_mono_r; lia. }
  assert (Hq : 2 ^ 52 <= a / 2 ^ e).
  { apply Z.div_le_lower_bound; [lia|].
    rewrite <- Z.pow_add_r by lia.
    replace (e + 52) with (Z.log2 a) by (unfold e; lia). exact Hlow. }
  set (q := a / 2 ^ e) in *.
  set (q' := if a mod 2 ^ e <? 2 ^ (e - 1) then q
             else if 2 ^ (e - 1) <? a mod 2 ^ e then q + 1
             else if Z.even q then q else q + 1) in *.
  assert (Hq' : q <= q').
  { unfold q'. destruct (_ <? _); [lia|]. destruct (_ <? _); [lia|].
    destruct (Z.even q); lia. }
  assert (Hprod : 2 ^ 53 <= q' * 2 ^ e).
  { change (2 ^ 53) with (2 ^ 52 * 2).
    apply Z.mul_le_mono_nonneg; lia. }
  destruct z as [|p|p]; cbn [Z.sgn] in Hsmall; unfold a in *;
    cbn [Z.abs] in *; lia.
Qed.

(** Within the safe integers the rounded chain is the exact one. *)
Lemma chained_contiguous segs :
  chained segs ->
  Forall (fun g => safe (ts g) /\ safe (snd (range g))) segs ->
  contiguous segs.
Proof.
  induction segs as [|s1 rest IH]; intros Hch Hsafe; [exact I|].
  destruct Hch as [Hlink Hch].
  inversion Hsafe as [|g rest' [_ Hend1] Hrest]; subst.
  cbn [contiguous]. split; [|now apply IH].
  destruct rest as [|s2 rest]; [exact I|].
  destruct Hlink as [Htime Hrange].
  inversion Hrest as [|g rest' [Hts2 _] _]; subst.
  unfold fadd in Htime. unfold fsub in Hrange.
  destruct (ts s1) as [t|]; [|rewrite Htime in Hts2; contradiction].
  destruct (d s1) as [dd|]; [|rewrite Htime in Hts2; contradiction].
  destruct (fst (range s2)) as [a2|];
    [|rewrite Hrange in Hend1; contradiction].
  rewrite Htime in Hts2. rewrite Hrange in Hend1. cbn [safe] in *.
  exists t, dd, (a2 - 1).
  rewrite Htime, Hrange, (round53_exact _ Hts2), (round53_exact _ Hend1).
  repeat split. f_equal. lia.
Qed.

(** X8.  Whatever the bytes and the offset, when [parseSidx] returns a
    segment index whose times and ends of ranges are safe integers (of
    absolute value below [2 ^ 53]), its segments follow one another in
    exact arithmetic: the time of each one is the time of the one before
    plus its duration, and the byte range of each one starts one byte
    after the end of the range of the one before; their repeat count is
    0 and there are fewer than 65536 of them. *)
Theorem parseSidx_contiguous buf offset index :
  parseSidx buf offset = Ret (Some index) ->
  Forall (fun g => safe (ts g) /\ safe (snd (range g))) (segments index) ->
  contiguous (segments index) /\
  Forall (fun g => r g = 0) (segments index) /\
  Z.of_nat (length (segments index)) < 65536.
Proof.
  intros Hparse Hsafe.
  destruct (parseSidx_segments buf offset index Hparse) as (Hch & Hr & Hlen).
  repeat split; try assumption.
  now apply chained_contiguous.
Qed.

Lemma parseSidx_contiguous_witness :
  let buf := synthetic_sidx [x00; x00; x00] [x00; x00; x00; x01]
               (repeat x00 4) (repeat x00 4) in
  let index := mkSidx
      [mkSegment (Num 0) (Num 500) 0 (Num 56, Num 155);
       mkSegment (Num 500) (Num 500) 0 (Num 156, Num 305)]
      (Num 1000) in
  contiguous (segments index) /\
  Forall (fun g => r g = 0) (segments index) /\
  Z.of_nat (length (segments index)) < 65536.
Proof.
  intros buf index. apply (parseSidx_contiguous buf (Num 0) index).
  - vm_compute. reflexivity.
  - repeat constructor; cbn; lia.
Defined.

(** Past the safe integers the sums are rounded and the ranges no longer
    follow one another: with the anchor [2 ^ 53] the first range of the
    synthetic index ends on the byte the second one starts with. *)
Example parseSidx_unsafe_anchor :
  let buf := synthetic_sidx [x00; x00; x00] [x00; x00; x00; x01]
               (repeat x00 4) (repeat x00 4) in
  exists s1 s2 ts0,
    parseSidx buf (Num (2 ^ 53)) = Ret (Some (mkSidx [s1; s2] ts0)) /\
    snd (range s1) = fst (range s2).
Proof. vm_compute. do 3 eexists. split; reflexivity. Qed.

(** ** Patching, further *)

(** What [patchPssh] returns when [findAtom] returns an offset, that of
    a region of [size] bytes inside the buffer: the bytes before it, a
    new length field, the rest of the region, the new boxes in order,
    the bytes after the region; and the array buffers of the store are
    what they were. *)
Lemma patchPssh_result (h : heap) buf pssList pos size :
  valid h buf -> pssList <> [] -> Forall (well_formed h) pssList ->
  findAtom (elements h buf) MOOV = Ret pos -> pos <> -1 ->
  0 <= pos -> 0 < size -> pos + size <= Z.of_nat (len buf) ->
  be4toi (elements h buf) pos = Num size ->
  size + pssh_total pssList < 2 ^ 32 ->
  exists out h',
    patchPssh buf (Some pssList) h = (Ret out, h') /\
    valid h' out /\
    take (length h) h' = h /\
    elements h' out =
      take (Z.to_nat pos) (elements h buf)
      ++ (itobe4 (Num (size + pssh_total pssList))
          ++ drop 4 (take (Z.to_nat size)
                       (drop (Z.to_nat pos) (elements h buf))
                     ++ flat_map (fun p => pssh_bytes (systemId p)
                                   (elements h (privateData p))) pssList))
      ++ drop (Z.to_nat (pos + size)) (elements h buf).
Proof.
  intros Hbuf Hne Hwf Hfind Hfound H0 Hs0 Hin Hsize Hbound.
  pose proof (length_elements _ _ Hbuf) as Hlen.
  pose proof (valid_lt _ _ Hbuf) as Hlt.
  set (bytes := elements h buf) in *.
  assert (Htotal : 32 <= pssh_total pssList).
  { destruct pssList as [|p rest]; [congruence|].
    cbn [pssh_total fold_right]. fold (pssh_total rest).
    assert (0 <= pssh_total rest).
    { clear. induction rest as [|q rest IH]; cbn; [lia|].
      fold (pssh_total rest). unfold pssh_length. lia. }
    unfold pssh_length. lia. }
  (* the windows on the buffer *)
  destruct (elements_window h buf (Z.to_nat pos) (Z.to_nat size) Hbuf)
    as [Hmoov_v Hmoov]; [lia|].
  destruct (elements_window h buf 0 (Z.to_nat pos) Hbuf)
    as [Hpre_v Hpre]; [lia|].
  destruct (elements_window h buf (Z.to_nat (pos + size))
              (Z.to_nat (Z.of_nat (len buf) - (pos + size))) Hbuf)
    as [Hpost_v Hpost]; [lia|].
  fold bytes in Hmoov, Hpre, Hpost.
  (* the run *)
  unfold patchPssh.
  destruct pssList as [|p0 rest0] eqn:Epss; [congruence|]. rewrite <- Epss in *.
  unfold Heap.bind at 1. unfold reading at 1. fold bytes. rewrite Hfind.
  destruct (Z.eqb_spec pos (-1)); [contradiction|].
  unfold Heap.bind at 1. unfold reading at 1. fold bytes. rewrite Hsize.
  cbn [add].
  rewrite subarray_in_range by lia.
  rewrite subarray_in_range by lia.
  rewrite subarray_to_end by lia.
  replace (pos + size - pos) with size by lia.
  rewrite Z.sub_0_r. change (Z.to_nat 0) with 0%nat.
  set (moov := mkU8 (buffer buf) (byteOffset buf + Z.to_nat pos)
                    (Z.to_nat size)) in *.
  set (pre := mkU8 (buffer buf) (byteOffset buf + 0) (Z.to_nat pos)) in *.
  set (post := mkU8 (buffer buf) (byteOffset buf + Z.to_nat (pos + size))
                 (Z.to_nat (Z.of_nat (len buf) - (pos + size)))) in *.
  destruct (pushPssh_ok pssList h [moov] Hwf) as (bxs & ext & Hpush & Hflat).
  unfold Heap.bind at 1. rewrite Hpush.
  unfold Heap.bind at 1. rewrite concat_alloc. unfold alloc at 1.
  rewrite concat_bytes_arrays. cbn [app flat_map].
  rewrite Hflat, elements_app, Hmoov by (now apply valid_lt).
  set (psshs := flat_map _ pssList) in *.
  set (nb := take (Z.to_nat size) (drop (Z.to_nat pos) bytes) ++ psshs).
  assert (Hnb : Z.of_nat (length nb) = size + pssh_total pssList).
  { unfold nb, psshs. rewrite length_app, Nat2Z.inj_add.
    rewrite (length_pssh_boxes h pssList Hwf).
    rewrite length_take, length_drop. fold bytes. lia. }
  rewrite bind_alloc. cbn [len].
  set (lb := itobe4 (Num (Z.of_nat (length nb)))).
  unfold Heap.bind at 1. unfold set. cbn [len buffer byteOffset].
  change (length lb) with 4%nat.
  destruct (Z.ltb_spec 0 0); [lia|].
  destruct (Z.ltb_spec (Z.of_nat (length nb)) (0 + Z.of_nat 4)); [lia|].
  cbn [orb].
  change (0 + Z.to_nat 0)%nat with 0%nat. cbn [take app].
  set (h1 := h ++ ext).
  assert (Hold : ((h1 ++ [nb]) ++ [lb]) !! length h1 = Some nb).
  { rewrite <- app_assoc. rewrite lookup_app_r by lia.
    now rewrite Nat.sub_diag. }
  rewrite Hold. cbn [default]; unfold id.
  replace (elements ((h1 ++ [nb]) ++ [lb])
             (mkU8 (length (h1 ++ [nb])) 0 4)) with lb
    by (symmetry; apply (elements_alloc (h1 ++ [nb]) lb)).
  change (take 0 nb) with (@nil byte). cbn [app].
  set (rebuilt := lb ++ drop (0 + 4) nb).
  assert (Hreb : length rebuilt = length nb).
  { unfold rebuilt. rewrite length_app, length_drop.
    change (length lb) with 4%nat. lia. }
  set (h3 := <[length h1 := rebuilt]> ((h1 ++ [nb]) ++ [lb])).
  rewrite concat_alloc. unfold alloc.
  assert (Hh3 : forall a, valid h a -> elements h3 a = elements h a).
  { intros a Ha. pose proof (valid_lt _ _ Ha) as Ha'. unfold h3, h1.
    rewrite elements_insert_ne by (rewrite length_app; lia).
    rewrite !elements_app; try reflexivity;
      rewrite ?length_app; cbn [length]; lia. }
  assert (Hnew : elements h3 (mkU8 (length h1) 0 (length nb)) = rebuilt).
  { unfold elements, h3. cbn [buffer byteOffset len].
    rewrite list_lookup_insert_eq by (rewrite !length_app; cbn [length]; lia).
    cbn [default drop]; unfold id. apply take_ge. lia. }
  cbn [map resolve].
  rewrite (Hh3 pre), (Hh3 post) by assumption. rewrite Hnew.
  rewrite Hpre, Hpost. cbn [drop].
  unfold concat_bytes. cbn [flat_map]. rewrite app_nil_r.
  change (drop 0 bytes) with bytes.
  rewrite (take_ge (drop (Z.to_nat (pos + size)) bytes))
    by (rewrite length_drop; fold bytes; lia).
  set (outb := take (Z.to_nat pos) bytes ++ rebuilt
               ++ drop (Z.to_nat (pos + size)) bytes).
  exists (mkU8 (length h3) 0 (length outb)), (h3 ++ [outb]).
  split; [reflexivity|].
  split; [apply valid_fresh|].
  split.
  - unfold h3, h1. rewrite <- !app_assoc.
    rewrite take_app_le by (rewrite length_insert, length_app; lia).
    rewrite take_insert_ge by (rewrite length_app; lia).
    apply take_app_length.
  - rewrite elements_alloc. unfold outb, rebuilt, lb.
    now rewrite Hnb.
Qed.

Lemma box_as_boxes n c bs : box n c ++ boxes bs = boxes ((n, c) :: bs).
Proof. reflexivity. Qed.

(** When [findAtom] returns the offset of a well-formed box, the new
    boxes become the end of the content of that box. *)
Lemma patchPssh_at_box (h : heap) buf pre name content rest pssList :
  valid h buf ->
  elements h buf = pre ++ box name content ++ rest ->
  findAtom (elements h buf) MOOV = Ret (Z.of_nat (length pre)) ->
  0 <= name < 2 ^ 32 ->
  pssList <> [] -> Forall (well_formed h) pssList ->
  Z.of_nat (length content) + 8 + pssh_total pssList < 2 ^ 32 ->
  exists out h',
    patchPssh buf (Some pssList) h = (Ret out, h') /\
    valid h' out /\
    take (length h) h' = h /\
    elements h' out =
      pre
      ++ box name (content
                   ++ flat_map (fun p => pssh_bytes (systemId p)
                                  (elements h (privateData p))) pssList)
      ++ rest.
Proof.
  intros Hbuf Hbytes Hfind Hname Hne Hwf Hbound.
  pose proof (length_elements _ _ Hbuf) as Hlen.
  pose proof (length_pssh_boxes h pssList Hwf) as Htotal.
  assert (Hpos0 : 0 <= pssh_total pssList) by lia.
  set (size := Z.of_nat (length content) + 8) in *.
  set (pos := Z.of_nat (length pre)) in *.
  assert (Hsize : be4toi (elements h buf) pos = Num size).
  { rewrite Hbytes. unfold box. rewrite <- !app_assoc.
    apply be4toi_field; [fold size; lia | reflexivity]. }
  assert (Hl : Z.of_nat (len buf) =
               pos + size + Z.of_nat (length rest)).
  { rewrite <- Hlen, Hbytes, !length_app, length_box. unfold pos, size. lia. }
  destruct (patchPssh_result h buf pssList pos size)
    as (out & h' & Hrun & Hout & Hframe & Helems);
    try assumption; try (unfold pos, size; lia).
  exists out, h'. repeat split; try assumption.
  rewrite Helems, Hbytes.
  rewrite (take_app_length' pre _ (Z.to_nat pos)) by (unfold pos; lia).
  rewrite (drop_app_length' pre _ (Z.to_nat pos)) by (unfold pos; lia).
  rewrite (take_app_length' (box name content) rest (Z.to_nat size))
    by (rewrite length_box; unfold size; lia).
  replace (Z.to_nat (pos + size))
    with (length pre + length (box name content))%nat
    by (rewrite length_box; unfold pos, size; lia).
  rewrite <- drop_drop, drop_app_length, drop_app_length.
  do 2 f_equal. unfold box.
  rewrite length_app, Nat2Z.inj_add, Htotal.
  replace (Z.of_nat (length content) + pssh_total pssList + 8)
    with (size + pssh_total pssList) by (unfold size; lia).
  rewrite <- !app_assoc.
  now rewrite (drop_app_length' (itobe4 (Num size)) _ 4).
Qed.

(** On well-formed boxes: the new boxes become the end of the content of
    the [moov] box. *)
Lemma patchPssh_boxes_spec (h : heap) buf bs content rest pssList :
  valid h buf ->
  elements h buf = boxes bs ++ box MOOV content ++ rest ->
  other_boxes MOOV bs ->
  (0 < length (content ++ rest))%nat ->
  pssList <> [] -> Forall (well_formed h) pssList ->
  Z.of_nat (length content) + 8 + pssh_total pssList < 2 ^ 32 ->
  exists out h',
    patchPssh buf (Some pssList) h = (Ret out, h') /\
    valid h' out /\
    take (length h) h' = h /\
    elements h' out =
      boxes bs
      ++ box MOOV (content
                   ++ flat_map (fun p => pssh_bytes (systemId p)
                                  (elements h (privateData p))) pssList)
      ++ rest.
Proof.
  intros Hbuf Hbytes Hbs Hmore Hne Hwf Hbound.
  pose proof (length_pssh_boxes h pssList Hwf) as Htotal.
  apply patchPssh_at_box; try assumption; [|unfold MOOV; lia].
  rewrite Hbytes. apply findAtom_locates; try assumption.
  - unfold MOOV. lia.
  - lia.
Qed.

(** *** A last box that is only a header *)

Lemma ends_with_content_snoc bs b :
  ends_with_content (bs ++ [b]) <-> snd b <> [].
Proof.
  induction bs as [|b0 bs IH]; [reflexivity|].
  destruct bs as [|b1 bs]; [reflexivity|]. exact IH.
Qed.

Lemma boxes_snoc bs n c : boxes (bs ++ [(n, c)]) = boxes bs ++ box n c.
Proof.
  unfold boxes. rewrite flat_map_app. cbn [flat_map fst snd].
  now rewrite app_nil_r.
Qed.

(** The loop stops in front of a header that ends with the buffer, and
    the size it leaves with is the one of the box before. *)
Lemma scan_last_header atomName bs n c tail :
  other_boxes atomName (bs ++ [(n, c)]) -> length tail = 8%nat ->
  scan (boxes (bs ++ [(n, c)]) ++ tail) atomName 0 NaN =
  Ret (Z.of_nat (length (boxes (bs ++ [(n, c)]))),
       Num (Z.of_nat (length c) + 8)).
Proof.
  intros Hbs Htail.
  apply Forall_app in Hbs as [Hbs Hlast].
  inversion Hlast as [|b l0 (Hn & Hne & Hc) _]; subst. cbn [fst snd] in *.
  rewrite boxes_snoc, <- app_assoc.
  destruct (scan_skips_boxes atomName bs [] NaN (box n c ++ tail) Hbs)
    as [size' Hskip].
  { rewrite length_app, length_box. lia. }
  cbn [app length] in Hskip. change (Z.of_nat 0) with 0 in Hskip.
  rewrite Hskip, scan_unfold.
  set (buf := boxes bs ++ box n c ++ tail).
  set (i := Z.of_nat (length (boxes bs))).
  assert (Hl : Z.of_nat (length buf) = i + 8 + Z.of_nat (length c) + 8).
  { unfold buf, i. rewrite !length_app, length_box. lia. }
  destruct (Z.ltb_spec (i + 8) (Z.of_nat (length buf))); [|lia].
  assert (Hsz : be4toi buf i = Num (Z.of_nat (length c) + 8)).
  { unfold buf, box. rewrite <- !app_assoc.
    apply be4toi_field; [lia | reflexivity]. }
  assert (Hnm : be4toi buf (i + 4) = Num n).
  { unfold buf, box. rewrite <- !app_assoc, (app_assoc (boxes bs)).
    apply be4toi_field; [assumption|].
    rewrite length_app, length_itobe4. unfold i. lia. }
  rewrite Hsz, Hnm.
  destruct (Z.ltb_spec 0 (Z.of_nat (length c) + 8)); [|lia].
  rewrite eqb_false_of_neq by congruence.
  rewrite scan_unfold.
  destruct (Z.ltb_spec (i + (Z.of_nat (length c) + 8) + 8)
                       (Z.of_nat (length buf))); [lia|].
  do 2 f_equal. unfold i. rewrite length_app, length_box. lia.
Qed.

(** What [findAtom] makes of it: the range check is done for the last
    box with the size of the box before it. *)
Lemma findAtom_last_header atomName bs tail :
  other_boxes atomName bs -> length tail = 8%nat ->
  (ends_with_content bs ->
   findAtom (boxes bs ++ tail) atomName =
   Throw (AssertionError "dash: atom out of range")) /\
  (forall bs' n, bs = bs' ++ [(n, [])] ->
   findAtom (boxes bs ++ tail) atomName =
   Ret (Z.of_nat (length (boxes bs)))).
Proof.
  intros Hbs Htail.
  assert (Hl : forall pre : list byte,
    Z.of_nat (length (pre ++ tail)) = Z.of_nat (length pre) + 8)
    by (intros pre; rewrite length_app; lia).
  split.
  - intros Hlast.
    destruct bs as [|b0 bs0] using rev_ind.
    + cbn [boxes flat_map app]. unfold findAtom. rewrite scan_unfold.
      destruct (Z.ltb_spec (0 + 8) (Z.of_nat (length tail))); [lia|].
      destruct (Z.leb_spec (Z.of_nat (length tail)) 0); [lia | reflexivity].
    + clear IHbs0. destruct b0 as [n c].
      apply ends_with_content_snoc in Hlast. cbn [snd] in Hlast.
      unfold findAtom. rewrite scan_last_header by assumption.
      rewrite Hl.
      destruct (Z.leb_spec (Z.of_nat (length (boxes (bs0 ++ [(n, c)]))) + 8)
                  (Z.of_nat (length (boxes (bs0 ++ [(n, c)])))));
        [lia|].
      cbn [add leb].
      assert (0 < length c)%nat
        by (destruct c; [congruence | cbn; lia]).
      destruct (Z.leb_spec
                  (Z.of_nat (length (boxes (bs0 ++ [(n, c)]))) +
                   (Z.of_nat (length c) + 8))
                  (Z.of_nat (length (boxes (bs0 ++ [(n, c)]))) + 8));
        [lia | reflexivity].
  - intros bs' n ->.
    unfold findAtom. rewrite scan_last_header by assumption.
    rewrite Hl.
    destruct (Z.leb_spec (Z.of_nat (length (boxes (bs' ++ [(n, [])]))) + 8)
                (Z.of_nat (length (boxes (bs' ++ [(n, [])])))));
      [lia|].
    cbn [add leb length].
    destruct (Z.leb_spec
                (Z.of_nat (length (boxes (bs' ++ [(n, [])]))) +
                 (Z.of_nat 0 + 8))
                (Z.of_nat (length (boxes (bs' ++ [(n, [])]))) + 8));
      [reflexivity | lia].
Qed.

(** C8.  Where [patchPssh] does not return a buffer without a [moov]
    box as it is: on well-formed boxes none of which is named [moov]
    and the last of which is only a header (8 bytes, no content).  The
    loop of [findAtom] runs while [i + 8 < l] and never reads that
    header.  When the buffer is that box alone, or the box before it has
    a content, [patchPssh] throws "dash: atom out of range" and the
    store is as it was; when the box before it is only a header too,
    [findAtom] returns the offset of the last box, whatever its name,
    and [patchPssh] puts the [pssh] boxes into it. *)
Theorem patchPssh_unread_last_box (h : heap) buf bs name pssList :
  valid h buf ->
  elements h buf = boxes bs ++ box name [] ->
  other_boxes MOOV bs -> 0 <= name < 2 ^ 32 -> name <> MOOV ->
  pssList <> [] -> Forall (well_formed h) pssList ->
  8 + pssh_total pssList < 2 ^ 32 ->
  (ends_with_content bs ->
   patchPssh buf (Some pssList) h =
   (Throw (AssertionError "dash: atom out of range"), h)) /\
  (forall bs' n, bs = bs' ++ [(n, [])] ->
   exists out h',
     patchPssh buf (Some pssList) h = (Ret out, h') /\
     elements h' out =
       boxes bs
       ++ box name (flat_map (fun p => pssh_bytes (systemId p)
                                (elements h (privateData p))) pssList)).
Proof.
  intros Hbuf Hbytes Hbs Hname Hne Hlist Hwf Hbound.
  destruct (findAtom_last_header MOOV bs (box name []) Hbs)
    as [Hthrow Hfound]; [apply length_box|].
  split.
  - intros Hlast. destruct pssList as [|p rest]; [congruence|].
    unfold patchPssh, Heap.bind, reading.
    now rewrite Hbytes, (Hthrow Hlast).
  - intros bs' n Hbs'.
    destruct (patchPssh_at_box h buf (boxes bs) name [] [] pssList)
      as (out & h' & Hrun & _ & _ & Helems); try assumption.
    + rewrite Hbytes. exact (Hfound bs' n Hbs').
    + exists out, h'. split; [assumption|].
      rewrite Helems. cbn [app]. now rewrite app_nil_r.
Qed.

Lemma patchPssh_unread_last_box_witness :
  let ftyp := (0x66747970, strToBytes "isom" ++ repeat x00 4) in
  let p := mkProtection "00000000-0000-0000-0000-000000000000"
                        (mkU8 1 0 2) in
  let h := [boxes [ftyp] ++ box 0x66726565 []; [x05; x06]] in
  patchPssh (mkU8 0 0 24) (Some [p]) h =
  (Throw (AssertionError "dash: atom out of range"), h).
Proof.
  intros ftyp p h.
  apply (patchPssh_unread_last_box h (mkU8 0 0 24) [ftyp] 0x66726565 [p]).
  - eexists. split; [reflexivity | cbn; lia].
  - reflexivity.
  - repeat constructor; cbn [fst snd length]; unfold MOOV; cbn; lia.
  - lia.
  - unfold MOOV. lia.
  - discriminate.
  - repeat constructor. eexists. split; [reflexivity | cbn; lia].
  - vm_compute. reflexivity.
  - cbn. discriminate.
Defined.

(** X9.  On a buffer made of well-formed boxes of other names, then a
    [moov] box that has a content or is followed by more bytes, then any
    bytes, and for a list of content protections that is not empty,
    whose system IDs have 32 characters once the hyphens are removed and
    whose private data are arrays of the store, the size of the [moov]
    box and of the new boxes together staying below [2 ^ 32]:
    [patchPssh] returns the same boxes, with the [pssh] boxes of the
    content protections, in their order, added at the end of the content
    of the [moov] box, whose size field counts them; the bytes before
    and after the [moov] box are the same. *)
Theorem patchPssh_boxes (h : heap) buf bs content rest pssList :
  valid h buf ->
  elements h buf = boxes bs ++ box MOOV content ++ rest ->
  other_boxes MOOV bs ->
  (0 < length (content ++ rest))%nat ->
  pssList <> [] -> Forall (well_formed h) pssList ->
  Z.of_nat (length content) + 8 + pssh_total pssList < 2 ^ 32 ->
  exists out h',
    patchPssh buf (Some pssList) h = (Ret out, h') /\
    valid h' out /\
    elements h' out =
      boxes bs
      ++ box MOOV (content
                   ++ flat_map (fun p => pssh_bytes (systemId p)
                                  (elements h (privateData p))) pssList)
      ++ rest.
Proof.
  intros Hbuf Hbytes Hbs Hmore Hne Hwf Hbound.
  destruct (patchPssh_boxes_spec h buf bs content rest pssList)
    as (out & h' & Hrun & Hout & _ & Helems); try assumption.
  now exists out, h'.
Qed.

Lemma patchPssh_boxes_witness :
  let bs := [(0x66747970, [x01; x02])] in
  let p := mkProtection "00000000-0000-0000-0000-000000000000"
                        (mkU8 1 0 2) in
  let h := [boxes bs ++ box MOOV [x03] ++ [x04]; [x05; x06]] in
  exists out h',
    patchPssh (mkU8 0 0 20) (Some [p]) h = (Ret out, h') /\
    valid h' out /\
    elements h' out =
      boxes bs
      ++ box MOOV ([x03]
                   ++ flat_map (fun p => pssh_bytes (systemId p)
                                  (elements h (privateData p))) [p])
      ++ [x04].
Proof.
  intros bs p h.
  apply (patchPssh_boxes h (mkU8 0 0 20) bs [x03] [x04] [p]).
  - eexists. split; [reflexivity | cbn; lia].
  - reflexivity.
  - repeat constructor; cbn [fst snd length]; unfold MOOV; lia.
  - cbn. lia.
  - discriminate.
  - repeat constructor. eexists. split; [reflexivity | cbn; lia].
  - vm_compute. reflexivity.
Defined.

Lemma valid_frame (h h' : heap) a :
  take (length h) h' = h -> valid h a -> valid h' a.
Proof.
  intros Htake (bs & Hbs & Hle). exists bs. split; [|assumption].
  pose proof (lookup_lt_Some _ _ _ Hbs) as Hlt.
  rewrite <- Htake in Hbs. now rewrite lookup_take_lt in Hbs.
Qed.

Lemma elements_frame (h h' : heap) a :
  take (length h) h' = h -> valid h a -> elements h' a = elements h a.
Proof.
  intros Htake Ha. pose proof (valid_lt _ _ Ha) as Hlt.
  unfold elements. do 3 f_equal.
  rewrite <- (lookup_take_lt h' (length h)) by lia. now rewrite Htake.
Qed.

Lemma pssh_total_app l1 l2 :
  pssh_total (l1 ++ l2) = pssh_total l1 + pssh_total l2.
Proof.
  induction l1 as [|p l1 IH]; [reflexivity|].
  cbn [app].
  change (pssh_total (p :: l1 ++ l2))
    with (pssh_length p + pssh_total (l1 ++ l2)).
  change (pssh_total (p :: l1)) with (pssh_length p + pssh_total l1).
  lia.
Qed.

(** X10.  Patching composes, on a buffer made of well-formed boxes of
    other names, then a [moov] box that has a content or is followed by
    more bytes, then any bytes, and for two lists of content protections
    (either may be empty) whose system IDs have 32 characters once the
    hyphens are removed and whose private data are arrays of the store,
    the size of the [moov] box and of all the new boxes together staying
    below [2 ^ 32]: patching the buffer for the first list and patching
    the result for the second list gives the bytes that patching once
    for the two lists one after the other gives. *)
Theorem patchPssh_twice (h : heap) buf bs content rest l1 l2 :
  valid h buf ->
  elements h buf = boxes bs ++ box MOOV content ++ rest ->
  other_boxes MOOV bs ->
  (0 < length (content ++ rest))%nat ->
  Forall (well_formed h) l1 -> Forall (well_formed h) l2 ->
  Z.of_nat (length content) + 8 + pssh_total (l1 ++ l2) < 2 ^ 32 ->
  exists out1 h1 out2 h2 out h',
    patchPssh buf (Some l1) h = (Ret out1, h1) /\
    patchPssh out1 (Some l2) h1 = (Ret out2, h2) /\
    patchPssh buf (Some (l1 ++ l2)) h = (Ret out, h') /\
    elements h2 out2 = elements h' out.
Proof.
  intros Hbuf Hbytes Hbs Hmore Hwf1 Hwf2 Hbound.
  destruct l1 as [|p1 l1'].
  - (* nothing to add first *)
    cbn [app] in *.
    destruct l2 as [|p2 l2'].
    + exists buf, h, buf, h, buf, h. repeat split.
    + destruct (patchPssh_boxes_spec h buf bs content rest (p2 :: l2'))
        as (out & h' & Hrun & _); try assumption; [discriminate|].
      exists buf, h, out, h', out, h'. repeat split; assumption.
  - assert (Hne1 : p1 :: l1' <> []) by discriminate.
    remember (p1 :: l1') as l1 eqn:Hl1. clear Hl1 p1 l1'.
    rewrite pssh_total_app in Hbound.
    pose proof (length_pssh_boxes h l1 Hwf1) as Ht1.
    pose proof (length_pssh_boxes h l2 Hwf2) as Ht2.
    destruct (patchPssh_boxes_spec h buf bs content rest l1)
      as (out1 & h1 & Hrun1 & Hout1 & Hframe1 & Helems1);
      try assumption; try lia.
    destruct l2 as [|p2 l2'].
    + (* nothing to add next *)
      exists out1, h1, out1, h1, out1, h1. rewrite app_nil_r.
      repeat split; assumption.
    + assert (Hne2 : p2 :: l2' <> []) by discriminate.
      remember (p2 :: l2') as l2 eqn:Hl2. clear Hl2 p2 l2'.
      set (psshs1 := flat_map _ l1) in *.
      assert (Hwf2' : Forall (well_formed h1) l2).
      { eapply Forall_impl; [exact Hwf2|]. intros p [Hv Hid].
        split; [now apply (valid_frame h) | assumption]. }
      assert (Hsame : flat_map (fun p => pssh_bytes (systemId p)
                                  (elements h1 (privateData p))) l2 =
                      flat_map (fun p => pssh_bytes (systemId p)
                                  (elements h (privateData p))) l2).
      { clear - Hwf2 Hframe1. induction Hwf2 as [|p l [Hv _] _ IH];
          cbn [flat_map]; [reflexivity|].
        now rewrite IH, (elements_frame h h1). }
      destruct (patchPssh_boxes_spec h1 out1 bs (content ++ psshs1) rest l2)
        as (out2 & h2 & Hrun2 & Hout2 & _ & Helems2); try assumption.
      { rewrite !length_app in *. lia. }
      { pose proof (length_pssh_boxes h1 l2 Hwf2').
        rewrite length_app, Nat2Z.inj_add. lia. }
      destruct (patchPssh_boxes_spec h buf bs content rest (l1 ++ l2))
        as (out & h' & Hrun & Hout & _ & Helems); try assumption.
      { destruct l1; [congruence | discriminate]. }
      { now apply Forall_app. }
      { rewrite pssh_total_app. lia. }
      exists out1, h1, out2, h2, out, h'. repeat split; try assumption.
      rewrite Helems2, Helems, Hsame, flat_map_app.
      now rewrite <- app_assoc.
Qed.

Lemma patchPssh_twice_witness :
  let bs := [(0x66747970, [x01; x02])] in
  let p := mkProtection "00000000-0000-0000-0000-000000000000"
                        (mkU8 1 0 2) in
  let q := mkProtection "11111111222233334444555555555555" (mkU8 1 1 1) in
  let h := [boxes bs ++ box MOOV [x03] ++ [x04]; [x05; x06]] in
  let buf := mkU8 0 0 20 in
  exists out1 h1 out2 h2 out h',
    patchPssh buf (Some [p]) h = (Ret out1, h1) /\
    patchPssh out1 (Some [q]) h1 = (Ret out2, h2) /\
    patchPssh buf (Some ([p] ++ [q])) h = (Ret out, h') /\
    elements h2 out2 = elements h' out.
Proof.
  intros bs p q h buf.
  apply (patchPssh_twice h buf bs [x03] [x04] [p] [q]).
  - eexists. split; [reflexivity | cbn; lia].
  - reflexivity.
  - repeat constructor; cbn [fst snd length]; unfold MOOV; lia.
  - cbn. lia.
  - repeat constructor. eexists. split; [reflexivity | cbn; lia].
  - repeat constructor. eexists. split; [reflexivity | cbn; lia].
  - vm_compute. reflexivity.
Defined.

(** ** Protection boxes, further *)

Lemma pssh_bytes_box sid pd :
  pssh_bytes sid pd =
  box PSSH (repeat x00 4 ++ hexToBytes (removeHyphens sid)
            ++ itobe4 (Num (Z.of_nat (length pd))) ++ pd).
Proof. reflexivity. Qed.

(** X11.  The box [createPssh] builds is read back by the locator: it is
    a [pssh] box at offset 0 whose content is 4 zeroed bytes, the 16
    bytes decoded from the system ID without its hyphens, the length of
    the private data as a 32-bit big-endian field, and the private data
    themselves, unchanged. *)
Theorem createPssh_round_trip (h : heap) p :
  well_formed h p ->
  Z.of_nat (len (privateData p)) + 32 < 2 ^ 32 ->
  exists box h' content,
    createPssh p h = (Ret box, h') /\
    findAtom (elements h' box) PSSH = Ret 0 /\
    getAtomContent (elements h' box) PSSH = Ret (Some content) /\
    take 4 content = repeat x00 4 /\
    take 16 (drop 4 content) = hexToBytes (removeHyphens (systemId p)) /\
    be4toi content 20 = Num (Z.of_nat (len (privateData p))) /\
    drop 24 content = elements h (privateData p).
Proof.
  intros Hwf Hbound. pose proof Hwf as [Hpd Hid].
  pose proof (length_elements _ _ Hpd) as Hlen.
  pose proof (length_hexToBytes _ Hid) as Hhex.
  destruct (createPssh_ok h p Hwf) as [ext Hrun]. cbv zeta in Hrun.
  set (pd := elements h (privateData p)) in *.
  set (id := hexToBytes (removeHyphens (systemId p))) in *.
  set (content := repeat x00 4 ++ id
                  ++ itobe4 (Num (Z.of_nat (length pd))) ++ pd).
  assert (Hcontent : Z.of_nat (length content) =
                     24 + Z.of_nat (len (privateData p))).
  { unfold content. rewrite !length_app, Hhex, length_itobe4, Hlen.
    cbn [length repeat]. lia. }
  eexists _, _, content. split; [exact Hrun|].
  rewrite elements_alloc, pssh_bytes_box. fold pd id content.
  destruct (first_box_located PSSH [] content []) as [Hfind Hget].
  { constructor. }
  { unfold PSSH. lia. }
  { lia. }
  { rewrite length_app. lia. }
  cbn [boxes flat_map app length] in Hfind, Hget.
  rewrite app_nil_r in Hfind, Hget.
  split; [exact Hfind|]. split; [exact Hget|].
  split; [reflexivity|].
  split.
  - unfold content.
    rewrite (drop_app_length' (repeat x00 4) _ 4) by reflexivity.
    now rewrite (take_app_length' id _ 16) by (now rewrite Hhex).
  - split.
    + unfold content.
      rewrite (app_assoc (repeat x00 4)), Hlen.
      apply be4toi_field; [lia|].
      rewrite length_app, Hhex. reflexivity.
    + unfold content.
      rewrite !app_assoc.
      apply drop_app_length'.
      rewrite !length_app, Hhex, length_itobe4. reflexivity.
Qed.

Lemma createPssh_round_trip_witness :
  let h := [[x05; x06; x07]] in
  let p := mkProtection "edef8ba9-79d6-4ace-a3c8-27dcd51d21ed"
                        (mkU8 0 1 2) in
  exists box h' content,
    createPssh p h = (Ret box, h') /\
    findAtom (elements h' box) PSSH = Ret 0 /\
    getAtomContent (elements h' box) PSSH = Ret (Some content) /\
    take 4 content = repeat x00 4 /\
    take 16 (drop 4 content) = hexToBytes (removeHyphens (systemId p)) /\
    be4toi content 20 = Num (Z.of_nat (len (privateData p))) /\
    drop 24 content = elements h (privateData p).
Proof.
  intros h p. apply (createPssh_round_trip h p).
  - split; [|reflexivity]. eexists. split; [reflexivity | cbn; lia].
  - vm_compute. reflexivity.
Defined.

Lemma createPssh_accepts p (h : heap) :
  String.length (removeHyphens (systemId p)) = 32%nat ->
  exists box h', createPssh p h = (Ret box, h').
Proof.
  intros Hid. unfold createPssh. unfold Heap.bind at 1.
  unfold lift, assert. rewrite Hid. cbn [Nat.eqb].
  unfold Atom. rewrite !bind_alloc.
  unfold Heap.bind at 1. rewrite concat_alloc. unfold alloc at 1.
  rewrite !bind_alloc, concat_alloc. unfold alloc.
  eexists. eexists. reflexivity.
Qed.

Lemma createPssh_rejects p (h : heap) :
  String.length (removeHyphens (systemId p)) <> 32%nat ->
  createPssh p h = (Throw (AssertionError ""), h).
Proof.
  intros Hid. unfold createPssh. unfold Heap.bind at 1.
  unfold lift, assert.
  destruct (Nat.eqb_spec (String.length (removeHyphens (systemId p))) 32%nat);
    [contradiction | reflexivity].
Qed.

Lemma pushPssh_rejects pssList : forall newmoov (h : heap),
  Exists (fun p => String.length (removeHyphens (systemId p)) <> 32%nat)
         pssList ->
  fst (pushPssh pssList newmoov h) = Throw (AssertionError "").
Proof.
  induction pssList as [|p rest IH]; intros newmoov h Hbad.
  - inversion Hbad.
  - cbn [pushPssh]. unfold Heap.bind.
    destruct (Nat.eq_dec (String.length (removeHyphens (systemId p))) 32%nat)
      as [Hid|Hid].
    + destruct (createPssh_accepts p h Hid) as (bx & h' & ->).
      apply IH. inversion Hbad; [contradiction | assumption].
    + now rewrite (createPssh_rejects p h Hid).
Qed.

(** X12.  When [findAtom] finds the [moov] box, one content protection
    whose system ID does not have 32 characters once the hyphens are
    removed, wherever it is in the list, makes [patchPssh] throw the
    assertion error: no patched buffer is returned for the other
    content protections. *)
Theorem patchPssh_bad_system_id (h : heap) buf pssList pos :
  findAtom (elements h buf) MOOV = Ret pos -> pos <> -1 ->
  Exists (fun p => String.length (removeHyphens (systemId p)) <> 32%nat)
         pssList ->
  fst (patchPssh buf (Some pssList) h) = Throw (AssertionError "").
Proof.
  intros Hfind Hfound Hbad. unfold patchPssh.
  destruct pssList as [|p rest]; [inversion Hbad|].
  unfold Heap.bind at 1. unfold reading at 1. rewrite Hfind.
  destruct (Z.eqb_spec pos (-1)); [contradiction|].
  unfold Heap.bind at 1. unfold reading at 1.
  unfold Heap.bind at 1.
  pose proof (pushPssh_rejects (p :: rest)
                [subarray buf (Num pos)
                   (Some (add (Num pos) (be4toi (elements h buf) pos)))]
                h Hbad) as Hpush.
  destruct (pushPssh _ _ h) as [[bxs|e] h1]; cbn [fst] in Hpush;
    [discriminate|].
  cbn [fst]. congruence.
Qed.

Lemma patchPssh_bad_system_id_witness :
  let moov := box MOOV [x01; x02] in
  let good := mkProtection "00000000-0000-0000-0000-000000000000"
                           (mkU8 1 0 0) in
  let bad := mkProtection "0000" (mkU8 1 0 0) in
  fst (patchPssh (mkU8 0 0 10) (Some [good; bad; good]) [moov; []]) =
  Throw (AssertionError "").
Proof.
  intros moov good bad.
  apply (patchPssh_bad_system_id [moov; []] (mkU8 0 0 10)
           [good; bad; good] 0).
  - vm_compute. reflexivity.
  - lia.
  - apply Exists_cons_tl, Exists_cons_hd. vm_compute. discriminate.
Defined.

(** ** The buffering queue, further *)

Module QueueMore.
Import Queue QueueFacts.
Local Open Scope nat_scope.

Section WithSourceBuffer.

Context {R : Type} (sb : SourceBuffer R).

(** Once disposed of, the queue stays so and nothing is observed. *)
Lemma disposed_step i (w : world R) :
  buffer (this w) = false -> listening w = false ->
  flushing (this w) = None ->
  let w' := snd (step sb i w) in
  buffer (this w') = false /\ listening w' = false /\
  flushing (this w') = None /\ trace w' = trace w.
Proof.
  intros Hb Hl Hf.
  assert (Henq : forall t a,
    let w' := snd (queueAction sb t a w) in
    buffer (this w') = false /\ listening w' = false /\
    flushing (this w') = None /\ trace w' = trace w).
  { intros t a. unfold queueAction. rewrite Hb, Hf, Hl.
    destruct (Nat.eqb _ 1); [|cbn; auto].
    unfold flush. cbn [this flushing queue buffer].
    destruct (pop (_ :: _)) as [[e rest]|]; cbn; auto. }
  destruct i; cbn [step];
    unfold appendBuffer_, removeBuffer, appendStream_;
    try (match goal with
         | |- context [queueAction sb ?t ?a w] =>
             specialize (Henq t a); cbv zeta in Henq;
             destruct (queueAction sb t a w) as [o w']; exact Henq
         end);
    unfold dispose; rewrite ?Hb, ?Hl; cbn; auto.
Qed.

(** X13.  After [dispose], called on a queue that has its source buffer
    and not called again, the queue is inert: whatever is queued and
    whatever events arrive, no primitive of the source buffer is called
    and no subject is sent anything; and the first [queueAction] after
    [dispose] throws a [TypeError] ([this.buffer] is [null] when [flush]
    reads [updating]), its entry staying in the queue. *)
Theorem disposed_queue_is_inert (w : world R) ins handles t a :
  buffer (this w) = true ->
  Forall (fun i => i <> DoDispose) ins ->
  trace (fst (run sb ins (snd (dispose w)) handles)) = trace w /\
  flushing (this (fst (run sb ins (snd (dispose w)) handles))) = None /\
  fst (queueAction sb t a (snd (dispose w))) = Throw TypeError /\
  queue (this (snd (queueAction sb t a (snd (dispose w))))) =
    [mkEntry t a (subjects w)].
Proof.
  intros Hbuf _. unfold dispose. rewrite Hbuf. cbn [snd].
  assert (Hrun : forall ins (w0 : world R) hs,
    buffer (this w0) = false -> listening w0 = false ->
    flushing (this w0) = None ->
    trace (fst (run sb ins w0 hs)) = trace w0 /\
    flushing (this (fst (run sb ins w0 hs))) = None).
  { clear. induction ins as [|i ins IH]; intros w0 hs Hb Hl Hf;
      [now split|].
    cbn [run].
    destruct (disposed_step i w0 Hb Hl Hf) as (Hb' & Hl' & Hf' & Ht').
    destruct (step sb i w0) as [o w']. cbn [snd] in *.
    rewrite <- Ht'. now apply IH. }
  destruct (Hrun ins (mkWorld (mkQueue false [] None) (resource w) false
                        (trace w) (subjects w)) handles)
    as [Ht Hf]; try reflexivity.
  repeat split; try assumption.
Qed.

Section Busy.

Hypothesis Hbusy : forall r, updating sb r = true.



End Busy.

End WithSourceBuffer.


Lemma disposed_queue_is_inert_witness :
  let w := fst (run never_throws [DoAppendBuffer [x01]; DoRemoveBuffer 0 10]
                    (create false) []) in
  let ins := [DoAppendStream 7; EnvStep false; EvUpdate 1%Z; EvUpdateEnd] in
  trace (fst (run never_throws ins (snd (dispose w)) [0; 1])) = trace w /\
  flushing (this (fst (run never_throws ins (snd (dispose w)) [0; 1]))) =
    None /\
  fst (queueAction never_throws BUFFER_STREAM (Stream 7) (snd (dispose w))) =
    Throw TypeError /\
  queue (this (snd (queueAction never_throws BUFFER_STREAM (Stream 7)
                      (snd (dispose w))))) =
    [mkEntry BUFFER_STREAM (Stream 7) (subjects w)].
Proof.
  intros w ins.
  apply (disposed_queue_is_inert never_throws w ins [0; 1]).
  - reflexivity.
  - repeat constructor; discriminate.
Defined.

(** *** Draining *)

Lemma served_queued first ops : forall cs t a,
  length cs <= length ops ->
  served first (ops ++ [(t, a)]) cs =
  served first ops cs ++
  (if length cs =? length ops then [Called t a] else []).
Proof.
  revert first. induction ops as [|[t0 a0] ops IH]; intros first cs t a Hle.
  - destruct cs; [reflexivity | cbn [length] in Hle; lia].
  - destruct cs as [|c cs]; [destruct a0; reflexivity|].
    cbn [app served length] in *. rewrite IH by lia.
    cbn [Nat.eqb]. now rewrite <- app_assoc.
Qed.

Lemma served_ended first ops : forall cs c,
  length cs < length ops ->
  served first ops (cs ++ [c]) =
  served first ops cs ++ settlement (first + length cs) c ++
  match ops !! S (length cs) with
  | Some (t, a) => [Called t a]
  | None => []
  end.
Proof.
  revert first. induction ops as [|[t0 a0] ops IH]; intros first cs c Hlt.
  - cbn [length] in Hlt. lia.
  - destruct cs as [|c0 cs].
    + cbn [app served length]. rewrite Nat.add_0_r.
      destruct ops as [|[t1 a1] ops]; reflexivity.
    + cbn [app served length] in *. rewrite IH by lia.
      replace (S first + length cs) with (first + S (length cs)) by lia.
      now rewrite <- !app_assoc.
Qed.

Section Draining.

Context {R : Type} (sb : SourceBuffer R).

Hypothesis Hnothrow : forall t a r, fst (primitive sb t a r) = None.

Lemma queued_action (i : input (R := R)) :
  queued i <> [] ->
  exists t a, queued i = [(t, a)] /\
              forall w, step sb i w =
                        (Some (fst (queueAction sb t a w)),
                         snd (queueAction sb t a w)).
Proof.
  destruct i; cbn [queued]; try congruence; intros _;
    eexists; eexists; (split; [reflexivity|]); intros w; cbn [step];
    unfold appendBuffer_, removeBuffer, appendStream_;
    now destruct (queueAction _ _ _ _).
Qed.

(** One round: the operation in flight ends, its subject is settled and
    the next action, if any, is tried. *)
Lemma run_round (r : R) c (w : world R) hs j :
  buffer (this w) = true -> listening w = true ->
  flushing (this w) = Some j ->
  run sb (round (r, c)) w hs =
  (snd (flush sb (mkWorld (mkQueue true (queue (this w)) None) r true
                    (trace w ++ settlement j c) (subjects w))), hs).
Proof.
  intros Hb Hl Hf. unfold round. cbn [fst snd].
  destruct c; cbn [run step listening]; rewrite Hl;
    unfold onUpdate, onError; cbn [this flushing listening];
    rewrite Hf, Hb; reflexivity.
Qed.

(** Queueing an action: it is handed to the source buffer at once when
    the queue is at rest, and waits otherwise. *)
Lemma drained_queued ops cs (w : world R) hs t a :
  drained sb ops cs w hs ->
  fst (queueAction sb t a w) = Ret (length ops) /\
  drained sb (ops ++ [(t, a)]) cs (snd (queueAction sb t a w))
          (hs ++ [length ops]).
Proof using Hnothrow.
  intros (Hb & Hl & Hs & Hh & Ht & Hq).
  assert (Hseq : hs ++ [length ops] = seq 0 (length (ops ++ [(t, a)]))).
  { rewrite length_app. cbn [length]. rewrite Nat.add_1_r, seq_S, Hh.
    reflexivity. }
  destruct Hq as [(Hlt & Hf & Hq) | (Heq & Hf & Hq & Hidle)].
  - (* an operation is in flight *)
    assert (Hadd : queueAction sb t a w =
      (Ret (length ops),
       mkWorld (mkQueue true (mkEntry t a (length ops) :: queue (this w))
                        (Some (length cs)))
               (resource w) true (trace w) (S (length ops)))).
    { unfold queueAction, flush. rewrite Hf, Hs, Hb, Hl.
      cbn [this flushing]. now destruct (Nat.eqb _ 1). }
    rewrite Hadd. cbn [fst snd]. split; [reflexivity|].
    unfold drained.
    cbn [this buffer listening subjects trace flushing queue].
    repeat split; try assumption.
    + rewrite length_app. cbn [length]. lia.
    + rewrite served_queued by lia.
      destruct (Nat.eqb_spec (length cs) (length ops)); [lia|].
      now rewrite app_nil_r.
    + left. rewrite length_app. cbn [length].
      repeat split; [lia|].
      rewrite drop_app_le by lia. rewrite entries_snoc, rev_app_distr.
      cbn [rev app]. rewrite Hq, length_drop.
      replace (S (length cs) + (length ops - S (length cs)))
        with (length ops) by lia.
      reflexivity.
  - (* the queue is at rest *)
    assert (Hadd : queueAction sb t a w =
      (Ret (length ops),
       mkWorld (mkQueue true [] (Some (length ops)))
               (snd (primitive sb t a (resource w))) true
               (trace w ++ [Called t a]) (S (length ops)))).
    { unfold queueAction, flush. rewrite Hf, Hq, Hs, Hb, Hl.
      cbn [this queue flushing buffer resource subjects trace listening
           length Nat.eqb pop negb type args_ subj].
      rewrite Hidle. pose proof (Hnothrow t a (resource w)) as Hprim.
      destruct (primitive sb t a (resource w)) as [thrown r'].
      cbn [fst] in Hprim. now subst thrown. }
    rewrite Hadd. cbn [fst snd]. split; [reflexivity|].
    unfold drained.
    cbn [this buffer listening subjects trace flushing queue].
    repeat split; try assumption.
    + rewrite length_app. cbn [length]. lia.
    + rewrite served_queued by lia. rewrite Heq, Nat.eqb_refl.
      now rewrite Ht.
    + left. rewrite length_app. cbn [length].
      repeat split; [lia | now rewrite Heq |].
      rewrite drop_ge; [reflexivity|].
      rewrite length_app. cbn [length]. lia.
Qed.

(** The operation in flight ends: its subject is settled and the next
    action, if one waits, is handed to the source buffer. *)
Lemma drained_ended ops cs (w : world R) hs r c :
  drained sb ops cs w hs -> length cs < length ops ->
  updating sb r = false ->
  drained sb ops (cs ++ [c]) (fst (run sb (round (r, c)) w hs))
          (snd (run sb (round (r, c)) w hs)).
Proof using Hnothrow.
  intros (Hb & Hl & Hs & Hh & Ht & Hq) Hlt Hr.
  destruct Hq as [(_ & Hf & Hq) | (Heq & _)]; [|lia].
  rewrite (run_round r c w hs (length cs) Hb Hl Hf). cbn [fst snd].
  unfold flush. cbn [this flushing queue buffer resource negb].
  rewrite Hq.
  pose proof (served_ended 0 ops cs c Hlt) as Hserved.
  cbn [Nat.add] in Hserved.
  destruct (drop (S (length cs)) ops) as [|[t' a'] tl] eqn:Htl.
  - (* it was the last action queued *)
    assert (Hlen : length ops = S (length cs)).
    { assert (Hnil : length (drop (S (length cs)) ops) = 0)
        by now rewrite Htl.
      rewrite length_drop in Hnil. lia. }
    assert (Hnone : ops !! S (length cs) = None)
      by (apply lookup_ge_None_2; lia).
    rewrite Hnone, app_nil_r in Hserved.
    cbn [entries rev pop snd]. unfold drained.
    cbn [this buffer listening subjects trace flushing queue resource].
    repeat split; try assumption.
    + now rewrite Hserved, Ht.
    + right. rewrite length_app. cbn [length].
      repeat split; [lia | assumption].
  - cbn [entries rev]. rewrite pop_snoc, Hr.
    cbn [type args_ subj].
    pose proof (Hnothrow t' a' r) as Hprim.
    destruct (primitive sb t' a' r) as [thrown r'].
    cbn [fst] in Hprim. subst thrown. cbn [snd].
    assert (Hnext : ops !! S (length cs) = Some (t', a')).
    { rewrite <- (Nat.add_0_r (S (length cs))), <- lookup_drop, Htl.
      reflexivity. }
    assert (Htl' : tl = drop (S (S (length cs))) ops).
    { replace (S (S (length cs))) with (S (length cs) + 1) by lia.
      now rewrite <- drop_drop, Htl. }
    apply lookup_lt_Some in Hnext as Hlt'.
    rewrite Hnext in Hserved.
    unfold drained.
    cbn [this buffer listening subjects trace flushing queue resource].
    repeat split; try assumption.
    + rewrite Hserved, Ht. now rewrite <- app_assoc.
    + left. rewrite length_app. cbn [length]. rewrite Nat.add_1_r.
      repeat split; [lia|]. now rewrite Htl'.
Qed.

Lemma drained_run s : forall ops cs (w : world R) hs,
  drained sb ops cs w hs ->
  scheduled sb (length ops - length cs) s ->
  drained sb (ops ++ asked s) (cs ++ ended s)
          (fst (run sb (play s) w hs)) (snd (run sb (play s) w hs)).
Proof using Hnothrow.
  induction s as [|[i|[r c]] s IH]; intros ops cs w hs Hinv Hs.
  - cbn [play asked ended flat_map run fst snd]. now rewrite !app_nil_r.
  - destruct Hs as [Hi Hs].
    destruct (queued_action i Hi) as (t & a & Hq & Hstep).
    destruct (drained_queued ops cs w hs t a Hinv) as [Hret Hinv'].
    assert (Hle : length cs <= length ops)
      by (destruct Hinv as (_ & _ & _ & _ & _ & [(? & _)|(? & _)]); lia).
    cbn [play asked ended flat_map app run]. rewrite Hstep, Hq, Hret.
    fold (play s). fold (asked s). fold (ended s).
    replace (ops ++ [(t, a)] ++ asked s) with ((ops ++ [(t, a)]) ++ asked s)
      by (now rewrite <- app_assoc).
    apply IH; [exact Hinv'|].
    rewrite length_app. cbn [length].
    replace (length ops + 1 - length cs) with (S (length ops - length cs))
      by lia.
    exact Hs.
  - cbn [scheduled] in Hs.
    destruct (length ops - length cs) as [|p] eqn:Hp; [contradiction|].
    destruct Hs as [Hr Hs]. cbn [fst] in Hr.
    assert (Hlt : length cs < length ops) by lia.
    pose proof (drained_ended ops cs w hs r c Hinv Hlt Hr) as Hinv'.
    cbn [play asked ended flat_map app snd].
    fold (play s). fold (asked s). fold (ended s).
    rewrite run_app.
    replace (cs ++ c :: ended s) with ((cs ++ [c]) ++ ended s)
      by (now rewrite <- app_assoc).
    apply IH; [exact Hinv'|].
    rewrite length_app. cbn [length].
    replace (length ops - (length cs + 1)) with p by lia.
    exact Hs.
Qed.

(** X15.  When the primitives of the source buffer do not throw and the
    source buffer is not updating at first, then for every sequence of
    moves in which actions are queued and operations end in any order
    (an operation ends, with an [update] or an [error] event followed
    by [updateend] and the source buffer not updating, only while one
    is in flight): the callers get the subjects 0, 1, ... in order; the
    actions are handed to the source buffer one after the other in the
    order of their queueing, each after the one before has ended; each
    subject is sent the event, or the error, of its own operation, an
    error not stopping the actions after it; while fewer operations
    have ended than actions were queued, the first that has not ended
    is in flight; and once as many have ended as were queued, nothing
    is in flight and the queue is empty. *)
Theorem queue_drains (r0 : R) (s : list (move R)) :
  updating sb r0 = false ->
  scheduled sb 0 s ->
  let res := run sb (play s) (create r0) [] in
  trace (fst res) = served 0 (asked s) (ended s) /\
  snd res = seq 0 (length (asked s)) /\
  (length (ended s) < length (asked s) ->
   flushing (this (fst res)) = Some (length (ended s))) /\
  (length (ended s) = length (asked s) ->
   flushing (this (fst res)) = None /\ queue (this (fst res)) = []).
Proof using Hnothrow.
  intros Hr0 Hs.
  destruct (drained_run s [] [] (create r0) [])
    as (_ & _ & _ & Hh & Ht & Hq).
  - unfold drained, create.
    cbn [this buffer listening subjects trace flushing queue resource
         length served seq].
    repeat split. right. repeat split. exact Hr0.
  - exact Hs.
  - cbn [app] in *. cbv zeta. repeat split; try assumption.
    + intros Hlt. destruct Hq as [(_ & Hf & _) | (Heq & _)];
        [assumption | lia].
    + destruct Hq as [(Hlt & _) | (_ & Hf & _)]; [lia | assumption].
    + destruct Hq as [(Hlt & _) | (_ & _ & Hqu & _)]; [lia | assumption].
Qed.

End Draining.

Lemma queue_drains_witness :
  let s := [Queues (DoAppendBuffer [x01]); Queues (DoRemoveBuffer 0 10);
            Ends (false, Updated 1%Z);
            Ends (false, Errored (ResourceError 5));
            Queues (DoAppendStream 7); Ends (false, Updated 3%Z)] in
  let res := run never_throws (play s) (create false) [] in
  trace (fst res) = served 0 (asked s) (ended s) /\
  snd res = seq 0 (length (asked s)) /\
  (length (ended s) < length (asked s) ->
   flushing (this (fst res)) = Some (length (ended s))) /\
  (length (ended s) = length (asked s) ->
   flushing (this (fst res)) = None /\ queue (this (fst res)) = []).
Proof.
  intros s.
  apply (queue_drains never_throws).
  - intros [] ? ?; reflexivity.
  - reflexivity.
  - cbn. repeat split; discriminate.
Defined.

End QueueMore.
